(** * Ocean frontend: a shallow embedding of the display logic

    The development follows the JavaScript sources:
    - [Js]: the part of the language the components rely on (strings,
      IEEE 754 doubles, [parseFloat], [String], [toFixed], truthiness);
    - [Regex]: the regular expressions of the text formatter, run by a
      backtracking matcher with the ECMAScript priorities;
    - [ArgoFloatsMap]: heat points, nearest-point lookup, query string,
      synthetic depth profile (src/components/ArgoFloatsMap.jsx);
    - [FloatFilters]: the filter form submission
      (src/components/FloatFilters.jsx);
    - [App]: the text formatters and the chat send handler (src/App.jsx);
    - [MapPage], [FilterPanel], [Chat]: the state handlers of the map
      page, of the filter form and of the chat window;
    - [DepthProfileChart], [HeatmapLayer], [ViteConfig]: the chart of a
      profile, the heat layer's points and the proxy's path rewrite;
    - [Matching]: predicates on strings and matcher states used to state
      what a replacement keeps.

    The properties follow the definitions, one module for each subject:
    [NumberFacts], [StringFacts], [HeatmapFacts], [NearestFacts],
    [FilterFacts], [ProfileFacts], [ChatFacts], [RegexFacts],
    [CleanTextFacts] and [FormatFacts]; then the further properties of
    the components, from [EncodingFacts] to [ThemeFacts]. *)

From Stdlib Require Import List Ascii String ZArith QArith Lia Bool Arith.
From Stdlib Require Import Floats.SpecFloat.
Import ListNotations.

Close Scope Q_scope.
Open Scope string_scope.
Open Scope list_scope.
Open Scope nat_scope.

(** JavaScript strings are modelled as lists of characters; a character is
    a code unit below 256 (the Latin-1 range).  String literals are read
    through the coercion below. *)
Definition str := list ascii.
Coercion list_ascii_of_string : string >-> list.

Module Js.

(** ** Characters and strings *)

Definition code (a : ascii) : nat := nat_of_ascii a.

(** WhiteSpace and LineTerminator code units of the modelled range:
    TAB, LF, VT, FF, CR, SP and NBSP. *)
Definition isWhiteSpace (a : ascii) : bool :=
  let n := code a in
  ((9 <=? n) && (n <=? 13)) || (n =? 32) || (n =? 160).

Definition isLineTerminator (a : ascii) : bool :=
  let n := code a in (n =? 10) || (n =? 13).

Definition isDigit (a : ascii) : bool :=
  let n := code a in (48 <=? n) && (n <=? 57).

Definition digitValue (a : ascii) : N := N.of_nat (code a - 48).

Fixpoint dropWhile (p : ascii -> bool) (s : str) : str :=
  match s with
  | a :: t => if p a then dropWhile p t else s
  | [] => []
  end.

Fixpoint takeWhile (p : ascii -> bool) (s : str) : str :=
  match s with
  | a :: t => if p a then a :: takeWhile p t else []
  | [] => []
  end.

Definition str_eqb (s t : str) : bool :=
  if list_eq_dec ascii_dec s t then true else false.

Fixpoint startsWith (p s : str) : bool :=
  match p, s with
  | [], _ => true
  | a :: p', b :: s' => Ascii.eqb a b && startsWith p' s'
  | _ :: _, [] => false
  end.

Definition memChar (a : ascii) (set : str) : bool :=
  existsb (Ascii.eqb a) set.

(** [String.prototype.trimStart], [trimEnd] and [trim] *)
Definition trimStart (s : str) : str := dropWhile isWhiteSpace s.

Fixpoint trimEnd (s : str) : str :=
  match s with
  | [] => []
  | a :: t =>
      match trimEnd t with
      | [] => if isWhiteSpace a then [] else [a]
      | t' => a :: t'
      end
  end.

Definition trim (s : str) : str := trimEnd (trimStart s).

(** [s.split(sep)] for a non-empty separator string: [skip] counts the
    characters of a separator occurrence still to be passed over. *)
Fixpoint split_go (sep : str) (skip : nat) (cur : str) (s : str) : list str :=
  match s with
  | [] => [rev cur]
  | a :: t =>
      match skip with
      | S n => split_go sep n cur t
      | O =>
          if startsWith sep s
          then rev cur :: split_go sep (List.length sep - 1) [] t
          else split_go sep 0 (a :: cur) t
      end
  end.

Definition split (sep s : str) : list str := split_go sep 0 [] s.

(** [parts.join(sep)] *)
Fixpoint join (sep : str) (parts : list str) : str :=
  match parts with
  | [] => []
  | [p] => p
  | p :: ps => p ++ sep ++ join sep ps
  end.

(** [s.includes(p)] *)
Fixpoint includes (p s : str) : bool :=
  startsWith p s ||
  match s with
  | [] => false
  | _ :: t => includes p t
  end.

(** [s.endsWith(p)] *)
Definition endsWith (p s : str) : bool := startsWith (rev p) (rev s).

(** ** Numbers

    A Number is an IEEE 754 binary64 value: [spec_float] with the
    operations of the standard library's specification at precision 53
    and maximal exponent 1024 (round to nearest, ties to even). *)

Definition number := spec_float.

Definition prec : Z := 53.
Definition emax : Z := 1024.

Definition NaN : number := S754_nan.
Definition Infinity : number := S754_infinity false.

(** The arithmetic of binary64, rounding to nearest even; [Math.sqrt] is
    taken as the correctly rounded square root. *)
Definition add : number -> number -> number := SFadd prec emax.
Definition sub : number -> number -> number := SFsub prec emax.
Definition mul : number -> number -> number := SFmul prec emax.
Definition sqrt : number -> number := SFsqrt prec emax.
Definition abs : number -> number := SFabs.

(** [x < y], [x <= y], [x > y], [x >= y]: false as soon as one side is NaN. *)
Definition lt (x y : number) : bool := SFltb x y.
Definition le (x y : number) : bool := SFleb x y.
Definition gt (x y : number) : bool := SFltb y x.
Definition ge (x y : number) : bool := SFleb y x.

Definition isNaN (x : number) : bool :=
  match x with S754_nan => true | _ => false end.

Definition isFinite (x : number) : bool :=
  match x with S754_zero _ | S754_finite _ _ _ => true | _ => false end.

(** The Number of an integer. *)
Definition ofZ (z : Z) : number := binary_normalize prec emax z 0 false.

(** The Number nearest to the ratio [n / d] of two positive integers. *)
Definition ofRatio (neg : bool) (n d : positive) : number :=
  let '(m, e, l) := SFdiv_core_binary prec emax (Zpos n) 0 (Zpos d) 0 in
  binary_round_aux prec emax neg m e l.

(** The Number nearest to [digits * 10 ^ exp10] (the rounding of a decimal
    literal's mathematical value). *)
Definition ofDecimal (neg : bool) (digits : N) (exp10 : Z) : number :=
  match digits with
  | N0 => S754_zero neg
  | Npos d =>
      match exp10 with
      | Zneg k => ofRatio neg d (10 ^ k)
      | Z0 => binary_round prec emax neg d 0
      | Zpos k => binary_round prec emax neg (d * 10 ^ k) 0
      end
  end.

(** The exact value of a finite Number, as a rational. *)
Definition valueQ (x : number) : option Q :=
  match x with
  | S754_zero _ => Some 0%Q
  | S754_finite s m e =>
      let v := (inject_Z (Zpos m) * Qpower 2 e)%Q in
      Some (if s then Qopp v else v)
  | _ => None
  end.

(** [hasValue x q]: [x] is finite and its exact value is [q]. *)
Definition hasValue (x : number) (q : Q) : Prop :=
  match valueQ x with
  | Some v => Qeq v q
  | None => False
  end.

(** ** Decimal literals: [parseFloat] on strings *)

Fixpoint digitsValue (acc : N) (s : str) : N :=
  match s with
  | [] => acc
  | a :: t => digitsValue (10 * acc + digitValue a) t
  end.

(** The optional sign of a literal: the sign and what follows it. *)
Definition readSign (s : str) : bool * str :=
  match s with
  | "-"%char :: t => (true, t)
  | "+"%char :: t => (false, t)
  | _ => (false, s)
  end.

(** The exponent part [e|E (+|-)? digits]; 0 when it is absent or has no
    digit (the longest literal prefix then ends before it). *)
Definition readExponent (s : str) : Z :=
  match s with
  | a :: t =>
      if Ascii.eqb a "e" || Ascii.eqb a "E" then
        let '(neg, t') := readSign t in
        match takeWhile isDigit t' with
        | [] => 0%Z
        | ds => let v := Z.of_N (digitsValue 0 ds) in
                if neg then Z.opp v else v
        end
      else 0%Z
  | [] => 0%Z
  end.

(** [parseFloat(s)] for a string [s]: leading white space is skipped, the
    longest prefix that is a StrDecimalLiteral is read, and its value is
    rounded to the nearest Number; NaN when there is no such prefix. *)
Definition parseFloatStr (s : str) : number :=
  let '(neg, s1) := readSign (dropWhile isWhiteSpace s) in
  if startsWith "Infinity" s1 then S754_infinity neg
  else
    let ip := takeWhile isDigit s1 in
    let s2 := dropWhile isDigit s1 in
    let fp := match s2 with
              | "."%char :: t => takeWhile isDigit t
              | _ => []
              end in
    let s3 := match s2 with
              | "."%char :: t => dropWhile isDigit t
              | _ => s2
              end in
    match ip ++ fp with
    | [] => NaN
    | ds => ofDecimal neg (digitsValue 0 ds)
              (readExponent s3 - Z.of_nat (List.length fp))
    end.

(** ** Numbers to strings: [String(x)] and [x.toFixed(f)] *)

Definition digitChar (d : N) : ascii := ascii_of_N (48 + d).

(** The decimal digits of a natural number, most significant first. *)
Fixpoint digitsOf_go (fuel : nat) (n : N) (acc : str) : str :=
  match fuel with
  | O => acc
  | S fuel' =>
      let acc' := digitChar (n mod 10) :: acc in
      if (n / 10 =? 0)%N then acc' else digitsOf_go fuel' (n / 10) acc'
  end.

Definition digitsOf (n : N) : str := digitsOf_go (S (N.to_nat (N.log2 n))) n [].

Definition zeros (n : nat) : str := repeat "0"%char n.

(** A positive rational [num / den] scaled by a power of ten, as a pair. *)
Definition scale10 (num den : positive) (k : Z) : positive * positive :=
  match k with
  | Z0 => (num, den)
  | Zpos p => ((num * 10 ^ p)%positive, den)
  | Zneg p => (num, (den * 10 ^ p)%positive)
  end.

(** The numerator and denominator of a positive finite Number. *)
Definition ratioOf (m : positive) (e : Z) : positive * positive :=
  match e with
  | Z0 => (m, 1%positive)
  | Zpos p => ((m * 2 ^ p)%positive, 1%positive)
  | Zneg p => (m, (2 ^ p)%positive)
  end.

(** The decade of [num / den]: the [n] with [10^(n-1) <= num/den < 10^n],
    searched downwards from [n]; [decade] starts from an upper estimate
    drawn from the bit lengths. *)
Fixpoint decade_go (fuel : nat) (num den : positive) (n : Z) : Z :=
  match fuel with
  | O => n
  | S fuel' =>
      let '(a, b) := scale10 num den (1 - n) in
      if (b <=? a)%positive then n else decade_go fuel' num den (n - 1)
  end.

Definition decade (num den : positive) : Z :=
  let bits := (Z.log2 (Zpos num) - Z.log2 (Zpos den) + 1)%Z in
  decade_go 700 num den (bits * 30103 / 100000 + 2).

(** The candidates with [k] digits for the shortest representation of
    the Number [x = num / den] of decade [n]: the two integers [s] around
    [x / 10^(n-k)] whose literal [s * 10^(n-k)] rounds back to [x]; the one
    nearest to [x] first, the even one on a tie. *)
Definition shortest_at (x : number) (num den : positive) (n : Z) (k : Z)
  : option (N * Z) :=
  let '(a, b) := scale10 num den (k - n) in
  let lo := (Npos a / Npos b)%N in
  let r := (Npos a mod Npos b)%N in
  let norm (s : N) : N * Z :=
    if (s =? 10 ^ Z.to_N k)%N then ((10 ^ Z.to_N (k - 1))%N, (n + 1)%Z) else (s, n) in
  let ok (c : N * Z) : bool :=
    match SFcompare (ofDecimal false (fst c) (snd c - k)) x with
    | Some Eq => true
    | _ => false
    end in
  let cl := norm lo in
  let ch := norm (lo + 1)%N in
  if (r =? 0)%N then (if ok cl then Some cl else None)
  else
    let lowFirst :=
      match (2 * r ?= Npos b)%N with
      | Lt => true
      | Gt => false
      | Eq => N.even lo
      end in
    let '(c1, c2) := if lowFirst then (cl, ch) else (ch, cl) in
    if ok c1 then Some c1 else if ok c2 then Some c2 else None.

Fixpoint shortest_go (fuel : nat) (x : number) (num den : positive) (n k : Z)
  : N * Z * Z :=
  match fuel with
  | O => (0%N, n, k)
  | S fuel' =>
      match shortest_at x num den n k with
      | Some (s, n') => (s, n', k)
      | None => shortest_go fuel' x num den n (k + 1)
      end
  end.

(** The digits [s], decade [n] and digit count [k] of Number::toString. *)
Definition shortest (m : positive) (e : Z) : N * Z * Z :=
  let '(num, den) := ratioOf m e in
  shortest_go 21 (S754_finite false m e) num den (decade num den) 1.

(** Number::toString for a positive finite Number. *)
Definition positiveToString (m : positive) (e : Z) : str :=
  let '(s, n, k) := shortest m e in
  let ds := digitsOf s in
  if ((k <=? n) && (n <=? 21))%Z then ds ++ zeros (Z.to_nat (n - k))
  else if ((0 <? n) && (n <=? 21))%Z then
    firstn (Z.to_nat n) ds ++ "." ++ skipn (Z.to_nat n) ds
  else if ((-6 <? n) && (n <=? 0))%Z then
    "0." ++ zeros (Z.to_nat (- n)) ++ ds
  else
    let ex := (n - 1)%Z in
    let sign : str := if (ex <? 0)%Z then "-" else "+" in
    let mant := match ds with
                | [d] => [d]
                | d :: rest => d :: "."%char :: rest
                | [] => []
                end in
    mant ++ "e" ++ sign ++ digitsOf (Z.to_N (Z.abs ex)).

(** Number::toString, radix 10. *)
Definition numberToString (x : number) : str :=
  match x with
  | S754_nan => "NaN"
  | S754_zero _ => "0"
  | S754_infinity s => if s then "-Infinity" else "Infinity"
  | S754_finite s m e =>
      (if s then ["-"%char] else []) ++ positiveToString m e
  end.

(** [x.toFixed(f)] for [0 <= f <= 100]: the integer [n] for which
    [n / 10^f - x] is closest to zero, the larger one on a tie, written
    with [f] decimals. *)
Definition toFixed (f : nat) (x : number) : str :=
  match x with
  | S754_nan | S754_infinity _ => numberToString x
  | S754_zero _ =>
      "0" ++ (if (f =? 0)%nat then [] else "."%char :: zeros f)
  | S754_finite s m e =>
      let '(num, den) := ratioOf m e in
      if (10 ^ 21 * den <=? num)%positive then numberToString x
      else
        let a := (Npos num * 10 ^ N.of_nat f)%N in
        let n := ((2 * a + Npos den) / (2 * Npos den))%N in
        let ds := digitsOf n in
        let ds := zeros (S f - List.length ds) ++ ds in
        let k := (List.length ds - f)%nat in
        (if s then ["-"%char] else []) ++ firstn k ds ++
        (if (f =? 0)%nat then [] else "."%char :: skipn k ds)
  end.

(** ** Percent-encoding *)

Definition hexDigit (n : nat) : ascii :=
  if n <? 10 then ascii_of_nat (48 + n) else ascii_of_nat (55 + n).

Definition percent (byte : nat) : str :=
  ["%"%char; hexDigit (byte / 16); hexDigit (byte mod 16)].

(** The UTF-8 bytes of a code unit of the modelled range, percent-encoded. *)
Definition percentEncode (a : ascii) : str :=
  let n := code a in
  if n <? 128 then percent n
  else percent (192 + n / 64) ++ percent (128 + n mod 64).

Definition isAlphaNum (a : ascii) : bool :=
  let n := code a in
  ((48 <=? n) && (n <=? 57)) || ((65 <=? n) && (n <=? 90))
  || ((97 <=? n) && (n <=? 122)).

(** [encodeURIComponent(s)] *)
Definition encodeURIComponent (s : str) : str :=
  flat_map (fun a =>
    if isAlphaNum a || memChar a "-_.!~*'()" then [a] else percentEncode a) s.

(** ** Values

    The values a JSON field can hold, short of nested objects and arrays:
    absent ([undefined]), [null], a boolean, a Number or a string. *)
Inductive jsval : Type :=
| VUndefined
| VNull
| VBool (b : bool)
| VNum (x : number)
| VStr (s : str).

(** ToBoolean: the truthiness used by [!v], [v ? a : b] and [v || w]. *)
Definition toBoolean (v : jsval) : bool :=
  match v with
  | VUndefined | VNull => false
  | VBool b => b
  | VNum (S754_nan | S754_zero _) => false
  | VNum _ => true
  | VStr [] => false
  | VStr _ => true
  end.

(** [String(v)] *)
Definition ToString (v : jsval) : str :=
  match v with
  | VUndefined => "undefined"
  | VNull => "null"
  | VBool b => if b then "true" else "false"
  | VNum x => numberToString x
  | VStr s => s
  end.

(** [parseFloat(v)]: the argument is first converted to a string. *)
Definition parseFloat (v : jsval) : number := parseFloatStr (ToString v).

(** [x || y] on Numbers. *)
Definition orNumber (x y : number) : number :=
  if toBoolean (VNum x) then x else y.

(** [v === ''] and [v === undefined] *)
Definition isEmptyString (v : jsval) : bool :=
  match v with VStr [] => true | _ => false end.

Definition isUndefined (v : jsval) : bool :=
  match v with VUndefined => true | _ => false end.

End Js.

(** * The map component (src/components/ArgoFloatsMap.jsx) *)

Module ArgoFloatsMap.
Import Js.

(** An Argo float record as the backend sends it; only the fields the
    component reads are kept. *)
Record ArgoFloat : Type := {
  id : jsval;
  lat : jsval;
  lng : jsval;
  temp : jsval;
  salinity : jsval
}.

(** The entries of [argoFloats]: [None] stands for a falsy entry
    ([null]), which the filter drops before reading any field. *)
Definition floats := list (option ArgoFloat).

(** [activeHeatmap] is ['temperature'], ['salinity'] or [null]. *)
Inductive heatmap : Type := HeatTemperature | HeatSalinity.

Record HeatPoint : Type := {
  pt_lat : number;
  pt_lng : number;
  pt_temp : number;
  pt_salinity : number;
  pt_value : number
}.

(** [indianOceanBounds] *)
Definition latMin : number := ofZ (-30).
Definition latMax : number := ofZ 30.
Definition lngMin : number := ofZ 30.
Definition lngMax : number := ofZ 100.

(** The callback of the first [filter] of [heatmapData]. *)
Definition isInIndianOcean (float : option ArgoFloat) : bool :=
  match float with
  | None => false
  | Some f =>
      let lat := parseFloat (lat f) in
      let lng := parseFloat (lng f) in
      if isNaN lat || isNaN lng then false
      else if gt (abs lat) (ofZ 90) || gt (abs lng) (ofZ 180) then false
      else ge lat latMin && le lat latMax && ge lng lngMin && le lng lngMax
  end.

(** [float.temp ? parseFloat(float.temp) : 0] *)
Definition tempValue (temp : jsval) : number :=
  if toBoolean temp then parseFloat temp else ofZ 0.

(** [float.salinity ? String(float.salinity) : '0'] *)
Definition salinityStr (salinity : jsval) : str :=
  if toBoolean salinity then ToString salinity else "0".

(** [parseFloat(salinityStr.split(' ')[0]) || 0] *)
Definition salinityValue (salinity : jsval) : number :=
  let first := match split " " (salinityStr salinity) with
               | x :: _ => parseFloatStr x
               | [] => NaN
               end in
  orNumber first (ofZ 0).

(** The callback of [map]. *)
Definition toHeatPoint (activeHeatmap : option heatmap) (f : ArgoFloat)
  : HeatPoint :=
  {| pt_lat := parseFloat (lat f);
     pt_lng := parseFloat (lng f);
     pt_temp := tempValue (temp f);
     pt_salinity := salinityValue (salinity f);
     pt_value := match activeHeatmap with
                 | Some HeatTemperature => tempValue (temp f)
                 | _ => salinityValue (salinity f)
                 end |}.

(** The callback of the last [filter]. *)
Definition validPoint (point : HeatPoint) : bool :=
  negb (isNaN (pt_value point)) && negb (isNaN (pt_lat point))
  && negb (isNaN (pt_lng point)).

(** The records the first filter keeps. *)
Fixpoint retained (argoFloats : floats) : list ArgoFloat :=
  match argoFloats with
  | [] => []
  | Some f :: rest =>
      if isInIndianOcean (Some f) then f :: retained rest else retained rest
  | None :: rest => retained rest
  end.

(** [heatmapData]: the empty list for an empty input, and otherwise
    filter, map, filter. *)
Definition heatmapData (argoFloats : floats) (activeHeatmap : option heatmap)
  : list HeatPoint :=
  match argoFloats with
  | [] => []
  | _ => filter validPoint (map (toHeatPoint activeHeatmap) (retained argoFloats))
  end.

(** The part of a string before its first space. *)
Definition upToFirstSpace (s : str) : str :=
  takeWhile (fun a => negb (Ascii.eqb a " ")) s.

(** A record lies outside when a coordinate does not parse to a finite
    Number, or leaves [-90, 90] x [-180, 180], or leaves the region. *)
Definition outside (r : ArgoFloat) : Prop :=
  let la := parseFloat (lat r) in
  let ln := parseFloat (lng r) in
  isFinite la = false \/ isFinite ln = false
  \/ lt la (ofZ (-90)) = true \/ gt la (ofZ 90) = true
  \/ lt ln (ofZ (-180)) = true \/ gt ln (ofZ 180) = true
  \/ lt la latMin = true \/ gt la latMax = true
  \/ lt ln lngMin = true \/ gt ln lngMax = true.

(** Sample records: one inside the region (the scenario of the
    specification), one north of it, one whose temperature reads
    "Infinity". *)
Definition insideFloat : ArgoFloat :=
  {| id := VNum (ofZ 8); lat := VStr "10"; lng := VStr "50";
     temp := VStr "28"; salinity := VStr "35 PSU" |}.
Definition northFloat : ArgoFloat :=
  {| id := VNum (ofZ 7); lat := VStr "45.5"; lng := VNum (ofZ 60);
     temp := VNum (ofZ 20); salinity := VStr "35 PSU" |}.
Definition hotFloat : ArgoFloat :=
  {| id := VNum (ofZ 1); lat := VNum (ofZ 10); lng := VNum (ofZ 50);
     temp := VStr "Infinity"; salinity := VStr "35 PSU" |}.

(** *** Nearest-point lookup: [handleMapClick] *)

(** [e.latlng] *)
Record LatLng : Type := { ll_lat : number; ll_lng : number }.

Record ClickedPoint : Type := {
  cp_lat : number;
  cp_lng : number;
  cp_value : number;
  cp_type : heatmap;
  cp_distance : str
}.

(** [Math.pow(x, 2)], taken as the rounded product [x * x]. *)
Definition pow2 (x : number) : number := mul x x.

(** [Math.round(x)]: the integer nearest to [x], the larger one on a tie;
    a zero result keeps the sign of [x]. *)
Definition mathRound (x : number) : number :=
  match x with
  | S754_finite s m e =>
      let '(num, den) := ratioOf m e in
      let v := if s then Zneg num else Zpos num in
      let n := ((2 * v + Zpos den) / (2 * Zpos den))%Z in
      if (n =? 0)%Z then S754_zero s else ofZ n
  | _ => x
  end.

(** The distance of the loop body:
    [Math.sqrt(Math.pow(point.lat - lat, 2) + Math.pow(point.lng - lng, 2)) * 100] *)
Definition distanceTo (clickedLatLng : LatLng) (point : HeatPoint) : number :=
  mul (sqrt (add (pow2 (sub (pt_lat point) (ll_lat clickedLatLng)))
                 (pow2 (sub (pt_lng point) (ll_lng clickedLatLng)))))
      (ofZ 100).

(** One turn of the [forEach] loop on [(nearestPoint, minDistance)]. *)
Definition nearestStep (clickedLatLng : LatLng)
  (acc : option HeatPoint * number) (point : HeatPoint)
  : option HeatPoint * number :=
  let distance := distanceTo clickedLatLng point in
  if lt distance (snd acc) then (Some point, distance) else acc.

Definition nearest (clickedLatLng : LatLng) (heatmapData : list HeatPoint)
  : option HeatPoint * number :=
  fold_left (nearestStep clickedLatLng) heatmapData (None, Infinity).

(** What the loop has established once it has gone through the points
    [seen]: none of them is strictly nearer than [minDistance], and
    [nearestPoint], when set, is one of them, at distance [minDistance]. *)
Definition loopInv (clickedLatLng : LatLng) (seen : list HeatPoint)
  (acc : option HeatPoint * number) : Prop :=
  (forall q, In q seen -> lt (distanceTo clickedLatLng q) (snd acc) = false) /\
  match fst acc with
  | Some p => In p seen /\ snd acc = distanceTo clickedLatLng p
              /\ isNaN (distanceTo clickedLatLng p) = false
  | None => snd acc = Infinity
  end.

(** The text of the [distance] field. *)
Definition distanceText (minDistance : number) : str :=
  if lt minDistance (ofZ 1)
  then numberToString (mathRound (mul minDistance (ofZ 1000))) ++ " m away"
  else toFixed 1 minDistance ++ " km away".

(** [handleMapClick]: the new [clickedPoint] state, from the old one.
    [map] tells whether the map instance exists. *)
Definition handleMapClick (activeHeatmap : option heatmap) (map : bool)
  (heatmapData : list HeatPoint) (clickedLatLng : LatLng)
  (clickedPoint : option ClickedPoint) : option ClickedPoint :=
  match activeHeatmap, map, heatmapData with
  | None, _, _ | _, false, _ | _, _, [] => clickedPoint
  | Some type, true, _ =>
      match nearest clickedLatLng heatmapData with
      | (Some nearestPoint, minDistance) =>
          if lt minDistance (ofZ 100)
          then Some {| cp_lat := ll_lat clickedLatLng;
                       cp_lng := ll_lng clickedLatLng;
                       cp_value := pt_value nearestPoint;
                       cp_type := type;
                       cp_distance := distanceText minDistance |}
          else None
      | (None, _) => None
      end
  end.

(** A sample click one degree north of a sample point. *)
Definition equatorPoint : HeatPoint :=
  {| pt_lat := ofZ 0; pt_lng := ofZ 50; pt_temp := ofZ 28;
     pt_salinity := ofZ 35; pt_value := ofZ 28 |}.
Definition clickOneDegreeNorth : LatLng := {| ll_lat := ofZ 1; ll_lng := ofZ 50 |}.
Definition clickNearby : LatLng :=
  {| ll_lat := parseFloatStr "0.5"; ll_lng := parseFloatStr "50.25" |}.

(** *** Query string: [fetchArgoFloats] *)

Definition API_BASE_URL : str := "http://localhost:8000".

(** The entries of a filter object, in insertion order. *)
Definition filterParams := list (str * jsval).

(** The [forEach] over [Object.entries(filterParams)]: an entry is
    appended, its value converted to a string, unless the value is
    [undefined] or the empty string. *)
Fixpoint queryParams (entries : filterParams) : list (str * str) :=
  match entries with
  | [] => []
  | (key, value) :: rest =>
      if negb (isUndefined value) && negb (isEmptyString value)
      then (key, ToString value) :: queryParams rest
      else queryParams rest
  end.

(** The application/x-www-form-urlencoded byte serializer. *)
Definition formEncode (s : str) : str :=
  flat_map (fun a =>
    if isAlphaNum a || memChar a "*-._" then [a]
    else if Ascii.eqb a " " then ["+"%char]
    else percentEncode a) s.

(** [queryParams.toString()] *)
Definition serialize (params : list (str * str)) : str :=
  join "&" (List.map (fun kv => formEncode (fst kv) ++ "=" ++ formEncode (snd kv)) params).

(** [apiUrl] *)
Definition apiUrl (entries : filterParams) : str :=
  API_BASE_URL ++ "/api/floats?" ++ serialize (queryParams entries).

(** *** Synthetic depth profile: [generateDepthProfile] *)

Record DepthProfilePoint : Type := {
  dp_depth : number;
  dp_temperature : number;
  dp_salinity : number
}.

(** A numeric literal of the source. *)
Definition lit (s : string) : number := parseFloatStr s.

(** [parseFloat(x.toFixed(2))] *)
Definition round2 (x : number) : number := parseFloatStr (toFixed 2 x).

(** The body of the [for] loop at [depth]; [random i] is what the [i]-th
    call of [Math.random()] returns, and [next] counts the calls made so
    far. *)
Definition profilePoint (random : nat -> number) (baseTemp baseSalinity : number)
  (depth : number) (next : nat) : DepthProfilePoint :=
  let temperature :=
    add (sub baseTemp (mul depth (lit "0.02")))
        (sub (mul (random next) (lit "0.5")) (lit "0.25")) in
  let salinity :=
    add (add baseSalinity
             (if lt depth (ofZ 200) then ofZ 0
              else mul (sub depth (ofZ 200)) (lit "0.005")))
        (sub (mul (random (S next)) (lit "0.1")) (lit "0.05")) in
  {| dp_depth := depth;
     dp_temperature := round2 temperature;
     dp_salinity := round2 salinity |}.

(** [for (let depth = 0; depth <= 1000; depth += 10)], with [fuel]
    bounding the number of turns. *)
Fixpoint profileLoop (fuel : nat) (random : nat -> number)
  (baseTemp baseSalinity : number) (depth : number) (next : nat)
  (profiles : list DepthProfilePoint) : list DepthProfilePoint :=
  match fuel with
  | O => profiles
  | S fuel' =>
      if le depth (ofZ 1000)
      then profileLoop fuel' random baseTemp baseSalinity
             (add depth (ofZ 10)) (2 + next)
             (profiles ++ [profilePoint random baseTemp baseSalinity depth next])
      else profiles
  end.

Definition baseTemp (random : nat -> number) : number :=
  add (ofZ 25) (mul (random 0) (ofZ 5)).

Definition baseSalinity (random : nat -> number) : number :=
  add (lit "34.5") (mul (random 1) (ofZ 2)).

(** [generateDepthProfile(floatId)]: [floatId] is not read; [random i] is
    the [i]-th draw of [Math.random] during the call, and [fuel] bounds
    the turns of the loop. *)
Definition generateDepthProfile (fuel : nat) (random : nat -> number)
  (floatId : jsval) : list DepthProfilePoint :=
  profileLoop fuel random (baseTemp random) (baseSalinity random) (ofZ 0) 2 [].

(** The profile as the specification words it.  The point of index [k]
    is at depth [10 k]; its temperature is the base value lowered by
    0.02 per metre, plus a jitter; its salinity is the base value, raised
    by 0.005 per metre beyond 200 m, plus a jitter; both are rounded to
    two decimals. *)
Definition tempJitter (random : nat -> number) (k : nat) : number :=
  sub (mul (random (2 + 2 * k)) (lit "0.5")) (lit "0.25").

Definition salinityJitter (random : nat -> number) (k : nat) : number :=
  sub (mul (random (3 + 2 * k)) (lit "0.1")) (lit "0.05").

Definition depthAt (k : nat) : number := ofZ (10 * Z.of_nat k).

Definition profileAt (random : nat -> number) (k : nat) : DepthProfilePoint :=
  {| dp_depth := depthAt k;
     dp_temperature :=
       round2 (add (sub (baseTemp random) (mul (depthAt k) (lit "0.02")))
                   (tempJitter random k));
     dp_salinity :=
       round2 (add (add (baseSalinity random)
                        (if k <? 20 then ofZ 0
                         else mul (ofZ (10 * Z.of_nat k - 200)) (lit "0.005")))
                   (salinityJitter random k)) |}.

(** What is checked of the loop counter at its [k]-th value: adding 10
    gives the next value, and the tests [depth <= 1000], [depth < 200]
    and the difference [depth - 200] come out as on integers. *)
Definition counterOk (k : nat) : bool :=
  match add (depthAt k) (ofZ 10), depthAt (S k) with
  | S754_finite s m e, S754_finite s' m' e' =>
      Bool.eqb s s' && Pos.eqb m m' && Z.eqb e e'
  | _, _ => false
  end
  && Bool.eqb (le (depthAt k) (ofZ 1000)) (k <=? 100)
  && Bool.eqb (lt (depthAt k) (ofZ 200)) (k <? 20)
  && (if k <? 20 then true
      else match sub (depthAt k) (ofZ 200), ofZ (10 * Z.of_nat k - 200) with
           | S754_finite s m e, S754_finite s' m' e' =>
               Bool.eqb s s' && Pos.eqb m m' && Z.eqb e e'
           | S754_zero s, S754_zero s' => Bool.eqb s s'
           | _, _ => false
           end).

(** A sample source of random numbers: 0.25, 0.75, 0.25, ... *)
Definition sampleRandom (i : nat) : number :=
  if Nat.even i then lit "0.25" else lit "0.75".

End ArgoFloatsMap.

(** * The filter panel (src/components/FloatFilters.jsx) *)

Module FloatFilters.
Import Js.

(** The [filters] state: every field is a string ([Some s]), empty when
    unset, or absent ([None], read as [undefined]). *)
Record FilterCriteria : Type := {
  latMin : option str;
  latMax : option str;
  lonMin : option str;
  lonMax : option str;
  depthMax : option str;
  startDate : option str;
  endDate : option str
}.

Definition field (v : option str) : jsval :=
  match v with
  | Some s => VStr s
  | None => VUndefined
  end.

(** [v || undefined] *)
Definition orUndefined (v : jsval) : jsval :=
  if toBoolean v then v else VUndefined.

(** [v ? parseFloat(v) : undefined] *)
Definition parsedOrUndefined (v : jsval) : jsval :=
  if toBoolean v then VNum (parseFloat v) else VUndefined.

(** [handleSubmit]: the [apiFilters] object handed to [onFilterChange]. *)
Definition handleSubmit (filters : FilterCriteria) : ArgoFloatsMap.filterParams :=
  [ ("lat_min" : str, orUndefined (field (latMin filters)));
    ("lat_max" : str, orUndefined (field (latMax filters)));
    ("lon_min" : str, orUndefined (field (lonMin filters)));
    ("lon_max" : str, orUndefined (field (lonMax filters)));
    ("depth_max" : str, parsedOrUndefined (field (depthMax filters)));
    ("start_date" : str, orUndefined (field (startDate filters)));
    ("end_date" : str, orUndefined (field (endDate filters))) ].

(** What [handleFilterChange] sends after a submission. *)
Definition submittedParams (filters : FilterCriteria) : list (str * str) :=
  ArgoFloatsMap.queryParams (handleSubmit filters).

Definition submittedUrl (filters : FilterCriteria) : str :=
  ArgoFloatsMap.apiUrl (handleSubmit filters).

(** The mapping as the specification words it: a field that holds a
    non-empty string gives one parameter under the backend's name, the
    string passed through; [depthMax] gives the string of the parsed
    Number; an empty or absent field gives nothing. *)
Definition mappedField (name : str) (v : option str) : list (str * str) :=
  match v with
  | Some (a :: t) => [(name, a :: t)]
  | _ => []
  end.

Definition mappedDepth (v : option str) : list (str * str) :=
  match v with
  | Some (a :: t) => [("depth_max" : str, numberToString (parseFloatStr (a :: t)))]
  | _ => []
  end.

Definition mappedParams (filters : FilterCriteria) : list (str * str) :=
  mappedField "lat_min" (latMin filters)
  ++ mappedField "lat_max" (latMax filters)
  ++ mappedField "lon_min" (lonMin filters)
  ++ mappedField "lon_max" (lonMax filters)
  ++ mappedDepth (depthMax filters)
  ++ mappedField "start_date" (startDate filters)
  ++ mappedField "end_date" (endDate filters).

(** What the filter object holds for a field: the string itself, or the
    parsed Number for [depthMax]; [undefined] for an empty or absent one. *)
Definition passed (v : option str) : jsval :=
  match v with
  | Some (a :: t) => VStr (a :: t)
  | _ => VUndefined
  end.

Definition parsedDepth (v : option str) : jsval :=
  match v with
  | Some (a :: t) => VNum (parseFloatStr (a :: t))
  | _ => VUndefined
  end.

(** The UI field behind a query-parameter name. *)
Definition uiField (filters : FilterCriteria) (key : str) : option (option str) :=
  if str_eqb key "lat_min" then Some (latMin filters)
  else if str_eqb key "lat_max" then Some (latMax filters)
  else if str_eqb key "lon_min" then Some (lonMin filters)
  else if str_eqb key "lon_max" then Some (lonMax filters)
  else if str_eqb key "depth_max" then Some (depthMax filters)
  else if str_eqb key "start_date" then Some (startDate filters)
  else if str_eqb key "end_date" then Some (endDate filters)
  else None.

(** Sample submissions. *)
Definition sampleFilters : FilterCriteria :=
  {| latMin := Some []; latMax := Some ("20" : str); lonMin := None;
     lonMax := Some ("0" : str); depthMax := Some ("12.50" : str);
     startDate := Some ("2024-01-01" : str); endDate := Some [] |}.

Definition badDepthFilters : FilterCriteria :=
  {| latMin := Some []; latMax := Some []; lonMin := Some []; lonMax := Some [];
     depthMax := Some ("abc" : str); startDate := Some []; endDate := Some [] |}.

End FloatFilters.

(** * Regular expressions

    The patterns of the formatter, as syntax trees run by a backtracking
    matcher: alternatives are tried left to right, a greedy star tries one
    more turn before the continuation and a lazy star the continuation
    first, and a turn of a star that consumes nothing fails. *)

Module Regex.
Import Js.

Inductive regex : Type :=
| Eps
| Chr (p : ascii -> bool)
| Seq (r1 r2 : regex)
| Alt (r1 r2 : regex)
| Star (greedy : bool) (r : regex)
| Group (i : nat) (r : regex)
| Bol (multiline : bool)
| Eol (multiline : bool).

(** The state of a match attempt: the character before the position, the
    input still to read, the text gathered so far by the groups that are
    open (innermost first, each reversed), and the groups closed. *)
Record mstate : Type := {
  prev : option ascii;
  rest : str;
  opens : list str;
  caps : list (nat * str)
}.

Definition advance (a : ascii) (t : str) (st : mstate) : mstate :=
  {| prev := Some a; rest := t;
     opens := List.map (cons a) (opens st); caps := caps st |}.

Definition openGroup (st : mstate) : mstate :=
  {| prev := prev st; rest := rest st;
     opens := [] :: opens st; caps := caps st |}.

Definition closeGroup (i : nat) (k : mstate -> option mstate) (st : mstate)
  : option mstate :=
  match opens st with
  | acc :: os =>
      k {| prev := prev st; rest := rest st;
           opens := os; caps := (i, rev acc) :: caps st |}
  | [] => None
  end.

Definition atLineStart (multiline : bool) (st : mstate) : bool :=
  match prev st with
  | None => true
  | Some a => multiline && isLineTerminator a
  end.

Definition atLineEnd (multiline : bool) (st : mstate) : bool :=
  match rest st with
  | [] => true
  | a :: _ => multiline && isLineTerminator a
  end.

Definition orElse (x : option mstate) (y : unit -> option mstate)
  : option mstate :=
  match x with
  | Some _ => x
  | None => y tt
  end.

(** The turns of a star whose body is matched by [body]: at most [fuel]
    of them, which is no bound when [fuel] is the length of the input
    left, since a turn that consumes nothing fails. *)
Fixpoint starLoop (greedy : bool)
  (body : (mstate -> option mstate) -> mstate -> option mstate)
  (k : mstate -> option mstate) (fuel : nat) (st : mstate) {struct fuel}
  : option mstate :=
  match fuel with
  | O => k st
  | S fuel' =>
      let turn (_ : unit) :=
        body (fun st' =>
                if List.length (rest st') <? List.length (rest st)
                then starLoop greedy body k fuel' st' else None) st in
      if greedy then orElse (turn tt) (fun _ => k st)
      else orElse (k st) turn
  end.

(** [mtch r k st]: match [r] at [st], then the continuation [k]; the first
    success in priority order. *)
Fixpoint mtch (r : regex) (k : mstate -> option mstate) (st : mstate)
  {struct r} : option mstate :=
  match r with
  | Eps => k st
  | Chr p =>
      match rest st with
      | a :: t => if p a then k (advance a t st) else None
      | [] => None
      end
  | Seq r1 r2 => mtch r1 (mtch r2 k) st
  | Alt r1 r2 => orElse (mtch r1 k st) (fun _ => mtch r2 k st)
  | Star greedy r1 => starLoop greedy (mtch r1) k (List.length (rest st)) st
  | Group i r1 => mtch r1 (closeGroup i k) (openGroup st)
  | Bol m => if atLineStart m st then k st else None
  | Eol m => if atLineEnd m st then k st else None
  end.

(** What a replacement sees of a match. *)
Record MatchInfo : Type := {
  matched : str;
  groups : list (nat * str);
  before : str;
  after : str
}.

Definition group (i : nat) (m : MatchInfo) : str :=
  match find (fun c => fst c =? i) (groups m) with
  | Some c => snd c
  | None => []
  end.

(** A match attempt of [r] at the position that splits the input into
    [rev before_rev] and [s]; the whole match is group 0. *)
Definition matchAt (r : regex) (before_rev : str) (s : str) : option MatchInfo :=
  match mtch (Group 0 r) Some
          {| prev := hd_error before_rev; rest := s; opens := []; caps := [] |} with
  | Some st =>
      let m := match find (fun c => fst c =? 0) (caps st) with
               | Some c => snd c
               | None => []
               end in
      Some {| matched := m; groups := caps st;
              before := rev before_rev; after := rest st |}
  | None => None
  end.

(** [s.replace(/r/g, f)] where the callback [f] also threads a state. *)
Fixpoint replace_go {S : Type} (r : regex) (f : S -> MatchInfo -> S * str)
  (skip : nat) (before_rev : str) (acc : S) (s : str) : S * str :=
  match s with
  | [] =>
      match skip, matchAt r before_rev [] with
      | O, Some m => f acc m
      | _, _ => (acc, [])
      end
  | a :: t =>
      match skip with
      | S n => replace_go r f n (a :: before_rev) acc t
      | O =>
          match matchAt r before_rev s with
          | Some m =>
              let '(acc1, out) := f acc m in
              match List.length (matched m) with
              | O =>
                  let '(acc2, tail) := replace_go r f 0 (a :: before_rev) acc1 t in
                  (acc2, out ++ a :: tail)
              | S n =>
                  let '(acc2, tail) := replace_go r f n (a :: before_rev) acc1 t in
                  (acc2, out ++ tail)
              end
          | None =>
              let '(acc2, tail) := replace_go r f 0 (a :: before_rev) acc t in
              (acc2, a :: tail)
          end
      end
  end.

Definition replaceAllWith {S : Type} (r : regex) (f : S -> MatchInfo -> S * str)
  (acc : S) (s : str) : S * str :=
  replace_go r f 0 [] acc s.

(** [s.replace(/r/g, f)] for a callback without state. *)
Definition replaceAllBy (r : regex) (f : MatchInfo -> str) (s : str) : str :=
  snd (replaceAllWith r (fun (_ : unit) m => (tt, f m)) tt s).

(** The first match of [r] in [s], searching from the left ([exec]). *)
Fixpoint search (r : regex) (before_rev : str) (s : str) : option MatchInfo :=
  match matchAt r before_rev s with
  | Some m => Some m
  | None =>
      match s with
      | a :: t => search r (a :: before_rev) t
      | [] => None
      end
  end.

(** [/r/.test(s)] and [s.match(/r/)] without the g flag. *)
Definition test (r : regex) (s : str) : bool :=
  match search r [] s with Some _ => true | None => false end.

Definition exec (r : regex) (s : str) : option MatchInfo := search r [] s.

(** The number of capture groups of a pattern. *)
Fixpoint ngroups (r : regex) : nat :=
  match r with
  | Seq r1 r2 | Alt r1 r2 => ngroups r1 + ngroups r2
  | Star _ r1 => ngroups r1
  | Group _ r1 => S (ngroups r1)
  | _ => 0
  end.

(** GetSubstitution: the expansion of a replacement string, where [$$] is
    a dollar, [$&] the match, [$`] and [$'] what precedes and follows it,
    and [$n] or [$nn] a group of the pattern; any other [$] stands for
    itself. *)
Fixpoint expand (n : nat) (m : MatchInfo) (tpl : str) {struct tpl} : str :=
  match tpl with
  | [] => []
  | a :: t =>
      if Ascii.eqb a "$" then
        match t with
        | [] => [a]
        | b :: t1 =>
            if Ascii.eqb b "$" then b :: expand n m t1
            else if Ascii.eqb b "&" then matched m ++ expand n m t1
            else if Ascii.eqb b "`" then before m ++ expand n m t1
            else if Ascii.eqb b "'" then after m ++ expand n m t1
            else if isDigit b then
              let d1 := code b - 48 in
              match t1 with
              | c :: t2 =>
                  let d2 := 10 * d1 + (code c - 48) in
                  if isDigit c && (1 <=? d2) && (d2 <=? n)
                  then group d2 m ++ expand n m t2
                  else if (1 <=? d1) && (d1 <=? n)
                  then group d1 m ++ expand n m t1
                  else a :: expand n m t
              | [] =>
                  if (1 <=? d1) && (d1 <=? n) then group d1 m else [a; b]
              end
            else a :: expand n m t
        end
      else a :: expand n m t
  end.

(** [s.replace(/r/g, 'tpl')] *)
Definition replaceAll (r : regex) (tpl : str) (s : str) : str :=
  replaceAllBy r (fun m => expand (ngroups r) m tpl) s.

(** [s.replace(/r/, 'tpl')], without the g flag: the first match only. *)
Definition replaceFirst (r : regex) (tpl : str) (s : str) : str :=
  match search r [] s with
  | Some m => before m ++ expand (ngroups r) m tpl ++ after m
  | None => s
  end.

(** The first occurrence of a string: what precedes and what follows. *)
Fixpoint indexOf_go (pat : str) (before_rev : str) (s : str) : option (str * str) :=
  if startsWith pat s then Some (rev before_rev, skipn (List.length pat) s)
  else match s with
       | a :: t => indexOf_go pat (a :: before_rev) t
       | [] => None
       end.

(** [s.replace('pat', 'tpl')] with a string pattern: the first occurrence
    only, the replacement string expanded. *)
Definition replaceStr (pat tpl s : str) : str :=
  match indexOf_go pat [] s with
  | Some (b, a) =>
      b ++ expand 0 {| matched := pat; groups := []; before := b; after := a |} tpl
        ++ a
  | None => s
  end.

(** *** Pattern syntax *)

(** A character, [[...]], [[^...]], [\s], [\d], [[\s\S]], and [.] *)
Definition chr (c : ascii) : regex := Chr (Ascii.eqb c).
Definition oneOf (set : str) : regex := Chr (fun a => memChar a set).
Definition noneOf (set : str) : regex := Chr (fun a => negb (memChar a set)).
Definition ws : regex := Chr isWhiteSpace.
Definition digit : regex := Chr isDigit.
Definition anyChar : regex := Chr (fun _ => true).
Definition dot : regex := Chr (fun a => negb (isLineTerminator a)).

(** A literal string. *)
Fixpoint text (s : str) : regex :=
  match s with
  | [] => Eps
  | [a] => chr a
  | a :: t => Seq (chr a) (text t)
  end.

(** A sequence of patterns. *)
Fixpoint seqs (rs : list regex) : regex :=
  match rs with
  | [] => Eps
  | [r] => r
  | r :: rs' => Seq r (seqs rs')
  end.

(** A choice between patterns. *)
Fixpoint alts (rs : list regex) : regex :=
  match rs with
  | [] => Chr (fun _ => false)
  | [r] => r
  | r :: rs' => Alt r (alts rs')
  end.

(** [r*], [r*?], [r+], [r+?], [r?] and [r{n,}] *)
Definition star (r : regex) : regex := Star true r.
Definition lazyStar (r : regex) : regex := Star false r.
Definition plus (r : regex) : regex := Seq r (Star true r).
Definition lazyPlus (r : regex) : regex := Seq r (Star false r).
Definition opt (r : regex) : regex := Alt r Eps.
Fixpoint atLeast (n : nat) (r : regex) : regex :=
  match n with
  | O => Star true r
  | S n' => Seq r (atLeast n' r)
  end.

(** [s'] is what is left of [s] after some prefix. *)
Definition tailOf (s' s : str) : Prop := exists pre, s = pre ++ s'.

(** *** What a pattern needs of its input *)

Definition allChars : list ascii := List.map ascii_of_nat (seq 0 256).

(** Every character of the class [p] is in the class [c]. *)
Definition classWithin (p c : ascii -> bool) : bool :=
  forallb (fun a => implb (p a) (c a)) allChars.

(** [needs c r]: every match of [r] holds a character of the class [c]. *)
Fixpoint needs (c : ascii -> bool) (r : regex) : bool :=
  match r with
  | Chr p => classWithin p c
  | Seq r1 r2 => needs c r1 || needs c r2
  | Alt r1 r2 => needs c r1 && needs c r2
  | Group _ r1 => needs c r1
  | _ => false
  end.

(** A string without any character of the class [c]. *)
Definition lacks (c : ascii -> bool) (s : str) : bool :=
  forallb (fun a => negb (c a)) s.

(** The state after the characters [run] have been read one by one. *)
Fixpoint advanceRun (run : str) (st : mstate) : mstate :=
  match run with
  | [] => st
  | a :: run' => advanceRun run' (advance a (tl (rest st)) st)
  end.

(** White-space runs replaced by one space each; [inRun] tells that the
    previous character belonged to a run. *)
Fixpoint collapse_go (inRun : bool) (s : str) : str :=
  match s with
  | [] => []
  | a :: t =>
      if isWhiteSpace a
      then (if inRun then collapse_go true t else " "%char :: collapse_go true t)
      else a :: collapse_go false t
  end.

Definition collapse (s : str) : str := collapse_go false s.

(** A string in which white space only occurs as single spaces;
    [afterSpace] tells that the previous character was one. *)
Fixpoint spaced_go (afterSpace : bool) (s : str) : bool :=
  match s with
  | [] => true
  | a :: t =>
      if isWhiteSpace a
      then Ascii.eqb a " " && negb afterSpace && spaced_go true t
      else spaced_go false t
  end.

(** The character before the position once [run] has been read. *)
Definition runPrev (run : str) (p : option ascii) : option ascii :=
  match rev run with
  | a :: _ => Some a
  | [] => p
  end.

(** [starts c r]: every match of [r] begins with a character of the
    class [c]. *)
Fixpoint starts (c : ascii -> bool) (r : regex) : bool :=
  match r with
  | Chr p => classWithin p c
  | Seq r1 _ => starts c r1
  | Alt r1 r2 => starts c r1 && starts c r2
  | Group _ r1 => starts c r1
  | _ => false
  end.

(** No match of [r] begins inside [pre], in the input [pre ++ suffix]
    that follows [rev before_rev]. *)
Fixpoint unmatched (r : regex) (before_rev pre suffix : str) : Prop :=
  match pre with
  | [] => True
  | a :: pre' =>
      matchAt r before_rev (pre ++ suffix) = None
      /\ unmatched r (a :: before_rev) pre' suffix
  end.

(** A lazy star over the class [p] goes through [run]: its continuation
    [k] fails before each character of [run], which is in [p]. *)
Fixpoint passes (k : mstate -> option mstate) (p : ascii -> bool)
  (run : str) (st : mstate) : Prop :=
  match run with
  | [] => True
  | a :: run' =>
      k st = None /\ p a = true
      /\ passes k p run' (advance a (tl (rest st)) st)
  end.

End Regex.

(** * The chat page (src/App.jsx) *)

Module App.
Import Js.
Import Regex.

(** ** Plain-text formatter: [cleanText] *)

(** [temp.innerHTML = textStr; temp.textContent]: the text of the parsed
    fragment.  The HTML parser is the browser's; it is modelled on the
    strings that hold no markup at all: without [<], [&], NUL and CR, the
    fragment is a single text node holding the string itself.  Other
    strings are outside the model ([None]). *)
Definition plainChar (a : ascii) : bool :=
  negb (memChar a ["<"; "&"; "000"; "013"]%char).

Definition textContent (textStr : str) : option str :=
  if forallb plainChar textStr then Some textStr else None.

(** The chain of replacements of [cleanText], in order. *)
Definition stripTags : regex :=                       (* /<[^>]*>?/gm *)
  seqs [chr "<"; star (noneOf ">"); opt (chr ">")].
Definition stripHashes : regex :=                     (* /\s*#+\s*/g *)
  seqs [star ws; plus (chr "#"); star ws].
Definition stripStars : regex :=                      (* /\s*\*\s*/g *)
  seqs [star ws; chr "*"; star ws].
Definition stripDashes : regex :=                     (* /\s*\-\s*/g *)
  seqs [star ws; chr "-"; star ws].
Definition stripNumbering : regex :=                  (* /\s*\d+\.\s*/g *)
  seqs [star ws; plus digit; chr "."; star ws].
Definition spaces : regex :=                          (* /\s+/g *)
  plus ws.
Definition stripRules : regex :=                      (* /\s*[\-\*_]{2,}\s*/g *)
  seqs [star ws; atLeast 2 (oneOf "-*_"); star ws].
Definition stripFences : regex :=                     (* /\s*`{3,}.*?`{3,}\s*/gs *)
  seqs [star ws; atLeast 3 (chr "`"); lazyStar anyChar; atLeast 3 (chr "`"); star ws].
Definition inlineCode : regex :=                      (* /\s*`([^`]+)`\s*/g *)
  seqs [star ws; chr "`"; Group 1 (plus (noneOf "`")); chr "`"; star ws].
Definition linkText : regex :=                        (* /\s*\[([^\]]+)\]\([^)]+\)\s*/g *)
  seqs [star ws; chr "["; Group 1 (plus (noneOf "]")); chr "]";
        chr "("; plus (noneOf ")"); chr ")"; star ws].
Definition stripImages : regex :=                     (* /\s*!\[[^\]]*\]\([^)]+\)\s*/g *)
  seqs [star ws; chr "!"; chr "["; star (noneOf "]"); chr "]";
        chr "("; plus (noneOf ")"); chr ")"; star ws].

Definition cleanChain (clean : str) : str :=
  trim
    (replaceAll stripImages []
    (replaceAll linkText "$1"
    (replaceAll inlineCode "$1"
    (replaceAll stripFences []
    (replaceAll stripRules []
    (replaceAll spaces " "
    (replaceAll stripNumbering []
    (replaceAll stripDashes []
    (replaceAll stripStars []
    (replaceAll stripHashes []
    (replaceAll stripTags [] clean))))))))))).

(** [cleanText(text)] for a string [text]: the empty string is returned
    as it is; otherwise the text content of the parsed fragment goes
    through the chain.  No step of the chain throws. *)
Definition cleanText (text : str) : option str :=
  match text with
  | [] => Some []
  | _ =>
      match textContent text with
      | Some clean => Some (cleanChain clean)
      | None => None
      end
  end.

(** The characters the chain or the HTML parser may rewrite, digits and
    full stops apart. *)
Definition markupChar (a : ascii) : bool :=
  memChar a ["<"; "&"; "#"; "*"; "-"; "_"; "`"; "["; "000"; "013"]%char.

Definition fullStop (a : ascii) : bool := Ascii.eqb a ".".

(** A text without markup: none of the characters above, and no digit or
    no full stop (so that no numbering [1.] can occur). *)
Definition markupFree (s : str) : Prop :=
  lacks markupChar s = true
  /\ (lacks isDigit s = true \/ lacks fullStop s = true).

(** [cleanText] applied to its own result. *)
Definition cleanTextTwice (text : str) : option str :=
  match cleanText text with
  | Some t => cleanText t
  | None => None
  end.

(** ** Rich formatter: [formatMessageText] *)

Definition backslash : ascii := "\"%char.
Definition newline : ascii := "010"%char.
Definition quote : ascii := "034"%char.

(** An attribute [name="value"], with a space before it. *)
Definition attr (name value : str) : str :=
  " " ++ name ++ "=" ++ [quote] ++ value ++ [quote].

(** Initial cleaning *)
Definition htmlTag : regex :=                         (* /<[^>]*>/g *)
  seqs [chr "<"; star (noneOf ">"); chr ">"].
Definition escapedQuote : regex :=                    (* backslash, double quote; g *)
  seqs [chr backslash; chr quote].
Definition escapedBackslash : regex :=                (* /\\\\/g *)
  seqs [chr backslash; chr backslash].
Definition escapedNewline : regex :=                  (* /\\n/g *)
  seqs [chr backslash; chr "n"].
Definition escapedTab : regex :=                      (* /\\t/g *)
  seqs [chr backslash; chr "t"].
Definition spaceRun : regex :=                        (* /\s{2,}/g *)
  atLeast 2 ws.

Definition initialCleaning (text : str) : str :=
  trim
    (replaceAll spaceRun " "
    (replaceAll escapedTab "  "
    (replaceAll escapedNewline [newline]
    (replaceAll escapedBackslash [backslash]
    (replaceAll escapedQuote [quote]
    (replaceAll htmlTag [] text)))))).

(** Preserve code blocks *)
Definition fence : regex :=                           (* /```([\s\S]*?)```/g *)
  seqs [text "```"; Group 1 (lazyStar anyChar); text "```"].

(** The placeholder [___CODE_BLOCK_i___] *)
Definition placeholder (index : nat) : str :=
  "___CODE_BLOCK_" ++ digitsOf (N.of_nat index) ++ "___".

(** The callback of the fence replacement: it pushes the inner text on
    [codeBlocks] and returns the placeholder of its index. *)
Definition pushCodeBlock (codeBlocks : list str) (m : MatchInfo)
  : list str * str :=
  let codeBlocks' := codeBlocks ++ [group 1 m] in
  (codeBlocks', placeholder (List.length codeBlocks' - 1)).

Definition extractCodeBlocks (cleanText : str) : list str * str :=
  replaceAllWith fence pushCodeBlock [] cleanText.

(** Handle URLs *)
Definition urlRegex : regex :=                        (* /(https?:\/\/[^\s\n]+)/g *)
  Group 1 (seqs [text "http"; opt (chr "s"); text "://";
                 plus (Chr (fun a => negb (isWhiteSpace a || Ascii.eqb a newline)))]).

Definition wrapUrl (m : MatchInfo) : str :=
  " [" ++ matched m ++ "](" ++ matched m ++ ") ".

(** Paragraphs.  The bullet of the source's classes is outside the
    modelled character range, which leaves [-] and [*]. *)
Definition numberedList : regex :=                    (* /^\s*\d+\.\s+/ *)
  seqs [Bol false; star ws; plus digit; chr "."; plus ws].
Definition bulletList : regex :=                      (* /^\s*[-•*]\s+/ *)
  seqs [Bol false; star ws; oneOf "-*"; plus ws].
Definition listMarker : regex :=                      (* /^\s*[\d.\-•*]+\s*/ *)
  seqs [Bol false; star ws; plus (Chr (fun a => isDigit a || memChar a ".-*")); star ws].
Definition keyValue : regex :=                        (* /^([^:\n]+):\s*([\s\S]+)$/ *)
  seqs [Bol false; Group 1 (plus (noneOf [":"%char; newline])); chr ":"; star ws;
        Group 2 (plus anyChar); Eol false].

Definition listItem (item : str) : str :=
  let content := trim (replaceFirst listMarker [] item) in
  "<li" ++ attr "class" "list-item" ++ ">" ++ content ++ "</li>".

Definition nonEmpty (s : str) : bool :=
  match s with [] => false | _ => true end.

Definition processParagraph (paragraph : str) : str :=
  let paragraph := trim paragraph in
  match paragraph with
  | [] => []
  | _ =>
      let isNumberedList := test numberedList paragraph in
      let isBulletList := test bulletList paragraph in
      if isNumberedList || isBulletList then
        let listType : str := if isNumberedList then "ol" else "ul" in
        let items :=
          join [] (List.map listItem
                     (filter (fun item => nonEmpty (trim item))
                             (split [newline] paragraph))) in
        "<" ++ listType ++ attr "class" "message-list" ++ ">" ++ items
            ++ "</" ++ listType ++ ">"
      else if endsWith ":" paragraph && negb (includes "http" paragraph) then
        "<h3" ++ attr "class" "section-header" ++ ">" ++ paragraph ++ "</h3>"
      else
        match exec keyValue paragraph with
        | Some keyValueMatch =>
            [newline] ++ "        <div" ++ attr "class" "key-value" ++ ">"
            ++ [newline] ++ "          <span" ++ attr "class" "key" ++ ">"
            ++ group 1 keyValueMatch ++ ":</span>"
            ++ [newline] ++ "          <span" ++ attr "class" "value" ++ ">"
            ++ trim (group 2 keyValueMatch) ++ "</span>"
            ++ [newline] ++ "        </div>"
        | None =>
            "<p" ++ attr "class" "message-paragraph" ++ ">" ++ paragraph ++ "</p>"
        end
  end.

Definition processParagraphs (cleanText : str) : str :=
  join [newline] (List.map processParagraph (split [newline; newline] cleanText)).

(** Markdown links and naked URLs *)
Definition markdownLink : regex :=                    (* /\[([^\]]+)\]\(([^)]+)\)/g *)
  seqs [chr "["; Group 1 (plus (noneOf "]")); chr "]";
        chr "("; Group 2 (plus (noneOf ")")); chr ")"].
Definition urlJunk : regex :=                         (* white space, angle brackets, double quote; one or more; g *)
  plus (Chr (fun a => isWhiteSpace a || memChar a ["<"; ">"; quote]%char)).
Definition httpPrefix : regex :=                      (* /^https?:\/\// *)
  seqs [Bol false; text "http"; opt (chr "s"); text "://"].
Definition nakedUrl : regex :=                        (* /(https?:\/\/[^\s\n<]+)/g *)
  Group 1 (seqs [text "http"; opt (chr "s"); text "://";
                 plus (Chr (fun a => negb (isWhiteSpace a || Ascii.eqb a newline
                                           || Ascii.eqb a "<")))]).

Definition anchor (href label : str) : str :=
  "<a" ++ attr "href" href ++ attr "target" "_blank"
       ++ attr "rel" "noopener noreferrer" ++ attr "class" "message-link"
       ++ ">" ++ label ++ "</a>".

Definition linkAnchor (m : MatchInfo) : str :=
  let cleanUrl := trim (replaceAll urlJunk [] (group 2 m)) in
  let cleanUrl := if test httpPrefix cleanUrl then cleanUrl
                  else "https://" ++ cleanUrl in
  anchor cleanUrl (group 1 m).

Definition urlAnchor (m : MatchInfo) : str :=
  let url := matched m in
  if includes "<a " url then url else anchor url url.

(** Restore code blocks: [codeBlocks.forEach((code, index) => ...)]; the
    restored block is the replacement string of [replace]. *)
Definition codeBlockHtml (code : str) : str :=
  "<pre" ++ attr "class" "code-block" ++ "><code>" ++ code ++ "</code></pre>".

Fixpoint restoreCodeBlocks (index : nat) (codeBlocks : list str)
  (formattedText : str) : str :=
  match codeBlocks with
  | [] => formattedText
  | code :: rest =>
      restoreCodeBlocks (S index) rest
        (replaceStr (placeholder index) (codeBlockHtml code) formattedText)
  end.

(** Headers, bold, italic and inline code *)
Definition header1 : regex :=                         (* /^#\s+(.+?)(\n|$)/gm *)
  seqs [Bol true; chr "#"; plus ws; Group 1 (lazyPlus dot);
        Group 2 (Alt (chr newline) (Eol true))].
Definition header2 : regex :=                         (* /^##\s+(.+?)(\n|$)/gm *)
  seqs [Bol true; text "##"; plus ws; Group 1 (lazyPlus dot);
        Group 2 (Alt (chr newline) (Eol true))].
Definition bold : regex :=                            (* /\*\*([^*]+)\*\*/g *)
  seqs [text "**"; Group 1 (plus (noneOf "*")); text "**"].
Definition italic : regex :=                          (* /\*([^*]+)\*/g *)
  seqs [chr "*"; Group 1 (plus (noneOf "*")); chr "*"].
Definition backticks : regex :=                       (* /`([^`]+)`/g *)
  seqs [chr "`"; Group 1 (plus (noneOf "`")); chr "`"].

(** Spacing between elements *)
Definition blockName : regex :=                       (* (p|h2|h3|div|pre|ul|ol) *)
  alts [text "p"; text "h2"; text "h3"; text "div"; text "pre"; text "ul"; text "ol"].
Definition blockSeam : regex :=                       (* /<\/(p|..|ol)>\s*<(p|..|ol)/g *)
  seqs [text "</"; Group 1 blockName; chr ">"; star ws; chr "<"; Group 2 blockName].
Definition itemSeam : regex :=                        (* /<\/(li)>\s*<(li)/g *)
  seqs [text "</"; Group 1 (text "li"); chr ">"; star ws; chr "<"; Group 2 (text "li")].
Definition headerEnd : regex :=                       (* /<\/(h2|h3)>/g *)
  seqs [text "</"; Group 1 (Alt (text "h2") (text "h3")); chr ">"].
Definition preBlock : regex :=                        (* /<pre[^>]*>([\s\S]*?)<\/pre>/g *)
  seqs [text "<pre"; star (noneOf ">"); chr ">"; Group 1 (lazyStar anyChar);
        text "</pre>"].

Definition breakLines (m : MatchInfo) : str :=       (* match.replace(/\n/g, '<br>') *)
  replaceAll (chr newline) "<br>" (matched m).

Definition afterRestore (formattedText : str) : str :=
  replaceAllBy preBlock breakLines
    (replaceAll headerEnd ("</$1>" ++ [newline])
    (replaceAll itemSeam "</$1><$2"
    (replaceAll blockSeam ("</$1>" ++ [newline] ++ "<$2")
    (replaceAll backticks ("<code" ++ attr "class" "inline-code" ++ ">$1</code>")
    (replaceAll italic "<em>$1</em>"
    (replaceAll bold "<strong>$1</strong>"
    (replaceAll header2 ("<h3" ++ attr "class" "message-subheader" ++ ">$1</h3>")
    (replaceAll header1 ("<h2" ++ attr "class" "message-header" ++ ">$1</h2>")
       formattedText)))))))).

(** [formatMessageText(text)] for a string [text]. *)
Definition formatMessageText (text : str) : str :=
  match text with
  | [] => []
  | _ =>
      let '(codeBlocks, cleanText) := extractCodeBlocks (initialCleaning text) in
      let cleanText := replaceAllBy urlRegex wrapUrl cleanText in
      let formattedText := processParagraphs cleanText in
      let formattedText := replaceAllBy markdownLink linkAnchor formattedText in
      let formattedText := replaceAllBy nakedUrl urlAnchor formattedText in
      afterRestore (restoreCodeBlocks 0 codeBlocks formattedText)
  end.

(** A text made of one fenced code block, and the paragraph the
    formatter wraps a text in. *)
Definition fenced (code : str) : str := "```" ++ code ++ "```".

Definition paragraphOpen : str :=
  Eval vm_compute in ("<p" ++ attr "class" "message-paragraph" ++ ">").

Definition paragraphOf (inner : str) : str := paragraphOpen ++ inner ++ "</p>".

Definition codeOpen : str :=
  Eval vm_compute in ("<pre" ++ attr "class" "code-block" ++ "><code>").

(** The characters of a code block that some step of the formatter
    rewrites: the newline (it becomes [<br>]), [<] (tags are stripped),
    the backslash (escapes are undone), and the backtick, [*], [#] and
    [$], which the steps after the restoration read as markup or as a
    replacement pattern. *)
Definition codeMarkup (a : ascii) : bool :=
  Ascii.eqb a newline || memChar a ["<"; backslash; "`"; "*"; "#"; "$"]%char.

(** A text whose white-space characters stand alone: no two in a row
    (a run of two or more is collapsed to one space). *)
Fixpoint loneSpace_go (afterSpace : bool) (s : str) : bool :=
  match s with
  | [] => true
  | a :: t =>
      if isWhiteSpace a then negb afterSpace && loneSpace_go true t
      else loneSpace_go false t
  end.

Definition loneSpaces (s : str) : bool := loneSpace_go false s.

(** ** Chat send handler: [handleSendMessage] *)

Definition API_BASE_URL : str := "http://localhost:8000".

Inductive sender : Type := user | bot.

(** A chat entry.  [timestamp] is the instant read from the clock, which
    the source renders with [toISOString]; [isError] is false and [data]
    is [VUndefined] where the source leaves the field out. *)
Record ChatMessage : Type := {
  msg_id : Z;
  msg_text : jsval;
  msg_sender : sender;
  timestamp : Z;
  isError : bool;
  data : jsval
}.

(** The state of the chat component that the handler writes. *)
Record ChatState : Type := {
  messages : list ChatMessage;
  inputValue : str;
  isLoading : bool
}.

(** The JSON body of a reply: [{answer, data}]. *)
Record AskReply : Type := { answer : jsval; reply_data : jsval }.

(** What [fetch] and [response.json()] come to: the request is rejected
    (network error), or a response arrives with its [ok] flag, status and
    body, the body being [None] when reading it or its [answer] throws
    (a body that is not JSON, or the JSON [null]). *)
Inductive fetchResult : Type :=
| NetworkError
| Response (ok : bool) (status : Z) (body : option AskReply).

Definition askUrl (messageText : str) : str :=
  API_BASE_URL ++ "/ask?question=" ++ encodeURIComponent messageText.

Definition errorText : str :=
  "Sorry, I encountered an error processing your request. Please try again later.".

Definition fallbackText : str :=
  "I received your message but couldn't process it at the moment.".

(** The messages the handler builds.  [clock i] is the [i]-th reading of
    the clock during the call. *)
Definition userMessage (clock : nat -> Z) (messageText : str) : ChatMessage :=
  {| msg_id := clock 0; msg_text := VStr messageText; msg_sender := user;
     timestamp := clock 1; isError := false; data := VUndefined |}.

Definition botMessage (clock : nat -> Z) (reply : AskReply) : ChatMessage :=
  {| msg_id := clock 2 + 1;
     msg_text := if toBoolean (answer reply) then answer reply
                 else VStr fallbackText;
     msg_sender := bot; timestamp := clock 3; isError := false;
     data := reply_data reply |}.

Definition errorMessage (clock : nat -> Z) : ChatMessage :=
  {| msg_id := clock 2 + 1; msg_text := VStr errorText; msg_sender := bot;
     timestamp := clock 3; isError := true; data := VUndefined |}.

(** [setMessages(prev => [...prev, m])] *)
Definition appendMessage (m : ChatMessage) (st : ChatState) : ChatState :=
  {| messages := messages st ++ [m];
     inputValue := inputValue st; isLoading := isLoading st |}.

Definition setInputValue (v : str) (st : ChatState) : ChatState :=
  {| messages := messages st; inputValue := v; isLoading := isLoading st |}.

Definition setIsLoading (b : bool) (st : ChatState) : ChatState :=
  {| messages := messages st; inputValue := inputValue st; isLoading := b |}.

(** The state updates of [handleSendMessage], in order; [fetch] gives the
    outcome of the request to a URL.  Every outcome other than an [ok]
    response with a JSON body throws and lands in the [catch] branch. *)
Definition handleSendMessage (clock : nat -> Z) (fetch : str -> fetchResult)
  (st : ChatState) : ChatState :=
  let messageText := trim (inputValue st) in
  match messageText with
  | [] => st
  | _ =>
      let st1 :=
        setIsLoading true
          (setInputValue []
             (appendMessage (userMessage clock messageText) st)) in
      let st2 :=
        match fetch (askUrl messageText) with
        | Response true _ (Some reply) =>
            appendMessage (botMessage clock reply) st1
        | _ => appendMessage (errorMessage clock) st1
        end in
      setIsLoading false st2
  end.

(** The request fails: a network error or a response that is not 2xx. *)
Definition requestFails (r : fetchResult) : Prop :=
  r = NetworkError \/ exists status body, r = Response false status body.

(** A sample send: the input "  hello " while the backend is down. *)
Definition greeting : ChatMessage :=
  {| msg_id := 1;
     msg_text := VStr "Hello! I'm your Ocean Data Assistant. Ask me anything about ocean temperature, salinity, and other parameters.";
     msg_sender := bot; timestamp := 0; isError := false; data := VUndefined |}.

Definition sampleChat : ChatState :=
  {| messages := [greeting]; inputValue := "  hello "; isLoading := false |}.

Definition sampleClock (i : nat) : Z := 1700000000000 + Z.of_nat i.

Definition backendDown (url : str) : fetchResult := NetworkError.

End App.

(** * The map component, continued (src/components/ArgoFloatsMap.jsx)

    The handlers around the heat points: the heatmap toggle, the marker
    list, the loading of the floats and the depth-profile dialog. *)

Module MapPage.
Import Js.
Import ArgoFloatsMap.

(** [a === b] on the two heatmap names. *)
Definition heatmap_eqb (a b : heatmap) : bool :=
  match a, b with
  | HeatTemperature, HeatTemperature | HeatSalinity, HeatSalinity => true
  | _, _ => false
  end.

(** [toggleHeatmap(type)]: the new [activeHeatmap]. *)
Definition toggleHeatmap (activeHeatmap : option heatmap) (type : heatmap)
  : option heatmap :=
  match activeHeatmap with
  | Some active => if heatmap_eqb active type then None else Some type
  | None => Some type
  end.

(** *** Markers *)

(** The callback of the [filter] that selects the floats drawn as
    markers. *)
Definition markerVisible (float : ArgoFloat) : bool :=
  negb (isNaN (parseFloat (lat float)))
  && negb (isNaN (parseFloat (lng float)))
  && le (abs (parseFloat (lat float))) (ofZ 90)
  && le (abs (parseFloat (lng float))) (ofZ 180).

(** [argoFloats.filter(...)] of the marker list.  An entry [None] is
    [null] here: the callback reads [float.lat] at once, which throws
    ([None] as the result). *)
Fixpoint markers (argoFloats : floats) : option (list ArgoFloat) :=
  match argoFloats with
  | [] => Some []
  | None :: _ => None
  | Some float :: rest =>
      match markers rest with
      | Some shown =>
          Some (if markerVisible float then float :: shown else shown)
      | None => None
      end
  end.

(** *** Loading the floats: [fetchArgoFloats] and [handleFilterChange] *)

(** The state of the component that the handlers below write. *)
Record MapState : Type := {
  argoFloats : floats;
  isLoading : bool;
  isFiltering : bool;
  error : option str;
  filters : filterParams;
  selectedFloat : option ArgoFloat;
  depthProfileData : list DepthProfilePoint;
  isProfileDialogOpen : bool
}.

Definition setArgoFloats (v : floats) (st : MapState) : MapState :=
  {| argoFloats := v; isLoading := isLoading st; isFiltering := isFiltering st;
     error := error st; filters := filters st;
     selectedFloat := selectedFloat st;
     depthProfileData := depthProfileData st;
     isProfileDialogOpen := isProfileDialogOpen st |}.

Definition setIsLoading (v : bool) (st : MapState) : MapState :=
  {| argoFloats := argoFloats st; isLoading := v; isFiltering := isFiltering st;
     error := error st; filters := filters st;
     selectedFloat := selectedFloat st;
     depthProfileData := depthProfileData st;
     isProfileDialogOpen := isProfileDialogOpen st |}.

Definition setIsFiltering (v : bool) (st : MapState) : MapState :=
  {| argoFloats := argoFloats st; isLoading := isLoading st; isFiltering := v;
     error := error st; filters := filters st;
     selectedFloat := selectedFloat st;
     depthProfileData := depthProfileData st;
     isProfileDialogOpen := isProfileDialogOpen st |}.

Definition setError (v : option str) (st : MapState) : MapState :=
  {| argoFloats := argoFloats st; isLoading := isLoading st;
     isFiltering := isFiltering st; error := v; filters := filters st;
     selectedFloat := selectedFloat st;
     depthProfileData := depthProfileData st;
     isProfileDialogOpen := isProfileDialogOpen st |}.

Definition setFilters (v : filterParams) (st : MapState) : MapState :=
  {| argoFloats := argoFloats st; isLoading := isLoading st;
     isFiltering := isFiltering st; error := error st; filters := v;
     selectedFloat := selectedFloat st;
     depthProfileData := depthProfileData st;
     isProfileDialogOpen := isProfileDialogOpen st |}.

Definition setSelectedFloat (v : option ArgoFloat) (st : MapState) : MapState :=
  {| argoFloats := argoFloats st; isLoading := isLoading st;
     isFiltering := isFiltering st; error := error st; filters := filters st;
     selectedFloat := v;
     depthProfileData := depthProfileData st;
     isProfileDialogOpen := isProfileDialogOpen st |}.

Definition setDepthProfileData (v : list DepthProfilePoint) (st : MapState)
  : MapState :=
  {| argoFloats := argoFloats st; isLoading := isLoading st;
     isFiltering := isFiltering st; error := error st; filters := filters st;
     selectedFloat := selectedFloat st;
     depthProfileData := v;
     isProfileDialogOpen := isProfileDialogOpen st |}.

Definition setIsProfileDialogOpen (v : bool) (st : MapState) : MapState :=
  {| argoFloats := argoFloats st; isLoading := isLoading st;
     isFiltering := isFiltering st; error := error st; filters := filters st;
     selectedFloat := selectedFloat st;
     depthProfileData := depthProfileData st;
     isProfileDialogOpen := v |}.

(** A JSON body: [null], an array (its entries are records or [null]),
    an object (of which [detail] is read, a primitive here), or a
    boolean, number or string. *)
Inductive json : Type :=
| JNull
| JArray (items : floats)
| JObject (detail : jsval)
| JPrimitive.

(** What [response.json()] comes to: it rejects with an error, or gives
    the parsed body. *)
Inductive bodyResult : Type :=
| BodyError (message : str)
| Body (data : json).

(** What [fetch] comes to: it rejects with an error, or a response
    arrives. *)
Inductive fetchResult : Type :=
| Rejected (message : str)
| Response (ok : bool) (status : Z) (body : bodyResult).

(** What the handler takes from its host: the message of the TypeError
    raised by reading a property of [null], and the outcome of
    [L.latLngBounds(positions)], [bounds.isValid()] and [map.fitBounds]:
    [None] when they return, the message of the error otherwise. *)
Record Host : Type := {
  nullRead : str -> str;
  fitBounds : list (jsval * jsval) -> option str
}.

(** How a call ends: it returns [formattedData], or throws an error with
    a message. *)
Inductive outcome : Type :=
| Returned (formattedData : floats)
| Thrown (message : str).

(** [errorData.detail], where [errorData] is the body of a response that
    is not ok, or [{}] when the body cannot be read. *)
Definition detailOf (host : Host) (body : bodyResult) : jsval + str :=
  match body with
  | BodyError _ => inl VUndefined
  | Body JNull => inr (nullRead host "detail")
  | Body (JObject detail) => inl detail
  | Body _ => inl VUndefined
  end.

(** [`HTTP error! status: ${response.status}, message: ${detail || 'No details'}`] *)
Definition httpErrorMessage (status : Z) (detail : jsval) : str :=
  "HTTP error! status: " ++ numberToString (ofZ status) ++ ", message: "
  ++ ToString (if toBoolean detail then detail else VStr "No details").

(** [formattedData.map(f => [f.lat, f.lng])], which throws on [null]. *)
Fixpoint positions (formattedData : floats) : option (list (jsval * jsval)) :=
  match formattedData with
  | [] => Some []
  | None :: _ => None
  | Some f :: rest =>
      match positions rest with
      | Some ps => Some ((lat f, lng f) :: ps)
      | None => None
      end
  end.

(** The text of the error banner. *)
Definition loadError (message : str) : str :=
  "Failed to load Argo float data: " ++ message
  ++ ". Please check your connection and try again.".

(** The [finally] block. *)
Definition settle (st : MapState) : MapState :=
  setIsFiltering false (setIsLoading false st).

(** The [catch] block, followed by the [finally] block. *)
Definition fail (message : str) (st : MapState) : MapState * outcome :=
  (settle (setError (Some (loadError message)) st), Thrown message).

(** [fetchArgoFloats(filterParams)]: the state it leaves and how it
    ends.  [map] tells whether the map instance exists. *)
Definition fetchArgoFloats (host : Host) (fetch : str -> fetchResult)
  (map : bool) (filterParams : filterParams) (st : MapState)
  : MapState * outcome :=
  let st := setError None (setIsLoading true st) in
  match fetch (apiUrl filterParams) with
  | Rejected message => fail message st
  | Response false status body =>
      match detailOf host body with
      | inl detail => fail (httpErrorMessage status detail) st
      | inr message => fail message st
      end
  | Response true _ (BodyError message) => fail message st
  | Response true _ (Body data) =>
      let formattedData := match data with JArray items => items | _ => [] end in
      let st := setArgoFloats formattedData st in
      if map && (0 <? List.length formattedData) then
        match positions formattedData with
        | None => fail (nullRead host "lat") st
        | Some ps =>
            match fitBounds host ps with
            | Some message => fail message st
            | None => (settle st, Returned formattedData)
            end
        end
      else (settle st, Returned formattedData)
  end.

(** [handleFilterChange(newFilters)]: the error of the fetch is caught
    and logged. *)
Definition handleFilterChange (host : Host) (fetch : str -> fetchResult)
  (map : bool) (newFilters : filterParams) (st : MapState) : MapState :=
  let st := setFilters newFilters (setIsFiltering true st) in
  setIsFiltering false (fst (fetchArgoFloats host fetch map newFilters st)).

(** The bounds of the initial load. *)
Definition indianOceanBounds : filterParams :=
  [ ("lat_min" : str, VNum (ofZ (-30)));
    ("lat_max" : str, VNum (ofZ 30));
    ("lon_min" : str, VNum (ofZ 30));
    ("lon_max" : str, VNum (ofZ 100)) ].

(** *** The depth-profile dialog *)

(** [handleFloatClick(float)] *)
Definition handleFloatClick (fuel : nat) (random : nat -> number)
  (float : ArgoFloat) (st : MapState) : MapState :=
  let st := setSelectedFloat (Some float) st in
  let profileData := generateDepthProfile fuel random (id float) in
  setIsProfileDialogOpen true (setDepthProfileData profileData st).

(** [handleCloseDialog()] *)
Definition handleCloseDialog (st : MapState) : MapState :=
  setSelectedFloat None (setIsProfileDialogOpen false st).

(** What the dialog shows: nothing, the chart, or the waiting text. *)
Inductive dialogView : Type := DialogClosed | DialogChart | DialogWaiting.

Definition dialog (st : MapState) : dialogView :=
  if isProfileDialogOpen st then
    if 0 <? List.length (depthProfileData st) then DialogChart else DialogWaiting
  else DialogClosed.

(** Sample data: a state that shows old floats and an error-free host. *)
Definition quietHost : Host :=
  {| nullRead := fun name => "Cannot read properties of null";
     fitBounds := fun _ => None |}.

Definition startState : MapState :=
  {| argoFloats := [Some insideFloat]; isLoading := false; isFiltering := true;
     error := None; filters := []; selectedFloat := None;
     depthProfileData := []; isProfileDialogOpen := false |}.

Definition serverDown (url : str) : fetchResult := Rejected "Failed to fetch".

(** A float whose temperature cannot be read as a Number. *)
Definition unreadableTempFloat : ArgoFloat :=
  {| id := VNum (ofZ 3); lat := VStr "10"; lng := VStr "50";
     temp := VStr "n/a"; salinity := VStr "35 PSU" |}.

(** A click on a point. *)
Definition clickOn (point : HeatPoint) : LatLng :=
  {| ll_lat := pt_lat point; ll_lng := pt_lng point |}.

Definition serverSendsObject (url : str) : fetchResult :=
  Response true 200 (Body (JObject VUndefined)).

Definition serverSendsNull (url : str) : fetchResult :=
  Response true 200 (Body (JArray [Some insideFloat; None])).

End MapPage.

(** * The filter panel, continued (src/components/FloatFilters.jsx) *)

Module FilterPanel.
Import Js.
Import FloatFilters.

(** The [filters] state as an object: its keys in insertion order (none
    of them an array index), each with a string. *)
Definition filtersObject := list (str * str).

(** The initial state, and the one [resetFilters] installs. *)
Definition initialFilters : filtersObject :=
  [ ("latMin" : str, []); ("latMax" : str, []); ("lonMin" : str, []);
    ("lonMax" : str, []); ("depthMax" : str, []); ("startDate" : str, []);
    ("endDate" : str, []) ].

(** [filters[name]] *)
Fixpoint get (name : str) (obj : filtersObject) : option str :=
  match obj with
  | [] => None
  | (key, value) :: rest => if str_eqb key name then Some value else get name rest
  end.

(** [{...prev, [name]: value}]: an existing key keeps its place. *)
Fixpoint assign (name value : str) (prev : filtersObject) : filtersObject :=
  match prev with
  | [] => [(name, value)]
  | (key, old) :: rest =>
      if str_eqb key name then (key, value) :: rest
      else (key, old) :: assign name value rest
  end.

(** [handleInputChange(e)], where [e.target] has the given name and
    value. *)
Definition handleInputChange (name value : str) (prev : filtersObject)
  : filtersObject :=
  assign name value prev.

(** The fields [handleSubmit] reads. *)
Definition criteria (filters : filtersObject) : FilterCriteria :=
  {| latMin := get "latMin" filters;
     latMax := get "latMax" filters;
     lonMin := get "lonMin" filters;
     lonMax := get "lonMax" filters;
     depthMax := get "depthMax" filters;
     startDate := get "startDate" filters;
     endDate := get "endDate" filters |}.

(** [Object.values(filters).some(value => value !== '')] *)
Definition hasActiveFilters (filters : filtersObject) : bool :=
  existsb (fun kv => match snd kv with [] => false | _ => true end) filters.

(** [resetFilters()]: the new state and the object handed to
    [onFilterChange]. *)
Definition resetFilters : filtersObject * ArgoFloatsMap.filterParams :=
  (initialFilters, []).

(** The names of the form's inputs and the parameter each one feeds. *)
Definition inputs : list (str * str) :=
  [ ("latMin" : str, "lat_min" : str); ("latMax" : str, "lat_max" : str);
    ("lonMin" : str, "lon_min" : str); ("lonMax" : str, "lon_max" : str);
    ("startDate" : str, "start_date" : str); ("endDate" : str, "end_date" : str) ].

End FilterPanel.

(** * The chat page, continued (src/App.jsx) *)

Module Chat.
Import Js.
Import App.

(** [handleQuickQuestion(question)] *)
Definition handleQuickQuestion (question : str) (st : ChatState) : ChatState :=
  setInputValue question st.

(** [SUGGESTED_QUESTIONS] *)
Definition SUGGESTED_QUESTIONS : list str :=
  [ "What is the average temperature in the Indian Ocean?" : str;
    "Show me salinity trends in the last 5 years" : str;
    "What are the highest recorded temperatures?" : str;
    "Compare temperature data between different regions" : str ].

(** The text shown when formatting a message throws:
    [typeof message.text === 'string' ? message.text.replace(/<[^>]*>?/gm, '') : '...'] *)
Definition renderFallback (text : jsval) : str :=
  match text with
  | VStr s => Regex.replaceAll stripTags [] s
  | _ => "I had trouble understanding that. Could you try rephrasing?"
  end.

(** [document.body.classList]: the tokens of the class attribute, in
    order, each once. *)
Definition classList := list str.

(** [classList.add(token)] and [classList.remove(token)] *)
Definition classAdd (token : str) (tokens : classList) : classList :=
  if existsb (str_eqb token) tokens then tokens else tokens ++ [token].

Definition classRemove (token : str) (tokens : classList) : classList :=
  filter (fun t => negb (str_eqb t token)) tokens.

(** [toggleDarkMode()]: the new [darkMode]. *)
Definition toggleDarkMode (darkMode : bool) : bool := negb darkMode.

(** The effect that runs when [darkMode] has changed, on the classes of
    the body, and its clean-up. *)
Definition applyDarkMode (darkMode : bool) (body : classList) : classList :=
  let body := classAdd "theme-transition" body in
  if darkMode then classAdd "dark-mode" body else classRemove "dark-mode" body.

Definition cleanUpDarkMode (body : classList) : classList :=
  classRemove "theme-transition" body.

(** A press on the theme button: the clean-up of the previous effect,
    then the effect for the new [darkMode]. *)
Definition pressThemeButton (darkMode : bool) (body : classList)
  : bool * classList :=
  (toggleDarkMode darkMode,
   applyDarkMode (toggleDarkMode darkMode) (cleanUpDarkMode body)).

(** A request that succeeds with the given reply. *)
Definition replies (reply : AskReply) (url : str) : fetchResult :=
  Response true 200 (Some reply).

End Chat.

(** * The depth-profile chart (DepthProfileChart component) *)

Module DepthProfileChart.
Import Js.

(** An entry of [data]; a field that is absent reads [VUndefined]. *)
Record Item : Type := {
  depth : jsval;
  temperature : jsval;
  salinity : jsval
}.

(** What the component renders: one of the two notices, or the chart
    with the label of its horizontal axis and the lines drawn. *)
Inductive View : Type :=
| NoData
| NoValidData
| Chart (axisLabel : str) (temperatureLine salinityLine : bool).

Definition hasTemperature (data : list Item) : bool :=
  existsb (fun item => negb (isUndefined (temperature item))) data.

Definition hasSalinity (data : list Item) : bool :=
  existsb (fun item => negb (isUndefined (salinity item))) data.

Definition degree : ascii := "176"%char.

(** [DepthProfileChart({data})]; [None] is a [data] that is not an
    array. *)
Definition DepthProfileChart (data : option (list Item)) : View :=
  match data with
  | None | Some [] => NoData
  | Some items =>
      if negb (hasTemperature items) && negb (hasSalinity items) then NoValidData
      else Chart (if hasTemperature items
                  then "Temperature (" ++ [degree] ++ "C)"
                  else "Salinity (PSU)")
                 (hasTemperature items) (hasSalinity items)
  end.

(** The entries the map component passes: the points of a profile. *)
Definition itemOf (p : ArgoFloatsMap.DepthProfilePoint) : Item :=
  {| depth := VNum (ArgoFloatsMap.dp_depth p);
     temperature := VNum (ArgoFloatsMap.dp_temperature p);
     salinity := VNum (ArgoFloatsMap.dp_salinity p) |}.

End DepthProfileChart.

(** * The heat layer (HeatmapLayer component) *)

Module HeatmapLayer.
Import Js.
Import ArgoFloatsMap.

(** [points.map(point => [point.lat, point.lng, point.value || 1])] *)
Definition heatPoints (points : list HeatPoint) : list (number * number * number) :=
  List.map (fun point =>
              (pt_lat point, pt_lng point, orNumber (pt_value point) (ofZ 1)))
           points.

Definition intensity (p : number * number * number) : number := snd p.

End HeatmapLayer.

(** * The development server (vite.config.js) *)

Module ViteConfig.
Import Js.
Import Regex.

Definition apiPrefix : regex :=                       (* /^\/api/ *)
  seqs [Bol false; text "/api"].

(** [rewrite: (path) => path.replace(/^\/api/, '')] *)
Definition rewrite (path : str) : str := replaceFirst apiPrefix [] path.

End ViteConfig.

(** * Matching, continued: what a match is made of *)

Module Matching.
Import Js.
Import Regex.

(** [within c r]: a match of [r] only consumes characters of the class
    [c]. *)
Fixpoint within (c : ascii -> bool) (r : regex) : bool :=
  match r with
  | Chr p => classWithin p c
  | Seq r1 r2 | Alt r1 r2 => within c r1 && within c r2
  | Star _ r1 | Group _ r1 => within c r1
  | _ => true
  end.

(** No string that a state holds has a character of the class [c]. *)
Definition stateLacks (c : ascii -> bool) (st : mstate) : Prop :=
  lacks c (rest st) = true
  /\ Forall (fun acc => lacks c acc = true) (opens st)
  /\ Forall (fun g => lacks c (snd g) = true) (caps st).

(** A string without a tag: no [<] of it is followed, at any distance,
    by a [>]. *)
Fixpoint tagFree (s : str) : bool :=
  match s with
  | [] => true
  | a :: t =>
      (if Ascii.eqb a "<" then lacks (Ascii.eqb ">") t else true) && tagFree t
  end.

(** A string whose characters of the class [c] stand alone: no two in a
    row; [after] tells that the previous character was one. *)
Fixpoint sparse (c : ascii -> bool) (after : bool) (s : str) : bool :=
  match s with
  | [] => true
  | a :: t =>
      if c a then negb after && sparse c true t else sparse c false t
  end.

(** The characters the rich formatter reads as markup, as an escape or
    as the mark of a list, a header, a link or a key: digits, [<], the
    backslash, the backtick, [*], [#], the opening bracket, the colon
    and the hyphen. *)
Definition richMarkup (a : ascii) : bool :=
  isDigit a
  || memChar a ["<"; App.backslash; "`"; "*"; "#"; "["; ":"; "-"]%char.

End Matching.

(** * Properties *)

Arguments Ascii.eqb : simpl never.
Arguments Js.parseFloatStr : simpl never.
Arguments Js.parseFloat : simpl never.
Arguments Js.numberToString : simpl never.
Arguments Js.toFixed : simpl never.
Arguments Js.ofZ : simpl never.
Arguments Js.add : simpl never.
Arguments Js.sub : simpl never.
Arguments Js.mul : simpl never.
Arguments Js.sqrt : simpl never.
Arguments Js.lt : simpl never.
Arguments Js.le : simpl never.
Arguments Js.gt : simpl never.
Arguments Js.ge : simpl never.
Arguments ArgoFloatsMap.isInIndianOcean : simpl never.
Arguments Regex.mtch : simpl never.
Arguments Regex.starLoop : simpl never.

(** ** Numbers: order facts *)

Module NumberFacts.
Import Js.

Lemma compare_cont_antisym (p q : positive) :
  Pos.compare_cont Eq p q = CompOpp (Pos.compare_cont Eq q p).
Proof. exact (Pos.compare_antisym q p). Qed.

(** [SFcompare] read in the other direction. *)
Lemma SFcompare_antisym (x y : number) :
  SFcompare x y = option_map CompOpp (SFcompare y x).
Proof.
  destruct x as [sx|sx| |sx mx ex], y as [sy|sy| |sy my ey]; simpl;
    try reflexivity;
    try (destruct sx; reflexivity); try (destruct sy; reflexivity);
    try (destruct sx, sy; reflexivity).
  destruct sx, sy; try reflexivity; simpl;
    rewrite (Z.compare_antisym ey ex);
    destruct (ey ?= ex)%Z; simpl; try reflexivity;
    rewrite (compare_cont_antisym mx my);
    destruct (Pos.compare_cont Eq my mx); reflexivity.
Qed.

(** Among Numbers other than NaN, [y <= x] fails exactly when [x < y]. *)
Lemma le_false_lt (x y : number) :
  isNaN x = false -> isNaN y = false -> le y x = false -> lt x y = true.
Proof.
  unfold le, lt, SFleb, SFltb. intros Hx Hy.
  rewrite (SFcompare_antisym x y).
  destruct (SFcompare y x) as [[]|] eqn:E; simpl; try discriminate; auto.
  destruct x, y; simpl in *; discriminate.
Qed.

Lemma lt_le_false (x y : number) : lt x y = true -> le y x = false.
Proof.
  unfold le, lt, SFleb, SFltb. rewrite (SFcompare_antisym x y).
  destruct (SFcompare y x) as [[]|]; simpl; auto; discriminate.
Qed.

Lemma isFinite_not_NaN (x : number) : isFinite x = true -> isNaN x = false.
Proof. destruct x; simpl; auto; discriminate. Qed.

Lemma lt_not_NaN_l (x y : number) : lt x y = true -> isNaN x = false.
Proof. unfold lt, SFltb. destruct x; simpl; auto; discriminate. Qed.

Lemma lt_not_NaN_r (x y : number) : lt x y = true -> isNaN y = false.
Proof. unfold lt, SFltb. destruct x, y; simpl; auto; discriminate. Qed.

Lemma lt_irrefl (x : number) : lt x x = false.
Proof.
  unfold lt, SFltb. destruct x as [s|s| |s m e]; simpl; try reflexivity.
  - destruct s; reflexivity.
  - destruct s; rewrite Z.compare_refl;
      change (Pos.compare_cont Eq m m) with (Pos.compare m m);
      rewrite Pos.compare_refl; reflexivity.
Qed.

(** The comparisons of exponents and mantissas, as order facts. *)
Ltac order_cases :=
  repeat match goal with
         | |- context [(?a ?= ?b)%Z] =>
             destruct (Z.compare_spec a b); simpl
         | H : context [(?a ?= ?b)%Z] |- _ =>
             destruct (Z.compare_spec a b); simpl in H
         | |- context [Pos.compare_cont Eq ?a ?b] =>
             change (Pos.compare_cont Eq a b) with (Pos.compare a b);
             destruct (Pos.compare_spec a b); simpl
         | H : context [Pos.compare_cont Eq ?a ?b] |- _ =>
             change (Pos.compare_cont Eq a b) with (Pos.compare a b) in H;
             destruct (Pos.compare_spec a b); simpl in H
         end;
  subst; try discriminate; try reflexivity; try lia.

Lemma lt_trans (x y z : number) :
  lt x y = true -> lt y z = true -> lt x z = true.
Proof.
  unfold lt, SFltb.
  destruct x as [sx|sx| |sx mx ex], y as [sy|sy| |sy my ey],
    z as [sz|sz| |sz mz ez]; simpl;
    try discriminate; try reflexivity;
    try (destruct sx; simpl; try discriminate; try reflexivity);
    try (destruct sy; simpl; try discriminate; try reflexivity);
    try (destruct sz; simpl; try discriminate; try reflexivity);
    intros H1 H2; order_cases.
Qed.

Lemma lt_le_trans (x y z : number) :
  lt x y = true -> le y z = true -> lt x z = true.
Proof.
  unfold lt, le, SFltb, SFleb.
  destruct x as [sx|sx| |sx mx ex], y as [sy|sy| |sy my ey],
    z as [sz|sz| |sz mz ez]; simpl;
    try discriminate; try reflexivity;
    try (destruct sx; simpl; try discriminate; try reflexivity);
    try (destruct sy; simpl; try discriminate; try reflexivity);
    try (destruct sz; simpl; try discriminate; try reflexivity);
    intros H1 H2; order_cases.
Qed.

(** Only NaN and [+Infinity] are not below [+Infinity]. *)
Lemma not_lt_Infinity (x y : number) :
  lt x Infinity = false -> isFinite y = true -> lt x y = false.
Proof.
  unfold lt, SFltb. destruct x as [s|s| |s m e]; simpl; try discriminate;
    try reflexivity.
  destruct s; [discriminate|]. destruct y; simpl; try discriminate; reflexivity.
Qed.

End NumberFacts.

(** ** Strings *)

Module StringFacts.
Import Js.

Lemma startsWith_app (p s : str) : startsWith p (p ++ s) = true.
Proof.
  induction p as [|a p IH]; simpl; [reflexivity|].
  now rewrite Ascii.eqb_refl, IH.
Qed.

Lemma includes_middle (p pre post : str) : includes p (pre ++ p ++ post) = true.
Proof.
  induction pre as [|a pre IH].
  - destruct p as [|b p]; [destruct post; reflexivity|].
    cbn [app includes]. change (b :: p ++ post) with ((b :: p) ++ post).
    now rewrite startsWith_app.
  - cbn [app includes]. rewrite IH. apply orb_true_r.
Qed.

Lemma join_holds (sep : str) (parts : list str) (x : str) :
  In x parts -> exists pre post, join sep parts = pre ++ x ++ post.
Proof.
  induction parts as [|y parts IH]; [intros []|].
  intros [->|Hin].
  - exists []. destruct parts as [|z parts'].
    + exists []. simpl. now rewrite app_nil_r.
    + exists (sep ++ join sep (z :: parts')). reflexivity.
  - destruct (IH Hin) as (pre & post & E).
    destruct parts as [|z parts']; [destruct Hin|].
    exists (y ++ sep ++ pre), post.
    change (join sep (y :: z :: parts'))
      with (y ++ sep ++ join sep (z :: parts')).
    rewrite E. now rewrite <- !app_assoc.
Qed.

End StringFacts.

(** ** Heat points (C1, C2, C3) *)

Module HeatmapFacts.
Import Js.
Import ArgoFloatsMap.
Import NumberFacts.

Lemma split_go_first (s cur : str) :
  exists more, split_go " " 0 cur s = (rev cur ++ upToFirstSpace s) :: more.
Proof.
  unfold upToFirstSpace.
  revert cur. induction s as [|a t IH]; intros cur; simpl.
  - exists []. now rewrite app_nil_r.
  - rewrite Ascii.eqb_sym. destruct (Ascii.eqb a " "); simpl.
    + eexists. now rewrite app_nil_r.
    + destruct (IH (a :: cur)) as [more E]. exists more.
      simpl in E. rewrite E. now rewrite <- app_assoc.
Qed.

(** [s.split(' ')[0]] is the part of [s] before its first space. *)
Lemma split_first (s : str) :
  exists more, split " " s = upToFirstSpace s :: more.
Proof. exact (split_go_first s []). Qed.

Lemma salinityValue_string (s : str) :
  salinityValue (VStr s) = orNumber (parseFloatStr (upToFirstSpace s)) (ofZ 0).
Proof.
  unfold salinityValue, salinityStr. destruct s as [|a t].
  - reflexivity.
  - cbn [toBoolean ToString].
    destruct (split_first (a :: t)) as [more E]. now rewrite E.
Qed.

Lemma orNumber_NaN (x y : number) : isNaN x = true -> orNumber x y = y.
Proof. destruct x; simpl; try discriminate; reflexivity. Qed.



(** *** Membership in [heatmapData] *)

Lemma in_retained (fl : floats) (r : ArgoFloat) :
  In r (retained fl) <-> In (Some r) fl /\ isInIndianOcean (Some r) = true.
Proof.
  induction fl as [|[f|] fl IH]; simpl.
  - tauto.
  - destruct (isInIndianOcean (Some f)) eqn:E; simpl; rewrite ?IH.
    + split.
      * intros [->|[H1 H2]]; auto.
      * intros [[H|H] H2]; [left; congruence|auto].
    + split.
      * intros [H1 H2]; auto.
      * intros [[H|H] H2]; [|auto]. injection H as ->. congruence.
  - rewrite IH. split.
    + intros [H1 H2]; auto.
    + intros [[H|H] H2]; [discriminate|auto].
Qed.

Lemma in_heatmapData (fl : floats) (active : option heatmap) (p : HeatPoint) :
  In p (heatmapData fl active) <->
  exists r, In (Some r) fl /\ isInIndianOcean (Some r) = true
            /\ p = toHeatPoint active r /\ validPoint p = true.
Proof.
  unfold heatmapData. destruct fl as [|x fl'].
  - simpl. split; [tauto|]. intros (r & [] & _).
  - set (fl := x :: fl'). rewrite filter_In, in_map_iff. split.
    + intros [(r & <- & Hr) Hv]. apply in_retained in Hr as [H1 H2].
      exists r. auto.
    + intros (r & H1 & H2 & -> & Hv). split; [|exact Hv].
      exists r. split; [reflexivity|]. apply in_retained. auto.
Qed.

(** The region test reads a record through its parsed coordinates only. *)
Lemma isInIndianOcean_coords (r r' : ArgoFloat) :
  parseFloat (lat r) = parseFloat (lat r') ->
  parseFloat (lng r) = parseFloat (lng r') ->
  isInIndianOcean (Some r) = isInIndianOcean (Some r').
Proof. unfold isInIndianOcean. intros -> ->. reflexivity. Qed.

Lemma lt_neg_abs (x : number) (m : positive) (e : Z) :
  lt x (S754_finite true m e) = true ->
  gt (abs x) (S754_finite false m e) = true.
Proof.
  unfold lt, gt, SFltb. destruct x as [s|s| |s m' e']; simpl;
    try discriminate; try (destruct s; simpl; auto; discriminate).
  destruct s; simpl; [|discriminate].
  rewrite (Z.compare_antisym e' e). destruct (e' ?= e)%Z; simpl; auto.
  rewrite (compare_cont_antisym m m').
  destruct (Pos.compare_cont Eq m' m); simpl; auto.
Qed.

Lemma gt_pos_abs (x : number) (m : positive) (e : Z) :
  gt x (S754_finite false m e) = true ->
  gt (abs x) (S754_finite false m e) = true.
Proof.
  unfold gt, SFltb. destruct x as [s|s| |s m' e']; simpl;
    try discriminate; try (destruct s; simpl; auto; discriminate).
Qed.

Lemma le_finite (x lo hi : number) :
  isFinite lo = true -> isFinite hi = true ->
  le lo x = true -> le x hi = true -> isFinite x = true.
Proof.
  unfold le, SFleb.
  destruct x as [s|s| |s m e]; simpl; auto;
    destruct lo, hi; simpl; try discriminate; destruct s; discriminate.
Qed.

(** A record the region test keeps is not outside. *)
Lemma inside_not_outside (r : ArgoFloat) :
  isInIndianOcean (Some r) = true -> ~ outside r.
Proof.
  unfold isInIndianOcean, outside.
  set (la := parseFloat (lat r)). set (ln := parseFloat (lng r)).
  destruct (isNaN la || isNaN ln) eqn:En; [discriminate|].
  destruct (gt (abs la) (ofZ 90) || gt (abs ln) (ofZ 180)) eqn:Ea; [discriminate|].
  apply orb_false_elim in Ea as [Ea1 Ea2].
  intros H. apply andb_prop in H as [H Hd]. apply andb_prop in H as [H Hc].
  apply andb_prop in H as [Ha Hb]. unfold ge in *.
  assert (Fa : isFinite la = true)
    by (apply (le_finite la latMin latMax); auto).
  assert (Fn : isFinite ln = true)
    by (apply (le_finite ln lngMin lngMax); auto).
  intros [O|[O|[O|[O|[O|[O|[O|[O|[O|O]]]]]]]]].
  - congruence.
  - congruence.
  - apply lt_neg_abs in O. change (S754_finite false _ _) with (ofZ 90) in O.
    congruence.
  - apply gt_pos_abs in O. change (S754_finite false _ _) with (ofZ 90) in O.
    congruence.
  - apply lt_neg_abs in O. change (S754_finite false _ _) with (ofZ 180) in O.
    congruence.
  - apply gt_pos_abs in O. change (S754_finite false _ _) with (ofZ 180) in O.
    congruence.
  - apply lt_le_false in O. unfold le in *. congruence.
  - apply lt_le_false in O. unfold le in *. congruence.
  - apply lt_le_false in O. unfold le in *. congruence.
  - apply lt_le_false in O. unfold le in *. congruence.
Qed.

(** A record that is outside is dropped by the region test. *)
Lemma outside_rejected (r : ArgoFloat) :
  outside r -> isInIndianOcean (Some r) = false.
Proof.
  unfold isInIndianOcean, outside.
  set (la := parseFloat (lat r)). set (ln := parseFloat (lng r)).
  intros O.
  destruct (isNaN la || isNaN ln) eqn:En; [reflexivity|].
  apply orb_false_elim in En as [Na Nn].
  destruct (gt (abs la) (ofZ 90) || gt (abs ln) (ofZ 180)) eqn:Ea; [reflexivity|].
  apply orb_false_elim in Ea as [Ea1 Ea2].
  destruct O as [O|[O|[O|[O|[O|[O|[O|[O|[O|O]]]]]]]]].
  - destruct la as [| [|] | |]; discriminate.
  - destruct ln as [| [|] | |]; discriminate.
  - apply lt_neg_abs in O. change (S754_finite false _ _) with (ofZ 90) in O.
    congruence.
  - apply gt_pos_abs in O. change (S754_finite false _ _) with (ofZ 90) in O.
    congruence.
  - apply lt_neg_abs in O. change (S754_finite false _ _) with (ofZ 180) in O.
    congruence.
  - apply gt_pos_abs in O. change (S754_finite false _ _) with (ofZ 180) in O.
    congruence.
  - apply lt_le_false in O. unfold ge. unfold le in O. now rewrite O.
  - apply lt_le_false in O. rewrite O. now rewrite andb_false_r.
  - apply lt_le_false in O. unfold ge. unfold le in O. rewrite O.
    now rewrite andb_false_r.
  - apply lt_le_false in O. rewrite O. now rewrite andb_false_r.
Qed.

Lemma heatmapData_pipeline (fl : floats) (active : option heatmap) :
  heatmapData fl active
  = filter validPoint (List.map (toHeatPoint active) (retained fl)).
Proof. destruct fl; reflexivity. Qed.

Lemma retained_app (l1 l2 : floats) :
  retained (l1 ++ l2) = retained l1 ++ retained l2.
Proof.
  induction l1 as [|[f|] l1 IH]; cbn [app retained]; [reflexivity| |exact IH].
  destruct (isInIndianOcean (Some f)); cbn [app]; now rewrite IH.
Qed.

(** C1. A record whose latitude or longitude does not parse to a finite
    Number, or lies outside [-90, 90] x [-180, 180], or lies outside the
    region (latitude in [-30, 30], longitude in [30, 100]) never appears
    in the heat points: whatever the list of floats and the mode, the
    point derived from such a record is not in [heatmapData], and the
    list is the one obtained without the record. *)
Theorem outside_never_in_heatmap
  (activeHeatmap : option heatmap) (r : ArgoFloat) :
  outside r ->
  (forall argoFloats,
     ~ In (toHeatPoint activeHeatmap r) (heatmapData argoFloats activeHeatmap))
  /\ (forall before after,
        heatmapData (before ++ Some r :: after) activeHeatmap
        = heatmapData (before ++ after) activeHeatmap).
Proof.
  intros Hout. split.
  - intros argoFloats Hin.
    apply in_heatmapData in Hin as (r' & _ & Hin' & E & _).
    apply (inside_not_outside r); [|exact Hout].
    rewrite <- Hin'. apply isInIndianOcean_coords.
    + exact (f_equal pt_lat E).
    + exact (f_equal pt_lng E).
  - intros l1 l2. rewrite !heatmapData_pipeline, !retained_app.
    cbn [retained]. now rewrite (outside_rejected r Hout).
Qed.

Lemma outside_never_in_heatmap_witness :
  outside northFloat
  /\ ~ In (toHeatPoint (Some HeatTemperature) northFloat)
          (heatmapData [Some insideFloat; Some northFloat; None]
                       (Some HeatTemperature))
  /\ heatmapData [Some insideFloat; Some northFloat; None] (Some HeatTemperature)
     = heatmapData [Some insideFloat; None] (Some HeatTemperature).
Proof.
  assert (H : outside northFloat).
  { unfold outside. do 7 right. left. vm_compute. reflexivity. }
  split; [exact H|]. split.
  - exact (proj1 (outside_never_in_heatmap (Some HeatTemperature) northFloat H)
             [Some insideFloat; Some northFloat; None]).
  - exact (proj2 (outside_never_in_heatmap (Some HeatTemperature) northFloat H)
             [Some insideFloat] [None]).
Defined.

(** C3, as stated, fails: a retained record whose temperature reads
    "Infinity" yields a heat point whose value is not finite, and the
    point is kept. *)
Lemma infinite_value_kept :
  List.map pt_value (heatmapData [Some hotFloat] (Some HeatTemperature))
  = [Infinity]
  /\ isFinite Infinity = false.
Proof. split; vm_compute; reflexivity. Qed.

(** C3, amended. The [value] of the point derived from a record is the
    point's [temp] when the mode is temperature and its [salinity]
    otherwise; no point of [heatmapData] has a NaN value; and a record
    retained by the coordinate and region filters whose value is not NaN
    (an infinite value included) has its point in [heatmapData]. *)
Theorem heat_value_by_mode :
  (forall (activeHeatmap : option heatmap) (r : ArgoFloat),
     pt_value (toHeatPoint activeHeatmap r)
     = match activeHeatmap with
       | Some HeatTemperature => pt_temp (toHeatPoint activeHeatmap r)
       | _ => pt_salinity (toHeatPoint activeHeatmap r)
       end)
  /\ (forall argoFloats activeHeatmap p,
        In p (heatmapData argoFloats activeHeatmap) ->
        isNaN (pt_value p) = false)
  /\ (forall argoFloats activeHeatmap r,
        In (Some r) argoFloats ->
        isInIndianOcean (Some r) = true ->
        isNaN (pt_value (toHeatPoint activeHeatmap r)) = false ->
        In (toHeatPoint activeHeatmap r) (heatmapData argoFloats activeHeatmap)).
Proof.
  split; [intros [[|]|] r; reflexivity|]. split.
  - intros fl active p Hin.
    apply in_heatmapData in Hin as (r & _ & _ & _ & Hv).
    unfold validPoint in Hv. apply andb_prop in Hv as [Hv _].
    apply andb_prop in Hv as [Hv _]. now apply negb_true_iff in Hv.
  - intros fl active r Hin Hreg Hval. apply in_heatmapData.
    exists r. repeat split; auto.
    unfold validPoint. rewrite Hval. cbn [pt_lat pt_lng toHeatPoint negb andb].
    unfold isInIndianOcean in Hreg.
    destruct (isNaN (parseFloat (lat r)) || isNaN (parseFloat (lng r))) eqn:E;
      [discriminate|].
    apply orb_false_elim in E as [-> ->]. reflexivity.
Qed.

Lemma heat_value_by_mode_witness :
  In (toHeatPoint (Some HeatTemperature) hotFloat)
     (heatmapData [None; Some hotFloat] (Some HeatTemperature))
  /\ isNaN (pt_value (toHeatPoint (Some HeatTemperature) hotFloat)) = false.
Proof.
  assert (H : In (toHeatPoint (Some HeatTemperature) hotFloat)
                 (heatmapData [None; Some hotFloat] (Some HeatTemperature))).
  { apply (proj2 (proj2 heat_value_by_mode)).
    - simpl. right. left. reflexivity.
    - vm_compute. reflexivity.
    - vm_compute. reflexivity. }
  split; [exact H|].
  exact (proj1 (proj2 heat_value_by_mode) _ _ _ H).
Defined.

End HeatmapFacts.

(** ** Nearest-point lookup (C5) *)

Module NearestFacts.
Import Js.
Import ArgoFloatsMap.
Import NumberFacts.

Section Loop.
Variable click : LatLng.
Let dist := distanceTo click.

Lemma loopInv_step seen acc point :
  loopInv click seen acc ->
  loopInv click (seen ++ [point]) (nearestStep click acc point).
Proof.
  unfold loopInv. fold dist.
  intros [Hmin Hacc]. unfold nearestStep. fold (dist point).
  destruct (lt (dist point) (snd acc)) eqn:E.
  - split; cbn [fst snd].
    + intros q Hq. apply in_app_or in Hq as [Hq|[<-|[]]].
      * specialize (Hmin q Hq).
        destruct (lt (dist q) (dist point)) eqn:E'; [|reflexivity].
        rewrite (lt_trans _ _ _ E' E) in Hmin. discriminate.
      * apply lt_irrefl.
    + split; [apply in_or_app; right; left; reflexivity|].
      split; [reflexivity|]. exact (lt_not_NaN_l _ _ E).
  - split.
    + intros q Hq. apply in_app_or in Hq as [Hq|[<-|[]]]; auto.
    + destruct (fst acc) as [p|]; [|exact Hacc].
      destruct Hacc as (Hp & Hd & Hn). split; [|auto].
      apply in_or_app. now left.
Qed.

Lemma loopInv_fold points seen acc :
  loopInv click seen acc ->
  loopInv click (seen ++ points) (fold_left (nearestStep click) points acc).
Proof.
  revert seen acc. induction points as [|point points IH]; intros seen acc H.
  - now rewrite app_nil_r.
  - cbn [fold_left].
    replace (seen ++ point :: points) with ((seen ++ [point]) ++ points)
      by (rewrite <- app_assoc; reflexivity).
    apply IH. now apply loopInv_step.
Qed.

Lemma nearest_inv points : loopInv click points (nearest click points).
Proof.
  apply (loopInv_fold points [] (None, Infinity)).
  split; [intros q []|reflexivity].
Qed.

End Loop.

(** C5, as stated, fails: with the single point one degree away the
    scaled distance is exactly 100, which does not exceed the threshold,
    and the lookup still reports no nearby point. *)
Lemma threshold_distance_not_reported :
  distanceTo clickOneDegreeNorth equatorPoint = ofZ 100
  /\ gt (distanceTo clickOneDegreeNorth equatorPoint) (ofZ 100) = false
  /\ handleMapClick (Some HeatTemperature) true [equatorPoint]
       clickOneDegreeNorth None = None.
Proof. repeat split; vm_compute; reflexivity. Qed.

(** C5, amended. Without an active mode, without the map or without
    heat points the handler leaves the clicked point as it was.
    Otherwise the lookup either reports the value of a point of the set
    whose distance (Euclidean in degrees, times 100, as computed) no
    other point undercuts, that distance being strictly below 100; or it
    reports no nearby point, and then no point of the set lies strictly
    below 100. *)
Theorem nearest_point_lookup
  (activeHeatmap : option heatmap) (map : bool)
  (heatmapData : list HeatPoint) (click : LatLng)
  (clickedPoint : option ClickedPoint) :
  (activeHeatmap = None \/ map = false \/ heatmapData = [] ->
   handleMapClick activeHeatmap map heatmapData click clickedPoint
   = clickedPoint)
  /\
  (forall type,
     activeHeatmap = Some type -> map = true -> heatmapData <> [] ->
     (exists p,
        In p heatmapData
        /\ (forall q, In q heatmapData ->
                      lt (distanceTo click q) (distanceTo click p) = false)
        /\ lt (distanceTo click p) (ofZ 100) = true
        /\ handleMapClick activeHeatmap map heatmapData click clickedPoint
           = Some {| cp_lat := ll_lat click; cp_lng := ll_lng click;
                     cp_value := pt_value p; cp_type := type;
                     cp_distance := distanceText (distanceTo click p) |})
     \/
     ((forall q, In q heatmapData ->
                 lt (distanceTo click q) (ofZ 100) = false)
      /\ handleMapClick activeHeatmap map heatmapData click clickedPoint
         = None)).
Proof.
  split.
  - intros [-> | [-> | ->]]; [reflexivity| |].
    + destruct activeHeatmap; reflexivity.
    + destruct activeHeatmap, map; reflexivity.
  - intros type -> -> Hne.
    destruct heatmapData as [|p0 rest]; [congruence|clear Hne].
    set (points := p0 :: rest).
    change (handleMapClick (Some type) true points click clickedPoint)
      with (match nearest click points with
            | (Some nearestPoint, minDistance) =>
                if lt minDistance (ofZ 100)
                then Some {| cp_lat := ll_lat click; cp_lng := ll_lng click;
                             cp_value := pt_value nearestPoint; cp_type := type;
                             cp_distance := distanceText minDistance |}
                else None
            | (None, _) => None
            end).
    destruct (nearest_inv click points) as [Hmin Hacc].
    destruct (nearest click points) as [[p|] d]; cbn [fst snd] in *.
    + destruct Hacc as (Hin & -> & Hnan).
      destruct (lt (distanceTo click p) (ofZ 100)) eqn:E.
      * left. exists p. auto.
      * right. split; [|reflexivity]. intros q Hq.
        destruct (lt (distanceTo click q) (ofZ 100)) eqn:E'; [|reflexivity].
        assert (L : le (ofZ 100) (distanceTo click p) = true).
        { destruct (le (ofZ 100) (distanceTo click p)) eqn:L; [reflexivity|].
          apply le_false_lt in L; [congruence|exact Hnan|reflexivity]. }
        specialize (Hmin q Hq).
        rewrite (lt_le_trans _ _ _ E' L) in Hmin. discriminate.
    + subst d. right. split; [|reflexivity]. intros q Hq.
      apply not_lt_Infinity; [auto|reflexivity].
Qed.

Lemma nearest_point_lookup_witness :
  handleMapClick None true [equatorPoint] clickNearby None = None
  /\ ((exists p,
         In p [equatorPoint]
         /\ (forall q, In q [equatorPoint] ->
                       lt (distanceTo clickNearby q) (distanceTo clickNearby p)
                       = false)
         /\ lt (distanceTo clickNearby p) (ofZ 100) = true
         /\ handleMapClick (Some HeatSalinity) true [equatorPoint] clickNearby None
            = Some {| cp_lat := ll_lat clickNearby; cp_lng := ll_lng clickNearby;
                      cp_value := pt_value p; cp_type := HeatSalinity;
                      cp_distance := distanceText (distanceTo clickNearby p) |})
      \/
      ((forall q, In q [equatorPoint] ->
                  lt (distanceTo clickNearby q) (ofZ 100) = false)
       /\ handleMapClick (Some HeatSalinity) true [equatorPoint] clickNearby None
          = None)).
Proof.
  split.
  - apply (proj1 (nearest_point_lookup None true [equatorPoint] clickNearby None)).
    left. reflexivity.
  - apply (proj2 (nearest_point_lookup (Some HeatSalinity) true [equatorPoint]
                    clickNearby None) HeatSalinity).
    + reflexivity.
    + reflexivity.
    + discriminate.
Defined.

End NearestFacts.

(** ** Filter parameter mapping (C6, C10) *)

Module FilterFacts.
Import Js.
Import ArgoFloatsMap.
Import FloatFilters.
Import StringFacts.

Lemma emit_field (name : str) (v : option str) (rest : filterParams) :
  queryParams ((name, orUndefined (field v)) :: rest)
  = mappedField name v ++ queryParams rest.
Proof. destruct v as [[|a t]|]; reflexivity. Qed.

Lemma emit_depth (v : option str) (rest : filterParams) :
  queryParams (("depth_max" : str, parsedOrUndefined (field v)) :: rest)
  = mappedDepth v ++ queryParams rest.
Proof. destruct v as [[|a t]|]; reflexivity. Qed.

Lemma submitted_mapped (filters : FilterCriteria) :
  submittedParams filters = mappedParams filters.
Proof.
  unfold submittedParams, handleSubmit, mappedParams.
  rewrite !emit_field, emit_depth, !emit_field. cbn [queryParams].
  now rewrite app_nil_r.
Qed.

Lemma in_mappedField name v key value :
  In (key, value) (mappedField name v) ->
  key = name /\ v = Some value /\ value <> [].
Proof.
  destruct v as [[|a t]|]; simpl; try tauto.
  intros [H|[]]. injection H as <- <-. repeat split. discriminate.
Qed.

Lemma in_mappedDepth v key value :
  In (key, value) (mappedDepth v) ->
  key = ("depth_max" : str) /\ exists s, v = Some s /\ s <> [].
Proof.
  destruct v as [[|a t]|]; simpl; try tauto.
  intros [H|[]]. injection H as <- _. split; [reflexivity|].
  eexists. split; [reflexivity|discriminate].
Qed.

(** C6. The submission renames the UI fields to the backend's names,
    parses [depthMax] to a Number and passes the other fields through as
    strings: the filter object holds, under the backend's names, each
    field's string, the parsed Number for [depthMax], and [undefined]
    for an empty or absent field; the parameters sent are those of
    [mappedParams]; and a parameter is only ever sent for a field that
    holds a non-empty string, never for an empty or absent one. *)
Theorem filter_mapping (filters : FilterCriteria) :
  handleSubmit filters
  = [ ("lat_min" : str, passed (latMin filters));
      ("lat_max" : str, passed (latMax filters));
      ("lon_min" : str, passed (lonMin filters));
      ("lon_max" : str, passed (lonMax filters));
      ("depth_max" : str, parsedDepth (depthMax filters));
      ("start_date" : str, passed (startDate filters));
      ("end_date" : str, passed (endDate filters)) ]
  /\ submittedParams filters = mappedParams filters
  /\ (forall key value,
        In (key, value) (submittedParams filters) ->
        exists s, uiField filters key = Some (Some s) /\ s <> []).
Proof.
  split; [|split; [apply submitted_mapped|]].
  - unfold handleSubmit.
    assert (P : forall v, orUndefined (field v) = passed v)
      by (intros [[|a t]|]; reflexivity).
    assert (D : forall v, parsedOrUndefined (field v) = parsedDepth v)
      by (intros [[|a t]|]; reflexivity).
    now rewrite !P, D.
  - intros key value. rewrite submitted_mapped. unfold mappedParams.
    rewrite !in_app_iff.
    intros [H|[H|[H|[H|[H|[H|H]]]]]];
      try (apply in_mappedField in H as (-> & E & Hne);
           exists value; split; [unfold uiField; cbn; now rewrite E|exact Hne]).
    apply in_mappedDepth in H as (-> & s & E & Hne).
    exists s. split; [unfold uiField; cbn; now rewrite E|exact Hne].
Qed.

Lemma filter_mapping_witness :
  In ("lat_max" : str, "20" : str) (submittedParams sampleFilters)
  /\ exists s, uiField sampleFilters "lat_max" = Some (Some s) /\ s <> [].
Proof.
  assert (H : In ("lat_max" : str, "20" : str) (submittedParams sampleFilters)).
  { vm_compute. left. reflexivity. }
  split; [exact H|].
  exact (proj2 (proj2 (filter_mapping sampleFilters)) _ _ H).
Defined.

(** *** The query string *)

Lemma url_includes (entries : filterParams) (key value : str) :
  In (key, value) (queryParams entries) ->
  includes (formEncode key ++ "=" ++ formEncode value) (apiUrl entries) = true.
Proof.
  intros Hin. unfold apiUrl, serialize.
  set (enc := fun kv : str * str => formEncode (fst kv) ++ "=" ++ formEncode (snd kv)).
  assert (Hx : In (enc (key, value)) (List.map enc (queryParams entries)))
    by now apply in_map.
  destruct (join_holds "&" _ _ Hx) as (pre & post & ->).
  change (formEncode key ++ "=" ++ formEncode value) with (enc (key, value)).
  generalize (enc (key, value)) as x. intros x.
  replace (API_BASE_URL ++ "/api/floats?" ++ pre ++ x ++ post)
    with ((API_BASE_URL ++ "/api/floats?" ++ pre) ++ x ++ post)
    by (now rewrite <- !app_assoc).
  apply includes_middle.
Qed.

(** C10. A [depthMax] that is a non-empty string and does not parse to
    a number is mapped to NaN, which is neither [undefined] nor the
    empty string: the parameter [depth_max=NaN] is sent. *)
Theorem unparsable_depth_sent (filters : FilterCriteria) (s : str) :
  depthMax filters = Some s -> s <> [] ->
  isNaN (parseFloatStr s) = true ->
  In ("depth_max" : str, VNum NaN) (handleSubmit filters)
  /\ In ("depth_max" : str, "NaN" : str) (submittedParams filters)
  /\ includes "depth_max=NaN" (submittedUrl filters) = true.
Proof.
  intros E Hne Hnan.
  assert (P : parseFloatStr s = NaN)
    by (destruct (parseFloatStr s); try discriminate; reflexivity).
  assert (Hin : In ("depth_max" : str, "NaN" : str) (submittedParams filters)).
  { rewrite submitted_mapped. unfold mappedParams. rewrite E.
    destruct s as [|a t]; [congruence|].
    rewrite !in_app_iff. do 4 right. left. cbn [mappedDepth].
    rewrite P. left. reflexivity. }
  split; [|split; [exact Hin|]].
  - unfold handleSubmit. rewrite E. destruct s as [|a t]; [congruence|].
    do 4 right. left. unfold parsedOrUndefined, parseFloat.
    cbn [field toBoolean ToString]. now rewrite P.
  - exact (url_includes _ _ _ Hin).
Qed.

Lemma unparsable_depth_sent_witness :
  In ("depth_max" : str, VNum NaN) (handleSubmit badDepthFilters)
  /\ In ("depth_max" : str, "NaN" : str) (submittedParams badDepthFilters)
  /\ includes "depth_max=NaN" (submittedUrl badDepthFilters) = true.
Proof.
  apply (unparsable_depth_sent badDepthFilters "abc").
  - reflexivity.
  - discriminate.
  - reflexivity.
Defined.

End FilterFacts.

(** ** Synthetic depth profile (C8) *)

Module ProfileFacts.
Import Js.
Import ArgoFloatsMap.

(** The loop counter, checked on the 102 values it takes. *)
Lemma counter_checked : forallb counterOk (seq 0 102) = true.
Proof. vm_compute. reflexivity. Qed.

Lemma finite_eq s m e s' m' e' :
  Bool.eqb s s' && Pos.eqb m m' && Z.eqb e e' = true ->
  S754_finite s m e = S754_finite s' m' e'.
Proof.
  intros H. apply andb_prop in H as [H He]. apply andb_prop in H as [Hs Hm].
  apply Bool.eqb_prop in Hs. apply Pos.eqb_eq in Hm. apply Z.eqb_eq in He.
  congruence.
Qed.

Lemma counter_facts (k : nat) :
  k <= 101 ->
  add (depthAt k) (ofZ 10) = depthAt (S k)
  /\ le (depthAt k) (ofZ 1000) = (k <=? 100)
  /\ lt (depthAt k) (ofZ 200) = (k <? 20)
  /\ (20 <= k -> sub (depthAt k) (ofZ 200) = ofZ (10 * Z.of_nat k - 200)).
Proof.
  intros Hk.
  assert (H : counterOk k = true).
  { pose proof counter_checked as C. rewrite forallb_forall in C.
    apply C. apply in_seq. lia. }
  unfold counterOk in H.
  apply andb_prop in H as [H H5]. apply andb_prop in H as [H H4].
  apply andb_prop in H as [H2 H3].
  repeat split.
  - destruct (add (depthAt k) (ofZ 10)), (depthAt (S k)); try discriminate.
    now apply finite_eq.
  - now apply Bool.eqb_prop.
  - now apply Bool.eqb_prop.
  - intros Hge. destruct (Nat.ltb_spec k 20); [lia|].
    destruct (sub (depthAt k) (ofZ 200)), (ofZ (10 * Z.of_nat k - 200));
      try discriminate.
    + apply Bool.eqb_prop in H5. congruence.
    + now apply finite_eq.
Qed.

(** A turn of the loop builds the point the closed form gives. *)
Lemma profilePoint_at (random : nat -> number) (k : nat) :
  k <= 100 ->
  profilePoint random (baseTemp random) (baseSalinity random) (depthAt k) (2 + 2 * k)
  = profileAt random k.
Proof.
  intros Hk. destruct (counter_facts k) as (_ & _ & Hlt & Hsub); [lia|].
  unfold profilePoint, profileAt, tempJitter, salinityJitter.
  rewrite Hlt. replace (S (2 + 2 * k)) with (3 + 2 * k) by lia.
  destruct (Nat.ltb_spec k 20); [reflexivity|].
  rewrite Hsub by lia. reflexivity.
Qed.

Lemma profileLoop_runs (random : nat -> number) (n : nat) :
  forall k fuel profiles,
    k + n = 101 -> n < fuel ->
    profileLoop fuel random (baseTemp random) (baseSalinity random)
      (depthAt k) (2 + 2 * k) profiles
    = profiles ++ List.map (profileAt random) (seq k n).
Proof.
  induction n as [|n IH]; intros k fuel profiles Hk Hfuel.
  - destruct fuel as [|fuel]; [lia|]. cbn [profileLoop].
    destruct (counter_facts k) as (_ & -> & _); [lia|].
    replace (k <=? 100) with false by (symmetry; apply Nat.leb_gt; lia).
    cbn [seq List.map]. now rewrite app_nil_r.
  - destruct fuel as [|fuel]; [lia|]. cbn [profileLoop].
    destruct (counter_facts k) as (Hadd & -> & _); [lia|].
    replace (k <=? 100) with true by (symmetry; apply Nat.leb_le; lia).
    rewrite Hadd, profilePoint_at by lia.
    replace (2 + (2 + 2 * k)) with (2 + 2 * S k) by lia.
    rewrite IH by lia. cbn [seq List.map]. now rewrite <- app_assoc.
Qed.

(** C8. With fuel for its 101 turns and the closing test, the generator
    returns exactly 101 points, at depths 0, 10, ..., 1000 in order; the
    point of index [k] has as temperature the base value minus 0.02 per
    metre of depth plus the jitter [random * 0.5 - 0.25], and as salinity
    the base value, plus 0.005 per metre beyond 200 m, plus the jitter
    [random * 0.1 - 0.05], each rounded to two decimals. *)
Theorem depth_profile_shape
  (fuel : nat) (random : nat -> number) (floatId : jsval) :
  102 <= fuel ->
  generateDepthProfile fuel random floatId
  = List.map (profileAt random) (seq 0 101)
  /\ List.length (generateDepthProfile fuel random floatId) = 101
  /\ List.map dp_depth (generateDepthProfile fuel random floatId)
     = List.map (fun k => ofZ (10 * Z.of_nat k)) (seq 0 101).
Proof.
  intros Hfuel.
  assert (E : generateDepthProfile fuel random floatId
              = List.map (profileAt random) (seq 0 101)).
  { unfold generateDepthProfile.
    exact (profileLoop_runs random 101 0 fuel [] eq_refl Hfuel). }
  rewrite E. split; [reflexivity|]. split.
  - now rewrite length_map, length_seq.
  - rewrite map_map. reflexivity.
Qed.

Lemma depth_profile_shape_witness :
  generateDepthProfile 102 sampleRandom VUndefined
  = List.map (profileAt sampleRandom) (seq 0 101)
  /\ List.length (generateDepthProfile 102 sampleRandom VUndefined) = 101
  /\ List.map dp_depth (generateDepthProfile 102 sampleRandom VUndefined)
     = List.map (fun k => ofZ (10 * Z.of_nat k)) (seq 0 101).
Proof.
  apply (depth_profile_shape 102 sampleRandom VUndefined). lia.
Defined.

End ProfileFacts.

(** ** Chat send failure (C9) *)

Module ChatFacts.
Import Js.
Import App.

(** C9. When the input is not blank and the request to /ask fails (a
    network error, or a response that is not 2xx), the history grows by
    the user's message followed by exactly one bot message flagged
    [isError] that carries the retry-later text; the user's message is
    the one built before the request; the input is cleared and the
    loading flag is false. *)
Theorem failed_send_appends_error
  (clock : nat -> Z) (fetch : str -> fetchResult) (st : ChatState) :
  trim (inputValue st) <> [] ->
  requestFails (fetch (askUrl (trim (inputValue st)))) ->
  handleSendMessage clock fetch st
  = {| messages := messages st
                   ++ [userMessage clock (trim (inputValue st));
                       errorMessage clock];
       inputValue := [];
       isLoading := false |}
  /\ isError (errorMessage clock) = true
  /\ msg_sender (errorMessage clock) = bot
  /\ msg_text (errorMessage clock) = VStr errorText
  /\ isError (userMessage clock (trim (inputValue st))) = false.
Proof.
  intros Hne Hfail. split; [|repeat split].
  unfold handleSendMessage.
  destruct (trim (inputValue st)) as [|a t] eqn:E; [congruence|].
  assert (F : match fetch (askUrl (a :: t)) with
              | Response true _ (Some reply) =>
                  appendMessage (botMessage clock reply)
                    (setIsLoading true (setInputValue []
                       (appendMessage (userMessage clock (a :: t)) st)))
              | _ => appendMessage (errorMessage clock)
                       (setIsLoading true (setInputValue []
                          (appendMessage (userMessage clock (a :: t)) st)))
              end
              = appendMessage (errorMessage clock)
                  (setIsLoading true (setInputValue []
                     (appendMessage (userMessage clock (a :: t)) st)))).
  { destruct Hfail as [->|(status & body & ->)]; reflexivity. }
  cbv zeta. rewrite F.
  unfold setIsLoading, setInputValue, appendMessage. cbn.
  now rewrite <- app_assoc.
Qed.

Lemma failed_send_appends_error_witness :
  handleSendMessage sampleClock backendDown sampleChat
  = {| messages := [greeting; userMessage sampleClock "hello";
                    errorMessage sampleClock];
       inputValue := [];
       isLoading := false |}.
Proof.
  apply (proj1 (failed_send_appends_error sampleClock backendDown sampleChat
                  ltac:(discriminate) ltac:(left; reflexivity))).
Defined.

End ChatFacts.

(** ** The matcher *)

Module RegexFacts.
Import Js.
Import Regex.

Lemma tailOf_refl (s : str) : tailOf s s.
Proof. now exists []. Qed.

Lemma tailOf_cons (a : ascii) (t : str) : tailOf t (a :: t).
Proof. now exists [a]. Qed.

Lemma tailOf_trans (s1 s2 s3 : str) : tailOf s1 s2 -> tailOf s2 s3 -> tailOf s1 s3.
Proof.
  intros [p1 ->] [p2 ->]. exists (p2 ++ p1). now rewrite app_assoc.
Qed.

Lemma lacks_tail (c : ascii -> bool) (s' s : str) :
  tailOf s' s -> lacks c s = true -> lacks c s' = true.
Proof.
  intros [pre ->]. unfold lacks. rewrite forallb_app.
  intros H. now apply andb_prop in H.
Qed.

(** The equations of the matcher. *)
Lemma mtch_eps k st : mtch Eps k st = k st.
Proof. reflexivity. Qed.

Lemma mtch_chr p k st :
  mtch (Chr p) k st
  = match rest st with
    | a :: t => if p a then k (advance a t st) else None
    | [] => None
    end.
Proof. reflexivity. Qed.

Lemma mtch_seq r1 r2 k st : mtch (Seq r1 r2) k st = mtch r1 (mtch r2 k) st.
Proof. reflexivity. Qed.

Lemma mtch_alt r1 r2 k st :
  mtch (Alt r1 r2) k st = orElse (mtch r1 k st) (fun _ => mtch r2 k st).
Proof. reflexivity. Qed.

Lemma mtch_star g r k st :
  mtch (Star g r) k st = starLoop g (mtch r) k (List.length (rest st)) st.
Proof. reflexivity. Qed.

Lemma mtch_group i r k st :
  mtch (Group i r) k st = mtch r (closeGroup i k) (openGroup st).
Proof. reflexivity. Qed.

Lemma mtch_bol m k st :
  mtch (Bol m) k st = if atLineStart m st then k st else None.
Proof. reflexivity. Qed.

Lemma mtch_eol m k st :
  mtch (Eol m) k st = if atLineEnd m st then k st else None.
Proof. reflexivity. Qed.

Lemma starLoop_0 g body k st : starLoop g body k 0 st = k st.
Proof. reflexivity. Qed.

Lemma starLoop_S g body k fuel st :
  starLoop g body k (S fuel) st
  = let turn (_ : unit) :=
      body (fun st' =>
              if List.length (rest st') <? List.length (rest st)
              then starLoop g body k fuel st' else None) st in
    if g then orElse (turn tt) (fun _ => k st) else orElse (k st) turn.
Proof. reflexivity. Qed.

(** The continuation is the only source of a result. *)
Lemma starLoop_fails greedy body k fuel :
  (forall k' st, (forall st', tailOf (rest st') (rest st) -> k' st' = None) ->
                 body k' st = None) ->
  forall st, (forall st', tailOf (rest st') (rest st) -> k st' = None) ->
             starLoop greedy body k fuel st = None.
Proof.
  intros Hbody. induction fuel as [|fuel IH]; intros st Hk.
  - rewrite starLoop_0. apply Hk, tailOf_refl.
  - rewrite starLoop_S. cbv zeta.
    assert (T : body (fun st' =>
                  if List.length (rest st') <? List.length (rest st)
                  then starLoop greedy body k fuel st' else None) st = None).
    { apply Hbody. intros st' Ht.
      destruct (List.length (rest st') <? List.length (rest st)); [|reflexivity].
      apply IH. intros st'' Ht'. apply Hk. eapply tailOf_trans; eauto. }
    rewrite T, (Hk st (tailOf_refl _)). now destruct greedy.
Qed.

Lemma mtch_fails (r : regex) :
  forall k st, (forall st', tailOf (rest st') (rest st) -> k st' = None) ->
               mtch r k st = None.
Proof.
  induction r as [|p|r1 IH1 r2 IH2|r1 IH1 r2 IH2|g r1 IH1|i r1 IH1|m|m];
    intros k st Hk.
  - rewrite mtch_eps. apply Hk, tailOf_refl.
  - rewrite mtch_chr. destruct (rest st) as [|a t] eqn:E; [reflexivity|].
    destruct (p a); [|reflexivity]. apply Hk. cbn. apply tailOf_cons.
  - rewrite mtch_seq. apply IH1. intros st' Ht. apply IH2. intros st'' Ht'.
    apply Hk. eapply tailOf_trans; eauto.
  - rewrite mtch_alt, IH1 by exact Hk. cbn. now apply IH2.
  - rewrite mtch_star. apply starLoop_fails; [exact IH1|exact Hk].
  - rewrite mtch_group. apply IH1. intros st' Ht. unfold closeGroup.
    destruct (opens st'); [reflexivity|]. apply Hk. exact Ht.
  - rewrite mtch_bol. destruct (atLineStart m st); [|reflexivity].
    apply Hk, tailOf_refl.
  - rewrite mtch_eol. destruct (atLineEnd m st); [|reflexivity].
    apply Hk, tailOf_refl.
Qed.

Lemma allChars_complete (a : ascii) : In a allChars.
Proof.
  unfold allChars. rewrite <- (ascii_nat_embedding a). apply in_map.
  apply in_seq. pose proof (nat_ascii_bounded a). lia.
Qed.

Lemma classWithin_spec (p c : ascii -> bool) :
  classWithin p c = true -> forall a, p a = true -> c a = true.
Proof.
  unfold classWithin. rewrite forallb_forall. intros H a Hp.
  specialize (H a (allChars_complete a)). now rewrite Hp in H.
Qed.

(** A pattern that needs a character the input lacks does not match. *)
Lemma needs_fails (c : ascii -> bool) (r : regex) :
  needs c r = true ->
  forall k st, lacks c (rest st) = true -> mtch r k st = None.
Proof.
  induction r as [|p|r1 IH1 r2 IH2|r1 IH1 r2 IH2|g r1 IH1|i r1 IH1|m|m];
    cbn [needs]; try discriminate; intros Hn k st Hl.
  - rewrite mtch_chr. destruct (rest st) as [|a t] eqn:E; [reflexivity|].
    destruct (p a) eqn:Hp; [|reflexivity].
    apply (classWithin_spec _ _ Hn) in Hp.
    cbn in Hl. now rewrite Hp in Hl.
  - rewrite mtch_seq. apply orb_prop in Hn as [Hn|Hn]; [now apply IH1|].
    apply mtch_fails. intros st' Ht. apply IH2; [exact Hn|].
    eapply lacks_tail; eauto.
  - apply andb_prop in Hn as [Hn1 Hn2].
    rewrite mtch_alt, IH1 by assumption. cbn. now apply IH2.
  - rewrite mtch_group. now apply IH1.
Qed.

Lemma matchAt_lacks (c : ascii -> bool) (r : regex) (b s : str) :
  needs c r = true -> lacks c s = true -> matchAt r b s = None.
Proof.
  intros Hn Hl. unfold matchAt.
  rewrite (needs_fails c (Group 0 r)); [reflexivity|exact Hn|exact Hl].
Qed.

(** *** Replacement where nothing matches *)

Lemma replace_go_none {S : Type} (r : regex) (f : S -> MatchInfo -> S * str) :
  forall s b acc,
    (forall b' s', tailOf s' s -> matchAt r b' s' = None) ->
    replace_go r f 0 b acc s = (acc, s).
Proof.
  induction s as [|a t IH]; intros b acc H; cbn [replace_go].
  - now rewrite (H b [] (tailOf_refl _)).
  - rewrite (H b (a :: t) (tailOf_refl _)).
    rewrite IH; [reflexivity|].
    intros b' s' Ht. apply H. eapply tailOf_trans; [exact Ht|apply tailOf_cons].
Qed.

Lemma replaceAllBy_lacks (c : ascii -> bool) (r : regex)
  (f : MatchInfo -> str) (s : str) :
  needs c r = true -> lacks c s = true -> replaceAllBy r f s = s.
Proof.
  intros Hn Hl. unfold replaceAllBy, replaceAllWith.
  rewrite replace_go_none; [reflexivity|].
  intros b' s' Ht. apply (matchAt_lacks c); [exact Hn|].
  eapply lacks_tail; eauto.
Qed.

Lemma replaceAll_lacks (c : ascii -> bool) (r : regex) (tpl s : str) :
  needs c r = true -> lacks c s = true -> replaceAll r tpl s = s.
Proof. apply replaceAllBy_lacks. Qed.

(** *** Reading a run of characters *)

Lemma advanceRun_spec (run : str) :
  forall st tail,
    rest st = run ++ tail ->
    rest (advanceRun run st) = tail
    /\ opens (advanceRun run st) = List.map (fun acc => rev run ++ acc) (opens st)
    /\ caps (advanceRun run st) = caps st.
Proof.
  induction run as [|a run IH]; intros st tail E; cbn [advanceRun].
  - repeat split; [exact E|]. cbn. now rewrite map_id.
  - rewrite E. cbn [tl app].
    destruct (IH (advance a (run ++ tail) st) tail eq_refl) as (H1 & H2 & H3).
    repeat split; [exact H1| |exact H3].
    rewrite H2. cbn [advance opens]. rewrite map_map.
    apply map_ext. intros acc. cbn. now rewrite <- app_assoc.
Qed.

Lemma take_drop (p : ascii -> bool) (s : str) :
  takeWhile p s ++ dropWhile p s = s.
Proof.
  induction s as [|a t IH]; [reflexivity|]. cbn.
  destruct (p a); [cbn; now rewrite IH|reflexivity].
Qed.

Lemma skipn_takeWhile (p : ascii -> bool) (s : str) :
  skipn (List.length (takeWhile p s)) s = dropWhile p s.
Proof.
  induction s as [|a t IH]; [reflexivity|]. cbn.
  destruct (p a); [exact IH|reflexivity].
Qed.

Lemma length_takeWhile (p : ascii -> bool) (s : str) :
  List.length (takeWhile p s) <= List.length s.
Proof.
  induction s as [|a t IH]; [reflexivity|]. cbn.
  destruct (p a); cbn; lia.
Qed.

(** A greedy star over a character class reads the longest run, when
    the continuation accepts it there. *)
Lemma starLoop_greedy_run (p : ascii -> bool) (k : mstate -> option mstate) :
  forall fuel st x,
    List.length (rest st) <= fuel ->
    k (advanceRun (takeWhile p (rest st)) st) = Some x ->
    starLoop true (mtch (Chr p)) k fuel st = Some x.
Proof.
  induction fuel as [|fuel IH]; intros st x Hlen Hk.
  - rewrite starLoop_0. destruct (rest st); [exact Hk|cbn in Hlen; lia].
  - rewrite starLoop_S. cbv zeta. rewrite mtch_chr.
    destruct (rest st) as [|a t] eqn:E.
    + cbn. exact Hk.
    + cbn [takeWhile] in Hk. destruct (p a) eqn:Hp.
      * cbn [advanceRun] in Hk. rewrite E in Hk. cbn [tl] in Hk.
        cbn [advance rest List.length].
        replace (List.length t <? S (List.length t)) with true
          by (symmetry; apply Nat.ltb_lt; lia).
        rewrite (IH (advance a t st) x); [reflexivity| |exact Hk].
        cbn in *. lia.
      * cbn. exact Hk.
Qed.

(** *** Skipping the characters of a match *)

Lemma replace_go_skip {S : Type} (r : regex) (f : S -> MatchInfo -> S * str) :
  forall s k b acc,
    k <= List.length s ->
    replace_go r f k b acc s
    = replace_go r f 0 (rev (firstn k s) ++ b) acc (skipn k s).
Proof.
  induction s as [|a t IH]; intros k b acc Hk.
  - destruct k; [reflexivity|cbn in Hk; lia].
  - destruct k as [|k]; [reflexivity|].
    cbn [replace_go]. rewrite IH by (cbn in Hk; lia).
    cbn [firstn skipn rev]. now rewrite <- app_assoc.
Qed.

(** *** White-space runs: [/\s+/g] *)

Lemma matchAt_ws_plus (b : str) (a : ascii) (t : str) :
  isWhiteSpace a = true ->
  exists m, matchAt (plus ws) b (a :: t) = Some m
            /\ matched m = a :: takeWhile isWhiteSpace t.
Proof.
  intros Ha. unfold matchAt, plus, ws.
  rewrite mtch_group, mtch_seq, mtch_chr. cbn [openGroup rest].
  rewrite Ha, mtch_star. unfold advance, openGroup.
  cbn [rest opens caps List.map prev].
  set (st1 := {| prev := Some a; rest := t; opens := [[a]]; caps := [] |}).
  destruct (advanceRun_spec (takeWhile isWhiteSpace t) st1
              (dropWhile isWhiteSpace t)) as (H1 & H2 & H3).
  { cbn. now rewrite take_drop. }
  set (st2 := advanceRun (takeWhile isWhiteSpace t) st1) in *.
  assert (K : closeGroup 0 Some st2
              = Some {| prev := prev st2; rest := rest st2; opens := [];
                        caps := [(0, a :: takeWhile isWhiteSpace t)] |}).
  { unfold closeGroup. rewrite H2, H3. cbn [st1 opens caps List.map].
    rewrite rev_app_distr, rev_involutive. reflexivity. }
  rewrite (starLoop_greedy_run isWhiteSpace (closeGroup 0 Some)
             (List.length t) st1 _ (le_n _) K).
  eexists. split; [reflexivity|]. reflexivity.
Qed.

Lemma matchAt_ws_plus_none (b s : str) :
  match s with [] => True | a :: _ => isWhiteSpace a = false end ->
  matchAt (plus ws) b s = None.
Proof.
  intros H. unfold matchAt, plus, ws.
  rewrite mtch_group, mtch_seq, mtch_chr. cbn [openGroup rest].
  destruct s as [|a t]; [reflexivity|]. now rewrite H.
Qed.

Lemma collapse_go_run (t : str) :
  collapse_go true t = collapse_go false (dropWhile isWhiteSpace t).
Proof.
  induction t as [|a t IH]; [reflexivity|]. cbn.
  destruct (isWhiteSpace a) eqn:E; [exact IH|]. cbn. now rewrite E.
Qed.

Lemma replace_spaces_collapse (n : nat) :
  forall s b,
    List.length s <= n ->
    replace_go (plus ws) (fun (_ : unit) m => (tt, expand 0 m " ")) 0 b tt s
    = (tt, collapse s).
Proof.
  induction n as [|n IH]; intros s b Hlen.
  - destruct s; [|cbn in Hlen; lia]. cbn [replace_go].
    now rewrite matchAt_ws_plus_none.
  - destruct s as [|a t].
    + cbn [replace_go]. now rewrite matchAt_ws_plus_none.
    + cbn [replace_go]. unfold collapse. cbn [collapse_go].
      destruct (isWhiteSpace a) eqn:Ha.
      * destruct (matchAt_ws_plus b a t Ha) as (m & -> & Hm).
        rewrite Hm. cbn [List.length].
        rewrite replace_go_skip by apply length_takeWhile.
        rewrite skipn_takeWhile, IH.
        -- rewrite collapse_go_run. reflexivity.
        -- pose proof (length_takeWhile isWhiteSpace t).
           rewrite <- (take_drop isWhiteSpace t) in Hlen.
           cbn in Hlen. rewrite length_app in Hlen. lia.
      * rewrite matchAt_ws_plus_none by exact Ha.
        rewrite IH by (cbn in Hlen; lia). reflexivity.
Qed.

(** [s.replace(/\s+/g, ' ')] replaces each white-space run by a space. *)
Lemma replaceAll_spaces (s : str) :
  replaceAll (plus ws) " " s = collapse s.
Proof.
  unfold replaceAll, replaceAllBy, replaceAllWith.
  change (ngroups (plus ws)) with 0.
  now rewrite (replace_spaces_collapse (List.length s)).
Qed.

(** *** Symbolic runs of the matcher *)

Lemma runPrev_cons (a : ascii) (run : str) (p : option ascii) :
  runPrev (a :: run) p = runPrev run (Some a).
Proof.
  unfold runPrev. cbn [rev]. destruct (rev run); reflexivity.
Qed.

Lemma advanceRun_eq (run : str) :
  forall st tail,
    rest st = run ++ tail ->
    advanceRun run st
    = {| prev := runPrev run (prev st); rest := tail;
         opens := List.map (fun acc => rev run ++ acc) (opens st);
         caps := caps st |}.
Proof.
  induction run as [|a run IH]; intros st tail E.
  - destruct st as [pv rs os cs]. cbn in *. subst rs.
    now rewrite map_id.
  - cbn [advanceRun]. rewrite E. cbn [tl app].
    rewrite (IH (advance a (run ++ tail) st) tail eq_refl).
    cbn [advance prev opens caps]. rewrite runPrev_cons, map_map.
    f_equal. apply map_ext. intros acc. cbn. now rewrite <- app_assoc.
Qed.

(** A literal reads itself. *)
Lemma mtch_text (lit : str) :
  forall st tail k,
    rest st = lit ++ tail ->
    mtch (text lit) k st = k (advanceRun lit st).
Proof.
  induction lit as [|a lit IH]; intros st tail k E.
  - reflexivity.
  - assert (C : mtch (chr a) (fun st' => k (advanceRun lit st')) st
                = k (advanceRun (a :: lit) st)).
    { unfold chr. rewrite mtch_chr, E. cbn [app].
      rewrite Ascii.eqb_refl. cbn [advanceRun]. rewrite E. reflexivity. }
    destruct lit as [|b lit'].
    + exact C.
    + change (text (a :: b :: lit')) with (Seq (chr a) (text (b :: lit'))).
      rewrite mtch_seq. rewrite <- C. unfold chr. rewrite !mtch_chr, E.
      cbn [app]. rewrite Ascii.eqb_refl.
      apply (IH (advance a ((b :: lit') ++ tail) st) tail k). reflexivity.
Qed.

(** A pattern fails where the input does not begin as its matches do. *)
Lemma starts_fails (c : ascii -> bool) (r : regex) :
  starts c r = true ->
  forall k st,
    match rest st with [] => True | a :: _ => c a = false end ->
    mtch r k st = None.
Proof.
  induction r as [|p|r1 IH1 r2 IH2|r1 IH1 r2 IH2|g r1 IH1|i r1 IH1|m|m];
    cbn [starts]; try discriminate; intros Hs k st Hh.
  - rewrite mtch_chr. destruct (rest st) as [|a t]; [reflexivity|].
    destruct (p a) eqn:Hp; [|reflexivity].
    apply (classWithin_spec _ _ Hs) in Hp. congruence.
  - rewrite mtch_seq. now apply IH1.
  - apply andb_prop in Hs as [H1 H2].
    rewrite mtch_alt, IH1 by assumption. cbn. now apply IH2.
  - rewrite mtch_group. now apply IH1.
Qed.

Lemma matchAt_starts (c : ascii -> bool) (r : regex) (b s : str) :
  starts c r = true ->
  match s with [] => True | a :: _ => c a = false end ->
  matchAt r b s = None.
Proof.
  intros Hs Hh. unfold matchAt.
  rewrite (starts_fails c (Group 0 r)); [reflexivity|exact Hs|exact Hh].
Qed.

(** *** Scanning past a prefix without match *)

Lemma replace_go_pass {S : Type} (r : regex) (f : S -> MatchInfo -> S * str)
  (suffix : str) :
  forall pre b acc,
    unmatched r b pre suffix ->
    replace_go r f 0 b acc (pre ++ suffix)
    = (fst (replace_go r f 0 (rev pre ++ b) acc suffix),
       pre ++ snd (replace_go r f 0 (rev pre ++ b) acc suffix)).
Proof.
  induction pre as [|a pre IH]; intros b acc H.
  - cbn. now destruct (replace_go r f 0 b acc suffix).
  - destruct H as [H1 H2]. cbn [app replace_go].
    change (a :: pre ++ suffix) with ((a :: pre) ++ suffix). rewrite H1.
    rewrite (IH (a :: b) acc H2). cbn [rev]. rewrite <- app_assoc. reflexivity.
Qed.

(** Where matches must begin with a character the prefix lacks. *)
Lemma unmatched_lacks (c : ascii -> bool) (r : regex) (suffix : str) :
  starts c r = true ->
  forall pre b, lacks c pre = true -> unmatched r b pre suffix.
Proof.
  intros Hs. induction pre as [|a pre IH]; intros b Hl; [exact I|].
  cbn in Hl. apply andb_prop in Hl as [Ha Hl]. split.
  - apply (matchAt_starts c); [exact Hs|]. cbn. now apply negb_true_iff.
  - now apply IH.
Qed.

Lemma unmatched_app (r : regex) (p1 p2 suffix : str) :
  forall b,
    unmatched r b p1 (p2 ++ suffix) ->
    unmatched r (rev p1 ++ b) p2 suffix ->
    unmatched r b (p1 ++ p2) suffix.
Proof.
  induction p1 as [|a p1 IH]; intros b H1 H2; [exact H2|].
  destruct H1 as [Ha H1]. cbn [app unmatched]. split.
  - rewrite <- app_assoc. exact Ha.
  - apply IH; [exact H1|]. cbn [rev] in H2. now rewrite <- app_assoc in H2.
Qed.

(** *** Replacing a match *)

Lemma firstn_length_app (s t : str) : firstn (List.length s) (s ++ t) = s.
Proof. induction s as [|a s IH]; [reflexivity|]. cbn. now rewrite IH. Qed.

Lemma skipn_length_app (s t : str) : skipn (List.length s) (s ++ t) = t.
Proof. induction s as [|a s IH]; [reflexivity|]. exact IH. Qed.

Lemma replace_go_match {S : Type} (r : regex) (f : S -> MatchInfo -> S * str)
  (b : str) (acc : S) (M tail : str) (m : MatchInfo) :
  matchAt r b (M ++ tail) = Some m -> matched m = M -> M <> [] ->
  replace_go r f 0 b acc (M ++ tail)
  = (fst (replace_go r f 0 (rev M ++ b) (fst (f acc m)) tail),
     snd (f acc m) ++ snd (replace_go r f 0 (rev M ++ b) (fst (f acc m)) tail)).
Proof.
  intros Hm HM Hne. destruct M as [|a M']; [congruence|].
  cbn [app replace_go]. change (a :: M' ++ tail) with ((a :: M') ++ tail).
  rewrite Hm. destruct (f acc m) as [acc1 out]. rewrite HM. cbn [List.length fst snd].
  rewrite replace_go_skip by (rewrite length_app; lia).
  rewrite firstn_length_app, skipn_length_app. cbn [rev].
  rewrite <- app_assoc. cbn [app].
  now destruct (replace_go r f 0 (rev M' ++ a :: b) acc1 tail).
Qed.

(** *** Lazy stars *)

Lemma starLoop_lazy_stop body k fuel st x :
  k st = Some x -> starLoop false body k fuel st = Some x.
Proof.
  intros H. destruct fuel; [exact H|]. rewrite starLoop_S. cbv zeta.
  now rewrite H.
Qed.

Lemma starLoop_lazy_pass (p : ascii -> bool) (k : mstate -> option mstate) :
  forall run fuel st tail,
    rest st = run ++ tail ->
    List.length (rest st) <= fuel ->
    passes k p run st ->
    starLoop false (mtch (Chr p)) k fuel st
    = starLoop false (mtch (Chr p)) k (fuel - List.length run)
        (advanceRun run st).
Proof.
  induction run as [|a run IH]; intros fuel st tail E Hlen Hp.
  - cbn. now rewrite Nat.sub_0_r.
  - destruct Hp as (Hk & Ha & Hp).
    destruct fuel as [|fuel]; [rewrite E in Hlen; cbn in Hlen; lia|].
    rewrite starLoop_S. cbv zeta. rewrite Hk. cbn [orElse].
    rewrite mtch_chr, E. cbn [app]. rewrite Ha.
    rewrite E in Hp. cbn [tl app] in Hp.
    cbn [advance rest List.length].
    replace (List.length (run ++ tail) <? S (List.length (run ++ tail)))
      with true by (symmetry; apply Nat.ltb_lt; lia).
    rewrite (IH fuel (advance a (run ++ tail) st) tail eq_refl);
      [|rewrite E in Hlen; cbn in *; lia|exact Hp].
    cbn [advanceRun List.length Nat.sub]. rewrite E. reflexivity.
Qed.

Lemma starLoop_lazy_pass_len (p : ascii -> bool) (k : mstate -> option mstate)
  (run tail : str) (st : mstate) :
  rest st = run ++ tail ->
  passes k p run st ->
  starLoop false (mtch (Chr p)) k (List.length (run ++ tail)) st
  = starLoop false (mtch (Chr p)) k (List.length tail) (advanceRun run st).
Proof.
  intros E H.
  rewrite (starLoop_lazy_pass p k run _ st tail E); [|rewrite E; apply le_n|exact H].
  rewrite length_app. f_equal. lia.
Qed.

Lemma passes_lacks (c p : ascii -> bool) (k : mstate -> option mstate) :
  (forall st, match rest st with [] => True | a :: _ => c a = false end ->
              k st = None) ->
  forall run st tail,
    rest st = run ++ tail -> lacks c run = true -> forallb p run = true ->
    passes k p run st.
Proof.
  intros Hk. induction run as [|a run IH]; intros st tail E Hl Hp; [exact I|].
  cbn in Hl, Hp. apply andb_prop in Hl as [Ha Hl]. apply andb_prop in Hp as [Hpa Hp].
  repeat split; [|exact Hpa|].
  - apply Hk. rewrite E. cbn. now apply negb_true_iff.
  - rewrite E. cbn [tl app]. now apply (IH _ tail).
Qed.

Lemma passes_app (k : mstate -> option mstate) (p : ascii -> bool) (r1 r2 : str) :
  forall st tail,
    rest st = r1 ++ r2 ++ tail ->
    passes k p r1 st -> passes k p r2 (advanceRun r1 st) ->
    passes k p (r1 ++ r2) st.
Proof.
  induction r1 as [|a r1 IH]; intros st tail E H1 H2; [exact H2|].
  destruct H1 as (Hk & Ha & H1). cbn [app passes]. repeat split; auto.
  rewrite E in *. cbn [tl app] in *.
  apply (IH _ tail); [reflexivity|exact H1|].
  cbn [advanceRun] in H2. rewrite E in H2. exact H2.
Qed.

End RegexFacts.

(** ** Plain-text formatter (C4) *)

Module CleanTextFacts.
Import Js.
Import Regex.
Import App.
Import RegexFacts.


(** *** Collapsed texts *)

Lemma spaced_collapse (b : bool) (s : str) :
  spaced_go b (collapse_go b s) = true.
Proof.
  revert b. induction s as [|a t IH]; intros b; [reflexivity|].
  cbn [collapse_go]. destruct (isWhiteSpace a) eqn:E.
  - destruct b; [apply IH|]. cbn [spaced_go].
    change (isWhiteSpace " ") with true. cbn. apply IH.
  - cbn [spaced_go]. rewrite E. apply IH.
Qed.

Lemma collapse_spaced (b : bool) (s : str) :
  spaced_go b s = true -> collapse_go b s = s.
Proof.
  revert b. induction s as [|a t IH]; intros b H; [reflexivity|].
  cbn [spaced_go collapse_go] in *. destruct (isWhiteSpace a).
  - apply andb_prop in H as [H H3]. apply andb_prop in H as [H1 H2].
    apply Ascii.eqb_eq in H1. subst a. destruct b; [discriminate|].
    now rewrite IH.
  - now rewrite IH.
Qed.

Lemma spaced_weaken (s : str) : spaced_go true s = true -> spaced_go false s = true.
Proof.
  destruct s as [|a t]; [reflexivity|]. cbn [spaced_go].
  destruct (isWhiteSpace a); [|auto].
  rewrite andb_false_r. discriminate.
Qed.

Lemma spaced_trimStart (b : bool) (s : str) :
  spaced_go b s = true -> spaced_go false (trimStart s) = true.
Proof.
  unfold trimStart. revert b. induction s as [|a t IH]; intros b H; [reflexivity|].
  cbn [dropWhile]. destruct (isWhiteSpace a) eqn:E.
  - cbn [spaced_go] in H. rewrite E in H.
    apply andb_prop in H as [_ H]. now apply (IH true).
  - cbn [spaced_go] in *. now rewrite E in *.
Qed.

Lemma spaced_trimEnd (b : bool) (s : str) :
  spaced_go b s = true -> spaced_go b (trimEnd s) = true.
Proof.
  revert b. induction s as [|a t IH]; intros b H; [reflexivity|].
  cbn [trimEnd]. cbn [spaced_go] in H.
  destruct (isWhiteSpace a) eqn:E.
  - apply andb_prop in H as [H12 H3]. specialize (IH true H3).
    destruct (trimEnd t) as [|c t']; [reflexivity|].
    cbn [spaced_go]. rewrite E, H12. exact IH.
  - specialize (IH false H).
    destruct (trimEnd t) as [|c t'].
    + cbn [spaced_go]. now rewrite E.
    + cbn [spaced_go]. now rewrite E.
Qed.

Lemma trimEnd_idem (s : str) : trimEnd (trimEnd s) = trimEnd s.
Proof.
  induction s as [|a t IH]; [reflexivity|]. cbn [trimEnd].
  destruct (trimEnd t) as [|c t'] eqn:E.
  - destruct (isWhiteSpace a) eqn:Ha; [reflexivity|].
    cbn [trimEnd]. now rewrite Ha.
  - cbn [trimEnd]. cbn [trimEnd] in IH. now rewrite IH.
Qed.

Lemma trimEnd_head (a : ascii) (t : str) :
  isWhiteSpace a = false -> exists t', trimEnd (a :: t) = a :: t'.
Proof.
  intros Ha. cbn [trimEnd]. destruct (trimEnd t); rewrite ?Ha; eauto.
Qed.

Lemma trimStart_head (s : str) :
  match trimStart s with
  | [] => True
  | a :: _ => isWhiteSpace a = false
  end.
Proof.
  unfold trimStart. induction s as [|a t IH]; [exact I|]. cbn [dropWhile].
  destruct (isWhiteSpace a) eqn:E; [exact IH|exact E].
Qed.

Lemma trim_idem (s : str) : trim (trim s) = trim s.
Proof.
  unfold trim. pose proof (trimStart_head s) as H.
  destruct (trimStart s) as [|a t]; [reflexivity|].
  destruct (trimEnd_head a t H) as [t' E]. rewrite E.
  unfold trimStart at 1. cbn [dropWhile]. rewrite H.
  rewrite <- E. apply trimEnd_idem.
Qed.

(** *** Characters are not invented *)

Lemma lacks_collapse (c : ascii -> bool) (b : bool) (s : str) :
  c " "%char = false -> lacks c s = true -> lacks c (collapse_go b s) = true.
Proof.
  intros Hc. revert b. unfold lacks.
  induction s as [|a t IH]; intros b H; [reflexivity|].
  cbn [forallb] in H. apply andb_prop in H as [Ha Ht].
  cbn [collapse_go]. destruct (isWhiteSpace a).
  - destruct b; [now apply IH|]. cbn [forallb]. rewrite Hc. cbn. now apply IH.
  - cbn [forallb]. rewrite Ha. cbn. now apply IH.
Qed.

Lemma lacks_trimStart (c : ascii -> bool) (s : str) :
  lacks c s = true -> lacks c (trimStart s) = true.
Proof.
  unfold lacks, trimStart. induction s as [|a t IH]; intros H; [reflexivity|].
  cbn [dropWhile]. destruct (isWhiteSpace a); [|exact H].
  cbn [forallb] in H. apply andb_prop in H as [_ H]. now apply IH.
Qed.

Lemma lacks_trimEnd (c : ascii -> bool) (s : str) :
  lacks c s = true -> lacks c (trimEnd s) = true.
Proof.
  unfold lacks. induction s as [|a t IH]; intros H; [reflexivity|].
  cbn [forallb] in H. apply andb_prop in H as [Ha Ht]. specialize (IH Ht).
  cbn [trimEnd]. destruct (trimEnd t) as [|c' t'].
  - destruct (isWhiteSpace a); [reflexivity|]. cbn. now rewrite Ha.
  - cbn [forallb] in *. now rewrite Ha, IH.
Qed.

Lemma lacks_tidy (c : ascii -> bool) (s : str) :
  c " "%char = false -> lacks c s = true -> lacks c (trim (collapse s)) = true.
Proof.
  intros Hc H. unfold trim, collapse.
  now apply lacks_trimEnd, lacks_trimStart, lacks_collapse.
Qed.

(** *** The chain on a text without markup *)

Lemma cleanChain_markupFree (s : str) :
  markupFree s -> cleanChain s = trim (collapse s).
Proof.
  intros [Hm Hd]. unfold cleanChain.
  rewrite (replaceAll_lacks markupChar stripTags) by (exact Hm || reflexivity).
  rewrite (replaceAll_lacks markupChar stripHashes) by (exact Hm || reflexivity).
  rewrite (replaceAll_lacks markupChar stripStars) by (exact Hm || reflexivity).
  rewrite (replaceAll_lacks markupChar stripDashes) by (exact Hm || reflexivity).
  assert (N : replaceAll stripNumbering [] s = s).
  { destruct Hd as [Hd|Hd].
    - apply (replaceAll_lacks isDigit); [reflexivity|exact Hd].
    - apply (replaceAll_lacks fullStop); [reflexivity|exact Hd]. }
  rewrite N. change spaces with (plus ws). rewrite replaceAll_spaces.
  assert (Hc : lacks markupChar (collapse s) = true)
    by (apply lacks_collapse; [reflexivity|exact Hm]).
  rewrite (replaceAll_lacks markupChar stripRules) by (exact Hc || reflexivity).
  rewrite (replaceAll_lacks markupChar stripFences) by (exact Hc || reflexivity).
  rewrite (replaceAll_lacks markupChar inlineCode) by (exact Hc || reflexivity).
  rewrite (replaceAll_lacks markupChar linkText) by (exact Hc || reflexivity).
  rewrite (replaceAll_lacks markupChar stripImages) by (exact Hc || reflexivity).
  reflexivity.
Qed.

Lemma textContent_markupFree (s : str) :
  lacks markupChar s = true -> textContent s = Some s.
Proof.
  intros H. unfold textContent.
  replace (forallb plainChar s) with true; [reflexivity|].
  symmetry. unfold lacks in H. rewrite forallb_forall in *.
  intros a Ha. specialize (H a Ha). unfold plainChar, markupChar in *.
  unfold memChar in *. cbn [existsb] in *.
  apply negb_true_iff in H. apply negb_true_iff.
  repeat (apply orb_false_elim in H as [? H]).
  repeat (apply orb_false_intro; auto).
Qed.

Lemma cleanText_markupFree (s : str) :
  markupFree s -> cleanText s = Some (trim (collapse s)).
Proof.
  intros H. unfold cleanText. destruct s as [|a t]; [reflexivity|].
  rewrite textContent_markupFree by apply H.
  now rewrite cleanChain_markupFree.
Qed.

Lemma markupFree_tidy (s : str) : markupFree s -> markupFree (trim (collapse s)).
Proof.
  intros [Hm Hd]. split; [now apply lacks_tidy|].
  destruct Hd as [Hd|Hd]; [left|right]; now apply lacks_tidy.
Qed.

Lemma tidy_fixed (s : str) :
  trim (collapse (trim (collapse s))) = trim (collapse s).
Proof.
  assert (H : spaced_go false (trim (collapse s)) = true).
  { unfold trim. apply spaced_trimEnd, (spaced_trimStart false).
    apply spaced_collapse. }
  unfold collapse at 1. rewrite (collapse_spaced false _ H). apply trim_idem.
Qed.



End CleanTextFacts.

(** ** Rich formatter (C7) *)

Module FormatFacts.
Import Js.
Import Regex.
Import App.
Import RegexFacts.


(** *** Classes of characters *)

Lemma lacks_sub (c c' : ascii -> bool) (s : str) :
  classWithin c' c = true -> lacks c s = true -> lacks c' s = true.
Proof.
  intros Hw. unfold lacks. rewrite !forallb_forall. intros H a Ha.
  specialize (H a Ha). destruct (c' a) eqn:E; [|reflexivity].
  apply (classWithin_spec _ _ Hw) in E. now rewrite E in H.
Qed.

Lemma lacks_app (c : ascii -> bool) (s t : str) :
  lacks c s = true -> lacks c t = true -> lacks c (s ++ t) = true.
Proof. unfold lacks. rewrite forallb_app. now intros -> ->. Qed.

(** *** White-space runs: [/\s{2,}/g] *)

Lemma matchAt_spaceRun_none (b s : str) :
  match s with
  | a :: c :: _ => isWhiteSpace a && isWhiteSpace c = false
  | _ => True
  end ->
  matchAt spaceRun b s = None.
Proof.
  intros H. unfold matchAt, spaceRun. cbn [atLeast]. unfold ws.
  rewrite mtch_group, mtch_seq, mtch_chr. cbn [openGroup rest].
  destruct s as [|a [|c t]]; [reflexivity| |].
  - destruct (isWhiteSpace a); [|reflexivity]. now rewrite mtch_seq, mtch_chr.
  - destruct (isWhiteSpace a); [|reflexivity]. rewrite mtch_seq, mtch_chr.
    cbn [advance rest]. cbn in H. now rewrite H.
Qed.

Lemma replace_spaceRun_lone {S : Type} (f : S -> MatchInfo -> S * str) :
  forall s fl b acc,
    loneSpace_go fl s = true -> replace_go spaceRun f 0 b acc s = (acc, s).
Proof.
  induction s as [|a t IH]; intros fl b acc H; cbn [replace_go].
  - now rewrite matchAt_spaceRun_none.
  - rewrite matchAt_spaceRun_none.
    + cbn [loneSpace_go] in H. destruct (isWhiteSpace a).
      * apply andb_prop in H as [_ H]. now rewrite (IH true).
      * now rewrite (IH false).
    + destruct t as [|c t']; [exact I|]. cbn [loneSpace_go] in H.
      destruct (isWhiteSpace a); [|reflexivity].
      apply andb_prop in H as [_ H]. cbn [loneSpace_go] in H.
      destruct (isWhiteSpace c); [discriminate|reflexivity].
Qed.

Lemma loneSpace_plain (t : str) (fl : bool) :
  lacks isWhiteSpace t = true -> loneSpace_go fl t = true.
Proof.
  revert fl. induction t as [|a t IH]; intros fl H; [reflexivity|].
  cbn in H. apply andb_prop in H as [Ha H]. apply negb_true_iff in Ha.
  cbn [loneSpace_go]. rewrite Ha. now apply IH.
Qed.

Lemma loneSpace_app (s t : str) (fl : bool) :
  lacks isWhiteSpace t = true ->
  loneSpace_go fl s = true -> loneSpace_go fl (s ++ t) = true.
Proof.
  intros Ht. revert fl. induction s as [|a s IH]; intros fl H.
  - now apply loneSpace_plain.
  - cbn [app loneSpace_go] in *. destruct (isWhiteSpace a).
    + apply andb_prop in H as [H1 H2]. rewrite H1. now apply IH.
    + now apply IH.
Qed.

Section Code.
Variable code : str.
Hypothesis Hcode : lacks codeMarkup code = true.
Hypothesis Hlone : loneSpaces code = true.

Lemma code_lacks (c : ascii -> bool) :
  classWithin c codeMarkup = true -> lacks c code = true.
Proof. intros H. exact (lacks_sub codeMarkup c code H Hcode). Qed.

(** *** Initial cleaning leaves the fenced block as it is *)

Lemma fenced_lacks (c : ascii -> bool) :
  classWithin c codeMarkup = true -> c "`"%char = false ->
  lacks c (fenced code) = true.
Proof.
  intros Hw Hb. unfold fenced. apply lacks_app; [|apply lacks_app].
  - cbn. now rewrite Hb.
  - now apply code_lacks.
  - cbn. now rewrite Hb.
Qed.

Lemma trimEnd_last (s : str) (a : ascii) :
  isWhiteSpace a = false -> trimEnd (s ++ [a]) = s ++ [a].
Proof.
  intros Ha. induction s as [|b s IH]; cbn [app trimEnd].
  - now rewrite Ha.
  - rewrite IH. destruct s; reflexivity.
Qed.

Lemma trim_fenced : trim (fenced code) = fenced code.
Proof.
  unfold trim, fenced.
  change (trimStart ("```" ++ code ++ "```")) with ("```" ++ code ++ "```").
  change ("```" ++ code ++ "```") with ("```" ++ code ++ "``" ++ ["`"%char]).
  rewrite !app_assoc. now apply trimEnd_last.
Qed.

Lemma spaceRun_fenced : replaceAll spaceRun " " (fenced code) = fenced code.
Proof.
  unfold replaceAll, replaceAllBy, replaceAllWith.
  rewrite (replace_spaceRun_lone _ _ false); [reflexivity|].
  unfold fenced. change (loneSpace_go false ("```" ++ code ++ "```"))
    with (loneSpace_go false (code ++ "```")).
  apply loneSpace_app; [reflexivity|exact Hlone].
Qed.

Lemma initialCleaning_fenced : initialCleaning (fenced code) = fenced code.
Proof.
  unfold initialCleaning.
  rewrite (replaceAll_lacks (Ascii.eqb "<") htmlTag)
    by (reflexivity || (apply fenced_lacks; reflexivity)).
  rewrite (replaceAll_lacks (Ascii.eqb backslash) escapedQuote)
    by (reflexivity || (apply fenced_lacks; reflexivity)).
  rewrite (replaceAll_lacks (Ascii.eqb backslash) escapedBackslash)
    by (reflexivity || (apply fenced_lacks; reflexivity)).
  rewrite (replaceAll_lacks (Ascii.eqb backslash) escapedNewline)
    by (reflexivity || (apply fenced_lacks; reflexivity)).
  rewrite (replaceAll_lacks (Ascii.eqb backslash) escapedTab)
    by (reflexivity || (apply fenced_lacks; reflexivity)).
  rewrite spaceRun_fenced. apply trim_fenced.
Qed.

(** *** The fence pattern reads the whole block *)

Lemma rest_not_backtick_fails (i : nat) (k : mstate -> option mstate) (st : mstate) :
  match rest st with [] => True | a :: _ => Ascii.eqb "`" a = false end ->
  closeGroup i (mtch (text "```") k) st = None.
Proof.
  intros H. unfold closeGroup. destruct (opens st); [reflexivity|].
  apply (starts_fails (Ascii.eqb "`")); [reflexivity|exact H].
Qed.

Lemma matchAt_fence (b : str) :
  matchAt fence b (fenced code)
  = Some {| matched := fenced code;
            groups := [(0, fenced code); (1, code)];
            before := rev b; after := [] |}.
Proof.
  unfold matchAt, fence, fenced. cbn [seqs].
  rewrite mtch_group, mtch_seq.
  rewrite (mtch_text "```" _ (code ++ "```")) by reflexivity.
  rewrite (advanceRun_eq "```" _ (code ++ "```")) by reflexivity.
  unfold lazyStar, anyChar. rewrite mtch_seq, mtch_group, mtch_star.
  unfold openGroup. cbn [prev rest opens caps List.map runPrev rev app list_ascii_of_string].
  match goal with |- context [starLoop false _ ?k0 _ ?s0] => set (k := k0); set (st1 := s0) end.
  rewrite (starLoop_lazy_pass (fun _ => true) k code _ st1 ["`"; "`"; "`"]%char);
    [|reflexivity|apply le_n| ].
  2:{ apply (passes_lacks (Ascii.eqb "`") _ k) with (tail := ["`"; "`"; "`"]%char).
      - intros st H. apply rest_not_backtick_fails. exact H.
      - reflexivity.
      - apply code_lacks. reflexivity.
      - apply forallb_forall. reflexivity. }
  rewrite (advanceRun_eq code st1 ["`"; "`"; "`"]%char) by reflexivity.
  cbn [st1 prev rest opens caps List.map].
  erewrite starLoop_lazy_stop.
  2:{ unfold k, closeGroup. cbn [opens prev rest caps].
      rewrite (mtch_text ["`"; "`"; "`"]%char _ []) by reflexivity.
      rewrite (advanceRun_eq ["`"; "`"; "`"]%char _ []) by reflexivity.
      cbn [opens prev rest caps List.map]. reflexivity. }
  cbn [caps find fst snd Nat.eqb rest].
  rewrite app_nil_r, !rev_app_distr, !rev_involutive. cbn [rev app].
  reflexivity.
Qed.

(** The fence replacement stores the inner text and leaves the
    placeholder of index 0. *)
Lemma extract_fenced :
  extractCodeBlocks (fenced code) = ([code], placeholder 0).
Proof.
  unfold extractCodeBlocks, replaceAllWith.
  change (fenced code) with ("`"%char :: ("``" ++ code ++ "```")) at 1.
  cbn [replace_go].
  change ("`"%char :: ("``" ++ code ++ "```")) with (fenced code).
  rewrite matchAt_fence.
  cbn [pushCodeBlock group groups find fst snd Nat.eqb app List.length Nat.sub matched].
  change (List.length (fenced code)) with (S (List.length ("``" ++ code ++ "```"))).
  cbv iota. rewrite replace_go_skip by apply le_n.
  rewrite skipn_all. cbn [replace_go].
  change (matchAt fence _ []) with (@None MatchInfo).
  cbv iota beta. now rewrite app_nil_r.
Qed.

(** *** From the placeholder to the restored block *)

(** The steps between extraction and restoration wrap the placeholder
    in a paragraph. *)
Lemma placeholder_paragraph :
  replaceAllBy nakedUrl urlAnchor
    (replaceAllBy markdownLink linkAnchor
       (processParagraphs (replaceAllBy urlRegex wrapUrl (placeholder 0))))
  = paragraphOf (placeholder 0).
Proof. vm_compute. reflexivity. Qed.

(** A replacement string without [$] stands for itself. *)
Lemma expand_plain (n : nat) (m : MatchInfo) (s t : str) :
  lacks (fun a => Ascii.eqb a "$") s = true ->
  expand n m (s ++ t) = s ++ expand n m t.
Proof.
  induction s as [|a s IH]; intros H; [reflexivity|].
  cbn in H. apply andb_prop in H as [Ha H]. apply negb_true_iff in Ha.
  cbn [app expand]. rewrite Ha. now rewrite IH.
Qed.

Lemma restore_fenced :
  restoreCodeBlocks 0 [code] (paragraphOf (placeholder 0))
  = paragraphOf (codeBlockHtml code).
Proof.
  cbn [restoreCodeBlocks]. unfold replaceStr.
  change (indexOf_go (placeholder 0) [] (paragraphOf (placeholder 0)))
    with (Some (paragraphOpen, list_ascii_of_string "</p>")).
  cbv iota beta.
  change (codeBlockHtml code) with (codeOpen ++ code ++ "</code></pre>").
  rewrite expand_plain by reflexivity.
  rewrite expand_plain by (apply code_lacks; reflexivity).
  rewrite (expand_plain _ _ "</code></pre>" []) by reflexivity.
  reflexivity.
Qed.

(** *** After the restoration *)

(** The restored text: an opening part, the code, a closing part. *)
Lemma restored_shape :
  paragraphOf (codeBlockHtml code)
  = (paragraphOpen ++ codeOpen) ++ code ++ "</code></pre></p>".
Proof.
  unfold paragraphOf.
  change (codeBlockHtml code) with (codeOpen ++ code ++ "</code></pre>").
  now rewrite <- !app_assoc.
Qed.

Lemma restored_lacks (c : ascii -> bool) :
  classWithin c codeMarkup = true ->
  lacks c ((paragraphOpen ++ codeOpen) ++ "</code></pre></p>") = true ->
  lacks c (paragraphOf (codeBlockHtml code)) = true.
Proof.
  intros Hw H. rewrite restored_shape. unfold lacks in *.
  rewrite forallb_app in *. apply andb_prop in H as [H1 H2].
  rewrite H1. cbn [andb]. rewrite forallb_app, H2, andb_true_r.
  now apply code_lacks.
Qed.

(** A pattern whose matches begin with [<] and that matches nowhere in
    the fixed parts leaves the restored text as it is. *)
Lemma seam_unchanged (r : regex) (tpl : str) :
  starts (Ascii.eqb "<") r = true ->
  unmatched r [] (paragraphOpen ++ codeOpen) (code ++ "</code></pre></p>") ->
  (forall b, replace_go r (fun (_ : unit) m => (tt, expand (ngroups r) m tpl))
               0 b tt "</code></pre></p>"
             = (tt, list_ascii_of_string "</code></pre></p>")) ->
  replaceAll r tpl (paragraphOf (codeBlockHtml code))
  = paragraphOf (codeBlockHtml code).
Proof.
  intros Hs Hp Hq. rewrite restored_shape.
  unfold replaceAll, replaceAllBy, replaceAllWith.
  rewrite app_assoc, replace_go_pass.
  - rewrite Hq. reflexivity.
  - apply unmatched_app; [exact Hp|].
    apply (unmatched_lacks (Ascii.eqb "<")); [exact Hs|].
    apply code_lacks. reflexivity.
Qed.

Ltac scan_fixed :=
  cbn [unmatched app paragraphOpen codeOpen];
  repeat (split; [vm_compute; reflexivity|]); exact I.

Lemma blockSeam_unchanged :
  replaceAll blockSeam ("</$1>" ++ [newline] ++ "<$2") (paragraphOf (codeBlockHtml code))
  = paragraphOf (codeBlockHtml code).
Proof.
  apply seam_unchanged; [reflexivity|scan_fixed|].
  intros b. vm_compute. reflexivity.
Qed.

Lemma itemSeam_unchanged :
  replaceAll itemSeam "</$1><$2" (paragraphOf (codeBlockHtml code))
  = paragraphOf (codeBlockHtml code).
Proof.
  apply seam_unchanged; [reflexivity|scan_fixed|].
  intros b. vm_compute. reflexivity.
Qed.

Lemma headerEnd_unchanged :
  replaceAll headerEnd ("</$1>" ++ [newline]) (paragraphOf (codeBlockHtml code))
  = paragraphOf (codeBlockHtml code).
Proof.
  apply seam_unchanged; [reflexivity|scan_fixed|].
  intros b. vm_compute. reflexivity.
Qed.

(** *** The [pre] pattern reads the restored block *)

Lemma closeGroup_text_fails (c : ascii -> bool) (lit : str) (i : nat)
  (k : mstate -> option mstate) (st : mstate) :
  starts c (text lit) = true ->
  match rest st with [] => True | a :: _ => c a = false end ->
  closeGroup i (mtch (text lit) k) st = None.
Proof.
  intros Hs H. unfold closeGroup. destruct (opens st); [reflexivity|].
  now apply (starts_fails c).
Qed.

Lemma matchAt_preBlock (b tail : str) :
  matchAt preBlock b (codeBlockHtml code ++ tail)
  = Some {| matched := codeBlockHtml code;
            groups := [(0, codeBlockHtml code);
                       (1, "<code>" ++ code ++ "</code>")];
            before := rev b; after := tail |}.
Proof.
  set (attrs := firstn 19 (skipn 4 codeOpen)).
  assert (E : codeBlockHtml code ++ tail
              = "<pre" ++ attrs ++ ">" ++ "<code>" ++ code
                ++ "</code></pre>" ++ tail).
  { change (codeBlockHtml code) with (codeOpen ++ code ++ "</code></pre>").
    rewrite <- !app_assoc. reflexivity. }
  rewrite E. clear E.
  unfold matchAt, preBlock. cbn [seqs].
  rewrite mtch_group, mtch_seq.
  rewrite (mtch_text "<pre" _
             (attrs ++ ">" ++ "<code>" ++ code ++ "</code></pre>" ++ tail))
    by reflexivity.
  rewrite (advanceRun_eq "<pre" _
             (attrs ++ ">" ++ "<code>" ++ code ++ "</code></pre>" ++ tail))
    by reflexivity.
  unfold openGroup.
  cbn [prev rest opens caps List.map runPrev rev app list_ascii_of_string].
  unfold star, noneOf. rewrite mtch_seq, mtch_star.
  match goal with |- context [starLoop true (mtch (Chr ?p0)) ?k0 _ ?s0] => set (p := p0); set (k := k0); set (st1 := s0) end.
  erewrite (starLoop_greedy_run p k (List.length (rest st1)) st1); [ | apply le_n | ].
  2:{ replace (takeWhile p (rest st1)) with attrs by reflexivity.
      rewrite (advanceRun_eq attrs st1 (">" ++ "<code>" ++ code ++ "</code></pre>" ++ tail)) by reflexivity.
      unfold k. rewrite mtch_seq. change (chr ">") with (text [">"%char]).
      rewrite (mtch_text [">"%char] _ ("<code>" ++ code ++ "</code></pre>" ++ tail)) by reflexivity.
      rewrite (advanceRun_eq [">"%char] _ ("<code>" ++ code ++ "</code></pre>" ++ tail)) by reflexivity.
      rewrite mtch_seq, mtch_group. unfold lazyStar, anyChar. rewrite mtch_star.
      unfold openGroup. cbn [st1 prev rest opens caps List.map].
      match goal with |- context [starLoop false (mtch (Chr ?p0)) ?k0 _ ?s0] => set (any := p0); set (k2 := k0); set (st3 := s0) end.
      change (List.length ("<code>" ++ code ++ "</code></pre>" ++ tail))
        with (List.length ("<code>" ++ (code ++ "</code></pre>" ++ tail))).
      rewrite (starLoop_lazy_pass_len any k2 "<code>" (code ++ "</code></pre>" ++ tail) st3 eq_refl).
      2:{ cbn [passes list_ascii_of_string]. repeat (split; [vm_compute; reflexivity|]). exact I. }
      rewrite (advanceRun_eq "<code>" st3 (code ++ "</code></pre>" ++ tail)) by reflexivity.
      cbn [st3 prev rest opens caps List.map].
      match goal with |- context [starLoop false _ _ _ ?s0] => set (st4 := s0) end.
      change (List.length (code ++ "</code></pre>" ++ tail))
        with (List.length (code ++ ("</code>" ++ "</pre>" ++ tail))).
      rewrite (starLoop_lazy_pass_len any k2 code ("</code>" ++ "</pre>" ++ tail) st4 eq_refl).
      2:{ apply (passes_lacks (Ascii.eqb "<") any k2) with (tail := "</code>" ++ "</pre>" ++ tail).
          - intros st H. apply (closeGroup_text_fails (Ascii.eqb "<")); [reflexivity|exact H].
          - reflexivity.
          - apply code_lacks. reflexivity.
          - apply forallb_forall. reflexivity. }
      rewrite (advanceRun_eq code st4 ("</code>" ++ "</pre>" ++ tail)) by reflexivity.
      cbn [st4 prev rest opens caps List.map].
      match goal with |- context [starLoop false _ _ _ ?s0] => set (st5 := s0) end.
      rewrite (starLoop_lazy_pass_len any k2 "</code>" ("</pre>" ++ tail) st5 eq_refl).
      2:{ cbn [passes list_ascii_of_string]. repeat (split; [vm_compute; reflexivity|]). exact I. }
      rewrite (advanceRun_eq "</code>" st5 ("</pre>" ++ tail)) by reflexivity.
      cbn [st5 prev rest opens caps List.map].
      erewrite starLoop_lazy_stop.
      2:{ unfold k2, closeGroup. cbn [opens prev rest caps].
          rewrite (mtch_text "</pre>" _ tail) by reflexivity.
          rewrite (advanceRun_eq "</pre>" _ tail) by reflexivity.
          cbn [opens prev rest caps List.map]. reflexivity. }
      reflexivity. }
  cbn [caps find fst snd Nat.eqb rest].
  rewrite app_nil_r, !rev_app_distr, !rev_involutive.
  change (codeBlockHtml code) with (codeOpen ++ code ++ "</code></pre>").
  rewrite <- !app_assoc. reflexivity.
Qed.

Lemma codeBlock_lacks (c : ascii -> bool) :
  classWithin c codeMarkup = true ->
  lacks c (codeOpen ++ "</code></pre>") = true ->
  lacks c (codeBlockHtml code) = true.
Proof.
  intros Hw H. change (codeBlockHtml code) with (codeOpen ++ code ++ "</code></pre>").
  unfold lacks in *. rewrite forallb_app in *. apply andb_prop in H as [H1 H2].
  rewrite H1. cbn [andb]. rewrite forallb_app, H2, andb_true_r.
  now apply code_lacks.
Qed.

Lemma preBlock_unchanged :
  replaceAllBy preBlock breakLines (paragraphOf (codeBlockHtml code))
  = paragraphOf (codeBlockHtml code).
Proof.
  unfold paragraphOf, replaceAllBy, replaceAllWith.
  rewrite replace_go_pass by scan_fixed.
  rewrite (replace_go_match _ _ _ _ (codeBlockHtml code) "</p>" _
             (matchAt_preBlock _ "</p>") eq_refl) by discriminate.
  cbn [fst snd].
  change (replace_go preBlock _ 0 _ tt "</p>")
    with (tt, list_ascii_of_string "</p>").
  cbn [fst snd]. unfold breakLines. cbn [matched].
  rewrite (replaceAll_lacks (Ascii.eqb newline))
    by (reflexivity || (apply codeBlock_lacks; reflexivity)).
  reflexivity.
Qed.

(** Nothing after the restoration touches the restored text. *)
Lemma afterRestore_fenced :
  afterRestore (paragraphOf (codeBlockHtml code)) = paragraphOf (codeBlockHtml code).
Proof.
  unfold afterRestore.
  rewrite (replaceAll_lacks (Ascii.eqb "#") header1)
    by (reflexivity || (apply restored_lacks; reflexivity)).
  rewrite (replaceAll_lacks (Ascii.eqb "#") header2)
    by (reflexivity || (apply restored_lacks; reflexivity)).
  rewrite (replaceAll_lacks (Ascii.eqb "*") bold)
    by (reflexivity || (apply restored_lacks; reflexivity)).
  rewrite (replaceAll_lacks (Ascii.eqb "*") italic)
    by (reflexivity || (apply restored_lacks; reflexivity)).
  rewrite (replaceAll_lacks (Ascii.eqb "`") backticks)
    by (reflexivity || (apply restored_lacks; reflexivity)).
  rewrite blockSeam_unchanged, itemSeam_unchanged, headerEnd_unchanged.
  apply preBlock_unchanged.
Qed.

(** The formatter on a fenced block of plain code. *)
Lemma formatMessageText_fenced :
  formatMessageText (fenced code) = paragraphOf (codeBlockHtml code).
Proof.
  unfold formatMessageText.
  change (fenced code) with ("`"%char :: ("``" ++ code ++ "```")) at 1.
  cbv iota.
  rewrite initialCleaning_fenced.
  rewrite extract_fenced.
  rewrite placeholder_paragraph, restore_fenced.
  apply afterRestore_fenced.
Qed.

End Code.



End FormatFacts.

(** * Further properties of the components *)

(** ** Percent-encoding of requests *)

Module EncodingFacts.
Import Js.
Import ArgoFloatsMap.
Import RegexFacts.

Local Abbreviation uriChar :=
  (fun a : ascii =>
     if isAlphaNum a || memChar a "-_.!~*'()" then [a] else percentEncode a).

Local Abbreviation formChar :=
  (fun a : ascii =>
     if isAlphaNum a || memChar a "*-._" then [a]
     else if Ascii.eqb a " " then ["+"%char]
     else percentEncode a).

Lemma app_prefix (u v x y : str) :
  u ++ x = v ++ y -> startsWith u v = true \/ startsWith v u = true.
Proof.
  revert v. induction u as [|a u IH]; intros [|b v] H; cbn [startsWith];
    try (now left); try (now right).
  cbn [app] in H. injection H as -> H. rewrite Ascii.eqb_refl. cbn [andb].
  exact (IH v H).
Qed.

Lemma uriChar_prefix_free :
  (fun table : list (ascii * str) =>
     forallb (fun p =>
       forallb (fun q => implb (startsWith (snd p) (snd q))
                               (Ascii.eqb (fst p) (fst q))) table) table)
    (List.map (fun a => (a, uriChar a)) Regex.allChars) = true.
Proof. vm_compute. reflexivity. Qed.

Lemma uriChar_prefix (a b : ascii) :
  startsWith (uriChar a) (uriChar b) = true -> a = b.
Proof.
  intros S. pose proof uriChar_prefix_free as P. cbn beta in P.
  rewrite forallb_forall in P.
  specialize (P (a, uriChar a)
                (in_map (fun a => (a, uriChar a)) _ _ (allChars_complete a))).
  rewrite forallb_forall in P.
  specialize (P (b, uriChar b)
                (in_map (fun a => (a, uriChar a)) _ _ (allChars_complete b))).
  cbn [fst snd] in P. cbn beta in S. rewrite S in P.
  now apply Ascii.eqb_eq.
Qed.

Lemma uriChar_inj (a b : ascii) (x y : str) :
  uriChar a ++ x = uriChar b ++ y -> a = b.
Proof.
  intros H. destruct (app_prefix _ _ _ _ H) as [S|S].
  - now apply uriChar_prefix.
  - symmetry. now apply uriChar_prefix.
Qed.

Lemma uriChar_nonempty (a : ascii) (x : str) : uriChar a ++ x <> [].
Proof.
  cbn beta. destruct (isAlphaNum a || memChar a "-_.!~*'()"); [cbn; discriminate|].
  unfold percentEncode, percent.
  destruct (code a <? 128); cbn; discriminate.
Qed.

Lemma encodeURIComponent_inj (s t : str) :
  encodeURIComponent s = encodeURIComponent t -> s = t.
Proof.
  unfold encodeURIComponent. revert t.
  induction s as [|a s IH]; intros [|b t] H; cbn [flat_map] in H.
  - reflexivity.
  - symmetry in H. now apply uriChar_nonempty in H.
  - now apply uriChar_nonempty in H.
  - pose proof (uriChar_inj _ _ _ _ H) as ->.
    apply app_inv_head in H. now rewrite (IH t H).
Qed.

Lemma lacks_flat_map (c : ascii -> bool) (f : ascii -> str) (s : str) :
  forallb (fun a => Regex.lacks c (f a)) Regex.allChars = true ->
  Regex.lacks c (flat_map f s) = true.
Proof.
  intros H. rewrite forallb_forall in H.
  induction s as [|a s IH]; [reflexivity|].
  cbn [flat_map]. unfold Regex.lacks in *. rewrite forallb_app, IH.
  now rewrite (H a (allChars_complete a)).
Qed.

(** X1. The question is the only thing a chat request varies on, and it
    is encoded without loss: none of the characters that delimit a URL
    or its query occurs in the encoded question, and two questions give
    the same request URL only when they are the same. *)
Theorem ask_url_faithful :
  (forall messageText,
     Regex.lacks (fun a => memChar a "&=#?+/ ")
                 (encodeURIComponent messageText) = true)
  /\ (forall q1 q2, App.askUrl q1 = App.askUrl q2 <-> q1 = q2).
Proof.
  split.
  - intros s. apply lacks_flat_map. vm_compute. reflexivity.
  - intros q1 q2. split; [|now intros ->].
    unfold App.askUrl. intros H.
    apply app_inv_head in H. apply app_inv_head in H.
    now apply encodeURIComponent_inj.
Qed.

Lemma count_lacks (c : ascii -> bool) (x : ascii) (s : str) :
  c x = true -> Regex.lacks c s = true -> count_occ ascii_dec s x = 0.
Proof.
  intros Hc. induction s as [|a s IH]; [reflexivity|].
  unfold Regex.lacks in *. cbn [forallb]. intros H.
  apply andb_prop in H as [Ha Hs]. cbn [count_occ].
  destruct (ascii_dec a x) as [->|_]; [now rewrite Hc in Ha|now apply IH].
Qed.

Lemma count_app (x : ascii) (s t : str) :
  count_occ ascii_dec (s ++ t) x = count_occ ascii_dec s x + count_occ ascii_dec t x.
Proof. apply count_occ_app. Qed.

Lemma formEncode_lacks (s : str) :
  Regex.lacks (fun a => memChar a "&=") (formEncode s) = true.
Proof. apply lacks_flat_map. vm_compute. reflexivity. Qed.

Lemma formEncode_count (x : ascii) (s : str) :
  memChar x "&=" = true -> count_occ ascii_dec (formEncode s) x = 0.
Proof.
  intros H. apply (count_lacks (fun a => memChar a "&=")); [exact H|].
  apply formEncode_lacks.
Qed.

(** X2. In the query string of the floats request the separators only
    separate: it holds one [=] for each parameter sent and one [&]
    between two parameters, whatever the keys and values contain. *)
Theorem query_separators (params : list (str * str)) :
  count_occ ascii_dec (serialize params) "="%char = List.length params
  /\ count_occ ascii_dec (serialize params) "&"%char = List.length params - 1.
Proof.
  unfold serialize.
  induction params as [|[k v] [|p ps] IH].
  - split; reflexivity.
  - cbn [List.map join fst snd List.length]. rewrite !count_app.
    rewrite !formEncode_count by reflexivity. split; reflexivity.
  - destruct IH as [IH1 IH2].
    change (join "&" (List.map ?f ((k, v) :: p :: ps)))
      with (f (k, v) ++ "&" ++ join "&" (List.map f (p :: ps))).
    cbn [fst snd]. rewrite !count_app, IH1, IH2.
    rewrite !formEncode_count by reflexivity.
    cbn [List.length]. split; cbn; lia.
Qed.

End EncodingFacts.

(** ** The map page: toggle, markers, loading, dialog *)

Module MapFacts.
Import Js.
Import ArgoFloatsMap.
Import MapPage.

(** X3. Pressing the button of a heatmap twice restores the start when
    the heatmap was off or showed that type, and ends with the heatmap
    off when it showed the other type (the first press switches to the
    type pressed); and once a press has switched the heatmap off, a
    click on the map leaves the clicked point as it was. *)
Theorem toggle_heatmap_twice (activeHeatmap : option heatmap) (type : heatmap) :
  toggleHeatmap (toggleHeatmap activeHeatmap type) type
  = match activeHeatmap with
    | Some active => if heatmap_eqb active type then activeHeatmap else None
    | None => None
    end
  /\ (forall other, heatmap_eqb other type = false ->
        toggleHeatmap (Some other) type = Some type)
  /\ (forall map heatmapData click clickedPoint,
        handleMapClick (toggleHeatmap (Some type) type) map heatmapData click
                       clickedPoint = clickedPoint).
Proof.
  split; [|split].
  - destruct activeHeatmap as [[|]|], type; reflexivity.
  - intros other H. unfold toggleHeatmap. now rewrite H.
  - intros. destruct type; reflexivity.
Qed.

Lemma abs_le_bound (x : number) (m : positive) (e : Z) :
  isNaN x = false ->
  gt (abs x) (S754_finite false m e) = false ->
  le (abs x) (S754_finite false m e) = true.
Proof.
  intros N H. unfold gt, le, SFltb, SFleb in *.
  rewrite NumberFacts.SFcompare_antisym in H.
  destruct x as [s| | |s mx ex]; try discriminate; cbn in *; [reflexivity|].
  destruct (match (ex ?= e)%Z with
            | Eq => Pos.compare_cont Eq mx m
            | Lt => Lt
            | Gt => Gt
            end); cbn in H; try reflexivity; discriminate.
Qed.

Lemma retained_visible (r : ArgoFloat) :
  isInIndianOcean (Some r) = true -> markerVisible r = true.
Proof.
  unfold isInIndianOcean, markerVisible.
  destruct (isNaN (parseFloat (lat r))) eqn:N1; [discriminate|].
  destruct (isNaN (parseFloat (lng r))) eqn:N2; [discriminate|].
  cbn [orb negb andb].
  destruct (gt (abs (parseFloat (lat r))) (ofZ 90)) eqn:G1; [discriminate|].
  destruct (gt (abs (parseFloat (lng r))) (ofZ 180)) eqn:G2; [discriminate|].
  intros _.
  change (ofZ 90) with (S754_finite false 6333186975989760 (-46)) in *.
  change (ofZ 180) with (S754_finite false 6333186975989760 (-45)) in *.
  rewrite (abs_le_bound _ _ _ N1 G1), (abs_le_bound _ _ _ N2 G2). reflexivity.
Qed.

Lemma markers_null (fl : floats) : In None fl <-> markers fl = None.
Proof.
  induction fl as [|[f|] fl IH]; cbn [markers In].
  - split; [intros []|discriminate].
  - destruct (markers fl).
    + split; [intros [H|H]; [discriminate|]|discriminate].
      now apply IH in H.
    + split; [reflexivity|]. intros _. right. now apply IH.
  - split; [reflexivity|]. intros _. now left.
Qed.

Lemma in_markers (fl : floats) :
  forall shown r,
    markers fl = Some shown ->
    (In r shown <-> In (Some r) fl /\ markerVisible r = true).
Proof.
  induction fl as [|[f|] fl IH]; cbn [markers]; intros shown r H.
  - injection H as <-. cbn. tauto.
  - destruct (markers fl) as [shown'|]; [|discriminate].
    injection H as <-. specialize (IH shown' r eq_refl).
    destruct (markerVisible f) eqn:V; cbn [In]; rewrite IH; split.
    + intros [->|[H1 H2]]; [split; [now left|exact V]|split; [now right|exact H2]].
    + intros [[H1|H1] H2]; [left; congruence|right; now split].
    + intros [H1 H2]. split; [now right|exact H2].
    + intros [[H1|H1] H2]; [|now split].
      injection H1 as ->. congruence.
  - discriminate.
Qed.

(** X4. The markers cover the heat points: when the marker list can be
    built, every float the heatmap filter retains is drawn as a marker,
    and a float north of the region is drawn as a marker without being
    retained.  The marker list cannot be built (its filter throws)
    exactly when the array holds a [null], an entry the heatmap filter
    skips. *)
Theorem markers_cover_heat_points (argoFloats : floats) :
  (In None argoFloats <-> markers argoFloats = None)
  /\ (forall shown r,
        markers argoFloats = Some shown ->
        In r (retained argoFloats) -> In r shown)
  /\ markers [Some northFloat] = Some [northFloat]
  /\ retained [Some northFloat] = [].
Proof.
  split; [apply markers_null|]. split; [|split; vm_compute; reflexivity].
  intros shown r H Hin.
  apply HeatmapFacts.in_retained in Hin as [Hin Hr].
  apply (in_markers _ _ _ H). split; [exact Hin|].
  now apply retained_visible.
Qed.

Lemma markers_cover_heat_points_witness :
  In insideFloat [insideFloat].
Proof.
  apply (proj1 (proj2 (markers_cover_heat_points [Some insideFloat]))
           [insideFloat] insideFloat).
  - vm_compute. reflexivity.
  - vm_compute. left. reflexivity.
Defined.

Ltac fetch_cases host fetch map params st :=
  unfold fetchArgoFloats, handleFilterChange;
  destruct (fetch (apiUrl params)) as [message|[|] status [message|data]];
  try destruct (detailOf host _) as [detail|message];
  try destruct (map && (0 <? List.length _));
  try destruct (positions _) as [ps|];
  try destruct (fitBounds host _) as [message'|].

Lemma fetch_facts (host : Host) (fetch : str -> fetchResult) (map : bool)
  (filterParams : filterParams) (st : MapState) :
  let st' := fst (fetchArgoFloats host fetch map filterParams st) in
  isLoading st' = false
  /\ filters st' = filters st
  /\ match snd (fetchArgoFloats host fetch map filterParams st) with
     | Returned formattedData => error st' = None
     | Thrown message => error st' = Some (loadError message)
     end.
Proof.
  fetch_cases host fetch map filterParams st; cbn; repeat split; reflexivity.
Qed.

(** X5. However the request ends, [fetchArgoFloats] leaves the loading
    and filtering flags off and touches neither the filters nor the
    dialog; when it returns, the error is cleared and the floats are the
    data returned; when it throws, the error banner holds the message
    thrown. *)
Theorem load_settles (host : Host) (fetch : str -> fetchResult) (map : bool)
  (filterParams : filterParams) (st : MapState) :
  let st' := fst (fetchArgoFloats host fetch map filterParams st) in
  isLoading st' = false
  /\ isFiltering st' = false
  /\ filters st' = filters st
  /\ selectedFloat st' = selectedFloat st
  /\ depthProfileData st' = depthProfileData st
  /\ isProfileDialogOpen st' = isProfileDialogOpen st
  /\ match snd (fetchArgoFloats host fetch map filterParams st) with
     | Returned formattedData =>
         error st' = None /\ argoFloats st' = formattedData
     | Thrown message => error st' = Some (loadError message)
     end.
Proof.
  unfold fetchArgoFloats.
  destruct (fetch (apiUrl filterParams)) as [message|[|] status [message|data]].
  - cbn. repeat split; reflexivity.
  - cbn. repeat split; reflexivity.
  - destruct (map && (0 <? List.length _)).
    + destruct (positions _) as [ps|]; [|cbn; repeat split; reflexivity].
      destruct (fitBounds host ps); cbn; repeat split; reflexivity.
    + cbn. repeat split; reflexivity.
  - destruct (detailOf host _); cbn; repeat split; reflexivity.
  - destruct (detailOf host _); cbn; repeat split; reflexivity.
Qed.

(** The request failed before a body could be used: [fetch] rejected,
    the response was not ok, or its body could not be read. *)
Lemma failed_cases (r : fetchResult) :
  (exists message, r = Rejected message)
  \/ (exists status body, r = Response false status body)
  \/ (exists status message, r = Response true status (BodyError message))
  \/ (exists status data, r = Response true status (Body data)).
Proof.
  destruct r as [message|[|] status [message|data]]; eauto 6.
Qed.

(** X6. A load that fails before a body is in hand (the request is
    rejected, the response is not ok, or the body of an ok response
    cannot be read) keeps the floats that were shown and throws, with
    the error banner set. *)
Theorem failed_load_keeps_floats (host : Host) (fetch : str -> fetchResult)
  (map : bool) (filterParams : filterParams) (st : MapState) :
  (forall status data,
     fetch (apiUrl filterParams) <> Response true status (Body data)) ->
  argoFloats (fst (fetchArgoFloats host fetch map filterParams st))
  = argoFloats st
  /\ exists message,
       snd (fetchArgoFloats host fetch map filterParams st) = Thrown message
       /\ error (fst (fetchArgoFloats host fetch map filterParams st))
          = Some (loadError message).
Proof.
  intros H. unfold fetchArgoFloats.
  destruct (fetch (apiUrl filterParams)) as [message|[|] status [message|data]].
  - cbn. eauto.
  - cbn. eauto.
  - now destruct (H status data).
  - destruct (detailOf host _) as [detail|message']; cbn; eauto.
  - destruct (detailOf host _) as [detail|message']; cbn; eauto.
Qed.

Lemma failed_load_keeps_floats_witness :
  argoFloats (fst (fetchArgoFloats quietHost serverDown true [] startState))
  = [Some insideFloat]
  /\ exists message,
       snd (fetchArgoFloats quietHost serverDown true [] startState)
       = Thrown message
       /\ error (fst (fetchArgoFloats quietHost serverDown true [] startState))
          = Some (loadError message).
Proof.
  apply (failed_load_keeps_floats quietHost serverDown true [] startState).
  intros status data. discriminate.
Defined.

(** X7. An ok response whose body is not an array (an object, [null] or
    a primitive) empties the float list: the call returns the empty
    list and sets no error, with or without a map. *)
Theorem non_array_body_empties_floats (host : Host) (fetch : str -> fetchResult)
  (map : bool) (filterParams : filterParams) (st : MapState)
  (status : Z) (data : json) :
  fetch (apiUrl filterParams) = Response true status (Body data) ->
  (forall items, data <> JArray items) ->
  fetchArgoFloats host fetch map filterParams st
  = (settle (setArgoFloats [] (setError None (setIsLoading true st))),
     Returned [])
  /\ argoFloats (fst (fetchArgoFloats host fetch map filterParams st)) = []
  /\ error (fst (fetchArgoFloats host fetch map filterParams st)) = None.
Proof.
  intros E H. unfold fetchArgoFloats. rewrite E.
  destruct data as [|items| |]; try (now destruct (H items));
    rewrite andb_false_r; cbn; repeat split; reflexivity.
Qed.

Lemma non_array_body_empties_floats_witness :
  argoFloats (fst (fetchArgoFloats quietHost serverSendsObject true [] startState))
  = []
  /\ error (fst (fetchArgoFloats quietHost serverSendsObject true [] startState))
     = None.
Proof.
  apply (non_array_body_empties_floats quietHost serverSendsObject true []
           startState 200 (JObject VUndefined)).
  - reflexivity.
  - intros items. discriminate.
Defined.

Lemma positions_null (fl : floats) : In None fl -> positions fl = None.
Proof.
  induction fl as [|[f|] fl IH]; cbn [positions In].
  - intros [].
  - intros [H|H]; [discriminate|]. now rewrite (IH H).
  - reflexivity.
Qed.

(** X8. Once the map exists, an array that holds a [null] entry is
    stored as the new float list and yet the call throws: the error
    banner is set to the message of reading [lat] of [null].  Before the
    map exists, the same array is stored and returned without an error
    and with the loading flag off, the state in which the marker filter
    runs on it, and throws. *)
Theorem null_entry_stored_with_error (host : Host) (fetch : str -> fetchResult)
  (filterParams : filterParams) (st : MapState) (status : Z) (items : floats) :
  fetch (apiUrl filterParams) = Response true status (Body (JArray items)) ->
  In None items ->
  let withMap := fetchArgoFloats host fetch true filterParams st in
  let noMap := fetchArgoFloats host fetch false filterParams st in
  argoFloats (fst withMap) = items
  /\ error (fst withMap) = Some (loadError (nullRead host "lat"))
  /\ snd withMap = Thrown (nullRead host "lat")
  /\ argoFloats (fst noMap) = items
  /\ error (fst noMap) = None
  /\ isLoading (fst noMap) = false
  /\ snd noMap = Returned items
  /\ markers items = None.
Proof.
  intros E H. unfold fetchArgoFloats. rewrite E.
  rewrite (positions_null _ H).
  assert (L : (0 <? List.length items) = true)
    by (destruct items; [destruct H|reflexivity]).
  rewrite L. cbn. repeat split. now apply markers_null.
Qed.

Lemma null_entry_stored_with_error_witness :
  argoFloats (fst (fetchArgoFloats quietHost serverSendsNull true [] startState))
  = [Some insideFloat; None]
  /\ error (fst (fetchArgoFloats quietHost serverSendsNull true [] startState))
     = Some (loadError "Cannot read properties of null").
Proof.
  destruct (null_entry_stored_with_error quietHost serverSendsNull [] startState
              200 [Some insideFloat; None] eq_refl (or_intror (or_introl eq_refl)))
    as (H1 & H2 & _).
  split; [exact H1|exact H2].
Defined.

(** X9. [handleFilterChange] never throws: whatever the request does,
    it ends with the new filters stored and both flags off, and the
    floats and the error are those [fetchArgoFloats] left. *)
Theorem filter_change_settles (host : Host) (fetch : str -> fetchResult)
  (map : bool) (newFilters : filterParams) (st : MapState) :
  let st' := handleFilterChange host fetch map newFilters st in
  let loaded :=
    fst (fetchArgoFloats host fetch map newFilters
           (setFilters newFilters (setIsFiltering true st))) in
  filters st' = newFilters
  /\ isFiltering st' = false
  /\ isLoading st' = false
  /\ argoFloats st' = argoFloats loaded
  /\ error st' = error loaded
  /\ (error st' = None <->
      exists formattedData,
        snd (fetchArgoFloats host fetch map newFilters
               (setFilters newFilters (setIsFiltering true st)))
        = Returned formattedData).
Proof.
  unfold handleFilterChange.
  set (st0 := setFilters newFilters (setIsFiltering true st)).
  destruct (fetch_facts host fetch map newFilters st0) as (L & F & O).
  cbn zeta. repeat split; try assumption.
  - destruct (snd (fetchArgoFloats host fetch map newFilters st0)) as [d|m].
    + eauto.
    + cbn. intros E. rewrite (O : error _ = _) in E. discriminate.
  - intros [d E]. rewrite E in O. exact O.
Qed.

(** X10. Clicking a float opens the dialog on the chart: with fuel for
    the loop, the profile stored has 101 points, so the dialog shows the
    chart and never the waiting text; closing the dialog clears the
    selection and keeps the profile. *)
Theorem float_click_opens_chart (fuel : nat) (random : nat -> number)
  (float : ArgoFloat) (st : MapState) :
  102 <= fuel ->
  let opened := handleFloatClick fuel random float st in
  selectedFloat opened = Some float
  /\ List.length (depthProfileData opened) = 101
  /\ dialog opened = DialogChart
  /\ dialog (handleCloseDialog opened) = DialogClosed
  /\ selectedFloat (handleCloseDialog opened) = None
  /\ depthProfileData (handleCloseDialog opened) = depthProfileData opened
  /\ argoFloats (handleCloseDialog opened) = argoFloats st.
Proof.
  intros F.
  assert (E : generateDepthProfile fuel random (id float)
              = List.map (profileAt random) (seq 0 101)).
  { unfold generateDepthProfile.
    exact (ProfileFacts.profileLoop_runs random 101 0 fuel [] eq_refl F). }
  unfold handleFloatClick, handleCloseDialog, dialog. cbn.
  rewrite E. repeat split; reflexivity.
Qed.

Lemma float_click_opens_chart_witness :
  dialog (handleFloatClick 102 sampleRandom insideFloat startState) = DialogChart.
Proof.
  apply (float_click_opens_chart 102 sampleRandom insideFloat startState).
  apply le_n.
Defined.

End MapFacts.

(** ** The filter panel: typing, submitting, resetting *)

Module FilterPanelFacts.
Import Js.
Import ArgoFloatsMap.
Import FloatFilters.
Import FilterPanel.

Lemma str_eqb_refl (s : str) : str_eqb s s = true.
Proof. unfold str_eqb. now destruct (list_eq_dec ascii_dec s s). Qed.

Lemma str_eqb_neq (s t : str) : s <> t -> str_eqb s t = false.
Proof. intros H. unfold str_eqb. now destruct (list_eq_dec ascii_dec s t). Qed.

Lemma str_eqb_eq (s t : str) : str_eqb s t = true -> s = t.
Proof. unfold str_eqb. now destruct (list_eq_dec ascii_dec s t). Qed.

Lemma get_assign_same (name value : str) (prev : filtersObject) :
  get name (assign name value prev) = Some value.
Proof.
  induction prev as [|[k v] prev IH]; cbn [assign get].
  - now rewrite str_eqb_refl.
  - destruct (str_eqb k name) eqn:E; cbn [get]; now rewrite E.
Qed.

Lemma get_assign_other (name value other : str) (prev : filtersObject) :
  other <> name -> get other (assign name value prev) = get other prev.
Proof.
  intros H. induction prev as [|[k v] prev IH]; cbn [assign get].
  - now rewrite (str_eqb_neq name other) by congruence.
  - destruct (str_eqb k name) eqn:E; cbn [get].
    + apply str_eqb_eq in E. subst k.
      now rewrite (str_eqb_neq name other) by congruence.
    + now rewrite IH.
Qed.

Lemma assign_keys (name value : str) (prev : filtersObject) :
  get name prev <> None ->
  List.map fst (assign name value prev) = List.map fst prev.
Proof.
  induction prev as [|[k v] prev IH]; cbn [assign get List.map fst].
  - intros H. now destruct H.
  - destruct (str_eqb k name) eqn:E; cbn [List.map fst]; [reflexivity|].
    intros H. now rewrite (IH H).
Qed.

Lemma assign_twice (name v1 v2 : str) (prev : filtersObject) :
  assign name v2 (assign name v1 prev) = assign name v2 prev.
Proof.
  induction prev as [|[k v] prev IH]; cbn [assign].
  - now rewrite str_eqb_refl.
  - destruct (str_eqb k name) eqn:E; cbn [assign]; rewrite E; [reflexivity|].
    now rewrite IH.
Qed.

(** X11. Typing into an input stores the value under the input's name
    and nothing else: the field reads back the value typed, every other
    field reads as before, a field that existed keeps its place (the
    object gets no new key), and of two values typed into the same input
    the last one wins. *)
Theorem input_change_lookup (name value : str) (prev : filtersObject) :
  get name (handleInputChange name value prev) = Some value
  /\ (forall other, other <> name ->
        get other (handleInputChange name value prev) = get other prev)
  /\ (get name prev <> None ->
      List.map fst (handleInputChange name value prev) = List.map fst prev)
  /\ (forall value',
        handleInputChange name value' (handleInputChange name value prev)
        = handleInputChange name value' prev).
Proof.
  unfold handleInputChange. split; [apply get_assign_same|].
  split; [intros other H; now apply get_assign_other|].
  split; [apply assign_keys|]. intros value'. apply assign_twice.
Qed.

Lemma input_change_lookup_witness :
  List.map fst (handleInputChange "latMax" "20" initialFilters)
  = List.map fst initialFilters.
Proof.
  apply (proj1 (proj2 (proj2 (input_change_lookup "latMax" "20" initialFilters)))).
  discriminate.
Defined.

Lemma inactive_get (filters : filtersObject) (name : str) :
  hasActiveFilters filters = false ->
  get name filters = None \/ get name filters = Some [].
Proof.
  unfold hasActiveFilters. induction filters as [|[k v] filters IH]; cbn [existsb get snd].
  - now left.
  - intros H. apply orb_false_elim in H as [Hv H].
    destruct (str_eqb k name); [|now apply IH].
    destruct v; [now right|discriminate].
Qed.

Lemma mappedField_inactive (key : str) (v : option str) :
  v = None \/ v = Some [] -> mappedField key v = [].
Proof. now intros [->| ->]. Qed.

Lemma mappedDepth_inactive (v : option str) :
  v = None \/ v = Some [] -> mappedDepth v = [].
Proof. now intros [->| ->]. Qed.

Lemma inactive_params (filters : filtersObject) :
  hasActiveFilters filters = false -> submittedParams (criteria filters) = [].
Proof.
  intros H. rewrite FilterFacts.submitted_mapped. unfold mappedParams, criteria.
  cbn [latMin latMax lonMin lonMax depthMax startDate endDate].
  rewrite !mappedField_inactive by now apply inactive_get.
  now rewrite mappedDepth_inactive by now apply inactive_get.
Qed.

(** X12. With no active filter (every field of the panel empty, the
    state in which the reset buttons are disabled), a submission sends
    no parameter at all and asks for the very URL a reset asks for,
    [/api/floats?] with an empty query; and the state a reset installs
    has no active filter. *)
Theorem inactive_submit_is_reset (filters : filtersObject) :
  hasActiveFilters filters = false ->
  submittedParams (criteria filters) = []
  /\ submittedUrl (criteria filters) = apiUrl (snd resetFilters)
  /\ apiUrl (snd resetFilters)
     = list_ascii_of_string "http://localhost:8000/api/floats?"
  /\ hasActiveFilters (fst resetFilters) = false.
Proof.
  intros H. pose proof (inactive_params filters H) as P.
  split; [exact P|]. split; [|split; reflexivity].
  unfold submittedUrl, apiUrl. unfold submittedParams in P. now rewrite P.
Qed.

Lemma inactive_submit_is_reset_witness :
  submittedParams (criteria initialFilters) = []
  /\ submittedUrl (criteria initialFilters) = apiUrl (snd resetFilters).
Proof.
  destruct (inactive_submit_is_reset initialFilters eq_refl) as (H1 & H2 & _).
  split; [exact H1|exact H2].
Defined.

Lemma in_mappedParams_field (filters : FilterCriteria) (key value : str) :
  value <> [] ->
  (key = ("lat_min" : str) /\ latMin filters = Some value)
  \/ (key = ("lat_max" : str) /\ latMax filters = Some value)
  \/ (key = ("lon_min" : str) /\ lonMin filters = Some value)
  \/ (key = ("lon_max" : str) /\ lonMax filters = Some value)
  \/ (key = ("start_date" : str) /\ startDate filters = Some value)
  \/ (key = ("end_date" : str) /\ endDate filters = Some value) ->
  In (key, value) (mappedParams filters).
Proof.
  intros Hne H. unfold mappedParams. rewrite !in_app_iff.
  destruct value as [|a t]; [now destruct Hne|].
  destruct H as [[-> E]|[[-> E]|[[-> E]|[[-> E]|[[-> E]|[-> E]]]]]];
    rewrite E; cbn [mappedField In]; tauto.
Qed.

(** X13. What is typed is what is sent: after a non-empty value has been
    typed into one of the pass-through inputs, a submission sends that
    very value under the backend's name of the field, whatever the other
    fields hold; a value typed into [depthMax] is sent as the string of
    its parsed Number. *)
Theorem typed_value_is_sent (input param value : str) (prev : filtersObject) :
  In (input, param) inputs -> value <> [] ->
  In (param, value)
     (submittedParams (criteria (handleInputChange input value prev)))
  /\ In ("depth_max" : str, numberToString (parseFloatStr value))
        (submittedParams (criteria (handleInputChange "depthMax" value prev))).
Proof.
  intros Hin Hne. rewrite !FilterFacts.submitted_mapped. split.
  - apply in_mappedParams_field; [exact Hne|].
    unfold handleInputChange, criteria.
    cbn [latMin latMax lonMin lonMax depthMax startDate endDate].
    cbn [inputs In] in Hin.
    destruct Hin as [E|[E|[E|[E|[E|[E|[]]]]]]]; injection E as <- <-;
      rewrite get_assign_same; tauto.
  - unfold mappedParams, handleInputChange, criteria.
    cbn [latMin latMax lonMin lonMax depthMax startDate endDate].
    rewrite get_assign_same, !in_app_iff.
    destruct value as [|a t]; [now destruct Hne|].
    cbn [mappedDepth In]. tauto.
Qed.

Lemma typed_value_is_sent_witness :
  In ("lon_min" : str, "40.5" : str)
     (submittedParams (criteria (handleInputChange "lonMin" "40.5" initialFilters))).
Proof.
  refine (proj1 (typed_value_is_sent "lonMin" "lon_min" "40.5" initialFilters _ _)).
  - right. right. left. reflexivity.
  - discriminate.
Defined.

End FilterPanelFacts.

(** ** The chat page: sending *)

Module SendFacts.
Import Js.
Import App.
Import Chat.

Lemma trim_blank (s : str) : forallb isWhiteSpace s = true -> trim s = [].
Proof.
  intros H. unfold trim, trimStart.
  assert (E : dropWhile isWhiteSpace s = []).
  { induction s as [|a s IH]; [reflexivity|]. cbn [forallb] in H.
    apply andb_prop in H as [Ha Hs]. cbn [dropWhile]. rewrite Ha. now apply IH. }
  now rewrite E.
Qed.

(** X14. A blank input sends nothing: when the input holds white space
    only (or nothing), [handleSendMessage] leaves the whole state as it
    is, whatever the backend would answer. *)
Theorem blank_input_not_sent
  (clock : nat -> Z) (fetch : str -> fetchResult) (st : ChatState) :
  forallb isWhiteSpace (inputValue st) = true ->
  handleSendMessage clock fetch st = st.
Proof.
  intros H. unfold handleSendMessage. now rewrite (trim_blank _ H).
Qed.

Lemma blank_input_not_sent_witness :
  handleSendMessage sampleClock backendDown (setInputValue "   " sampleChat)
  = setInputValue "   " sampleChat.
Proof.
  apply (blank_input_not_sent sampleClock backendDown (setInputValue "   " sampleChat)).
  reflexivity.
Defined.

(** X15. Every send of a non-blank input appends exactly two messages to
    the history, the user's trimmed text and one bot message, clears the
    input and ends with the loading flag off.  The bot message is
    flagged as an error exactly when the request did not come back ok
    with a readable body; otherwise it carries the reply's data and the
    reply's answer, or the fallback text when the answer is falsy (absent,
    empty, null, zero). *)
Theorem send_appends_two
  (clock : nat -> Z) (fetch : str -> fetchResult) (st : ChatState) :
  trim (inputValue st) <> [] ->
  exists reply : ChatMessage,
    handleSendMessage clock fetch st
    = {| messages := messages st
                     ++ [userMessage clock (trim (inputValue st)); reply];
         inputValue := [];
         isLoading := false |}
    /\ msg_sender reply = bot
    /\ msg_id reply = (clock 2%nat + 1)%Z
    /\ (isError reply = false <->
        exists status body,
          fetch (askUrl (trim (inputValue st))) = Response true status (Some body))
    /\ (forall status body,
          fetch (askUrl (trim (inputValue st))) = Response true status (Some body) ->
          data reply = reply_data body
          /\ msg_text reply = (if toBoolean (answer body) then answer body
                               else VStr fallbackText)).
Proof.
  intros H. unfold handleSendMessage.
  destruct (trim (inputValue st)) as [|a t] eqn:E; [now destruct H|].
  destruct (fetch (askUrl (a :: t))) as [|[|] status [body|]] eqn:F.
  all: eexists; split; [unfold appendMessage, setIsLoading, setInputValue;
                        cbn; rewrite <- app_assoc; reflexivity|].
  all: cbn; repeat split; try reflexivity; try discriminate;
    try (intros (s & b & Hx); discriminate);
    try (intros s b Hx; discriminate); eauto.
  all: match goal with
       | Hx : Response _ _ _ = Response _ _ _ |- _ => injection Hx as _ <-
       end; reflexivity.
Qed.

Lemma send_appends_two_witness :
  exists reply : ChatMessage,
    handleSendMessage sampleClock
      (replies {| answer := VStr []; reply_data := VNull |}) sampleChat
    = {| messages := messages sampleChat
                     ++ [userMessage sampleClock (trim (inputValue sampleChat)); reply];
         inputValue := [];
         isLoading := false |}
    /\ msg_text reply = VStr fallbackText.
Proof.
  destruct (send_appends_two sampleClock
              (replies {| answer := VStr []; reply_data := VNull |}) sampleChat)
    as (reply & H1 & _ & _ & _ & H5).
  - vm_compute. discriminate.
  - exists reply. split; [exact H1|].
    exact (proj2 (H5 200%Z {| answer := VStr []; reply_data := VNull |} eq_refl)).
Defined.

(** X16. A question picked from the suggestions replaces the draft and
    goes out as it stands: for a question without white space at its
    ends, which each of the suggested questions is, choosing it and
    sending appends the user's message with exactly that text, whatever
    the input held before, and the request asks for it percent-encoded;
    the bot message that follows is the error message unless the request
    comes back ok with a readable body. *)
Theorem quick_question_sent
  (clock : nat -> Z) (fetch : str -> fetchResult) (st : ChatState)
  (question : str) :
  trim question = question -> question <> [] ->
  (exists reply : ChatMessage,
     handleSendMessage clock fetch (handleQuickQuestion question st)
     = {| messages := messages st ++ [userMessage clock question; reply];
          inputValue := [];
          isLoading := false |}
     /\ (reply = errorMessage clock
         \/ exists status body,
              fetch (API_BASE_URL ++ "/ask?question=" ++ encodeURIComponent question)
              = Response true status (Some body)
              /\ reply = botMessage clock body))
  /\ (forall q, In q SUGGESTED_QUESTIONS -> trim q = q /\ q <> []).
Proof.
  intros T Hne. split.
  - unfold handleSendMessage, handleQuickQuestion.
    cbn [setInputValue inputValue messages]. rewrite T.
    destruct question as [|a t]; [now destruct Hne|].
    unfold askUrl.
    destruct (fetch _) as [|[|] status [body|]] eqn:F.
    all: eexists; split; [unfold appendMessage, setIsLoading, setInputValue;
                          cbn; rewrite <- app_assoc; reflexivity|].
    all: try (now left).
    right. exists status, body. split; reflexivity.
  - intros q Hin. cbn [SUGGESTED_QUESTIONS In] in Hin.
    destruct Hin as [<-|[<-|[<-|[<-|[]]]]]; split;
      solve [vm_compute; reflexivity | discriminate].
Qed.

Lemma quick_question_sent_witness :
  exists reply : ChatMessage,
    handleSendMessage sampleClock backendDown
      (handleQuickQuestion "What are the highest recorded temperatures?" sampleChat)
    = {| messages := messages sampleChat
                     ++ [userMessage sampleClock
                           "What are the highest recorded temperatures?"; reply];
         inputValue := [];
         isLoading := false |}.
Proof.
  destruct (proj1 (quick_question_sent sampleClock backendDown sampleChat
                     "What are the highest recorded temperatures?"
                     eq_refl ltac:(discriminate))) as (reply & H & _).
  exists reply. exact H.
Defined.

End SendFacts.

(** ** The depth-profile chart and the heat layer *)

Module ChartFacts.
Import Js.
Import ArgoFloatsMap.
Import DepthProfileChart.

Lemma hasTemperature_items (ps : list DepthProfilePoint) :
  ps <> [] -> hasTemperature (List.map itemOf ps) = true
              /\ hasSalinity (List.map itemOf ps) = true.
Proof. destruct ps; [now intros []|]. intros _. split; reflexivity. Qed.

(** X17. The chart of a generated profile draws both lines: with fuel
    for the loop, the profile handed over by the map makes the chart
    show the temperature line and the salinity line, under the axis
    label of the temperature.  Whatever the data, the chart is never
    drawn without a line, and an empty array or something that is not an
    array gives the no-data notice. *)
Theorem chart_of_profile (fuel : nat) (random : nat -> number) (floatId : jsval) :
  102 <= fuel ->
  DepthProfileChart
    (Some (List.map itemOf (generateDepthProfile fuel random floatId)))
  = Chart ("Temperature (" ++ [degree] ++ "C)") true true
  /\ (forall data label, DepthProfileChart data <> Chart label false false)
  /\ DepthProfileChart (Some []) = NoData
  /\ DepthProfileChart None = NoData.
Proof.
  intros F. split; [|split; [|split; reflexivity]].
  - assert (E : generateDepthProfile fuel random floatId
                = List.map (profileAt random) (seq 0 101)).
    { unfold generateDepthProfile.
      exact (ProfileFacts.profileLoop_runs random 101 0 fuel [] eq_refl F). }
    rewrite E. reflexivity.
  - intros [[|item items]|] label; try discriminate.
    unfold DepthProfileChart.
    destruct (hasTemperature (item :: items)), (hasSalinity (item :: items));
      discriminate.
Qed.

Lemma chart_of_profile_witness :
  DepthProfileChart
    (Some (List.map itemOf (generateDepthProfile 102 sampleRandom VNull)))
  = Chart ("Temperature (" ++ [degree] ++ "C)") true true.
Proof.
  apply (chart_of_profile 102 sampleRandom VNull). apply le_n.
Defined.

End ChartFacts.

Module HeatLayerFacts.
Import Js.
Import ArgoFloatsMap.
Import HeatmapLayer.

Lemma orNumber_truthy (x y : number) :
  toBoolean (VNum y) = true -> toBoolean (VNum (orNumber x y)) = true.
Proof.
  intros H. unfold orNumber. destruct (toBoolean (VNum x)) eqn:E; assumption.
Qed.



End HeatLayerFacts.

(** ** Searching for a match *)

Module SearchFacts.
Import Js.
Import Regex.
Import RegexFacts.

Lemma search_bol (r : regex) (s : str) :
  forall b, b <> [] -> search (Seq (Bol false) r) b s = None.
Proof.
  assert (M : forall b s, b <> [] -> matchAt (Seq (Bol false) r) b s = None).
  { intros [|a b] s' H; [now destruct H|].
    unfold matchAt. rewrite mtch_group, mtch_seq, mtch_bol. reflexivity. }
  induction s as [|a s IH]; intros b H; cbn [search]; rewrite (M b _ H).
  - reflexivity.
  - apply IH. discriminate.
Qed.

Lemma mtch_text_mismatch (lit : str) :
  forall k st, startsWith lit (rest st) = false -> mtch (text lit) k st = None.
Proof.
  induction lit as [|a [|b lit] IH]; intros k st H.
  - discriminate.
  - cbn [text]. unfold chr. rewrite mtch_chr.
    destruct (rest st) as [|c t]; [reflexivity|].
    cbn [startsWith] in H. rewrite andb_true_r in H. now rewrite H.
  - change (text (a :: b :: lit)) with (Seq (chr a) (text (b :: lit))).
    rewrite mtch_seq. unfold chr at 1. rewrite mtch_chr.
    destruct (rest st) as [|c t] eqn:R; [reflexivity|].
    change (startsWith (a :: b :: lit) (c :: t))
      with (Ascii.eqb a c && startsWith (b :: lit) t) in H.
    destruct (Ascii.eqb a c); [|reflexivity].
    apply IH. exact H.
Qed.

Lemma search_eq (r : regex) (b s : str) :
  search r b s
  = match matchAt r b s with
    | Some m => Some m
    | None => match s with
              | a :: t => search r (a :: b) t
              | [] => None
              end
    end.
Proof. destruct s; reflexivity. Qed.

End SearchFacts.

(** ** The development server's proxy *)

Module ViteFacts.
Import Js.
Import Regex.
Import RegexFacts.
Import SearchFacts.
Import ViteConfig.

(** X19. The proxy's rewrite strips the leading [/api] of a path and
    nothing else: a path that begins with [/api] loses these four
    characters, wherever the next segment starts, and any other path,
    also one that holds [/api] further on, is passed on unchanged. *)
Theorem proxy_rewrite :
  (forall rest, rewrite ("/api" ++ rest) = rest)
  /\ (forall path, startsWith "/api" path = false -> rewrite path = path).
Proof.
  split.
  - intros tail. unfold rewrite, replaceFirst. rewrite search_eq.
    unfold matchAt, apiPrefix. cbn [seqs].
    rewrite mtch_group, mtch_seq, mtch_bol. cbn [atLineStart openGroup prev hd_error].
    rewrite (mtch_text "/api" _ tail) by reflexivity.
    cbn. reflexivity.
  - intros path H. unfold rewrite, replaceFirst. rewrite search_eq.
    assert (M : matchAt apiPrefix [] path = None).
    { unfold matchAt, apiPrefix. cbn [seqs].
      rewrite mtch_group, mtch_seq, mtch_bol.
      cbn [atLineStart openGroup prev hd_error].
      now rewrite mtch_text_mismatch. }
    rewrite M. destruct path as [|a t]; [reflexivity|].
    unfold apiPrefix. cbn [seqs]. rewrite search_bol by discriminate.
    reflexivity.
Qed.

Lemma proxy_rewrite_witness :
  rewrite "/v1/api/floats" = list_ascii_of_string "/v1/api/floats".
Proof.
  apply (proj2 proxy_rewrite "/v1/api/floats"). reflexivity.
Defined.

End ViteFacts.

(** ** Matching: what a match consumes and what a replacement keeps *)

Module MatchingFacts.
Import Js.
Import Regex.
Import RegexFacts.
Import Matching.

Lemma orElse_some (x : option mstate) (y : unit -> option mstate) (z : mstate) :
  orElse x y = Some z -> x = Some z \/ (x = None /\ y tt = Some z).
Proof. destruct x; cbn; intros H; [left|right]; auto. Qed.

Lemma map_app_nil (l : list str) : List.map (app (rev [])) l = l.
Proof. induction l as [|a l IH]; cbn; [reflexivity|]. now f_equal. Qed.

Lemma map_app_app (r1 r2 : str) (l : list str) :
  List.map (app (rev r2)) (List.map (app (rev r1)) l)
  = List.map (app (rev (r1 ++ r2))) l.
Proof.
  rewrite List.map_map. apply List.map_ext. intros acc.
  now rewrite rev_app_distr, app_assoc.
Qed.

(** The shape of a successful match of [r] before the continuation [k]:
    [k] was entered in a state that lies a run of characters further,
    with the open groups extended by that run; the run is made of the
    class [c] when [r] is within [c], and holds a character of [d] when
    [r] needs one. *)
Lemma mtch_sound (c d : ascii -> bool) (r : regex) :
  forall k st x,
    mtch r k st = Some x ->
    exists st' run,
      k st' = Some x
      /\ rest st = run ++ rest st'
      /\ opens st' = List.map (app (rev run)) (opens st)
      /\ (within c r = true -> forallb c run = true)
      /\ (needs d r = true -> lacks d run = false).
Proof.
  induction r as [|p|r1 IH1 r2 IH2|r1 IH1 r2 IH2|g r1 IH1|i r1 IH1|m|m];
    intros k st x H.
  - rewrite mtch_eps in H. exists st, []. rewrite map_app_nil.
    repeat split; auto; discriminate.
  - rewrite mtch_chr in H. destruct (rest st) as [|a t] eqn:R; [discriminate|].
    destruct (p a) eqn:P; [|discriminate].
    exists (advance a t st), [a]. split; [exact H|]. split; [reflexivity|].
    split; [reflexivity|]. split; cbn [within needs]; intros W.
    + cbn. now rewrite (classWithin_spec _ _ W a P).
    + unfold lacks. cbn. now rewrite (classWithin_spec _ _ W a P).
  - rewrite mtch_seq in H.
    destruct (IH1 _ _ _ H) as (st1 & run1 & H1 & R1 & O1 & W1 & N1).
    destruct (IH2 _ _ _ H1) as (st2 & run2 & H2 & R2 & O2 & W2 & N2).
    exists st2, (run1 ++ run2). split; [exact H2|].
    split; [now rewrite R1, R2, app_assoc|].
    split; [now rewrite O2, O1, map_app_app|].
    split; cbn [within needs]; intros W.
    + apply andb_prop in W as [Wa Wb]. rewrite forallb_app.
      now rewrite (W1 Wa), (W2 Wb).
    + unfold lacks in *. rewrite forallb_app.
      apply orb_prop in W as [W|W]; [now rewrite (N1 W)|].
      rewrite (N2 W). apply andb_false_r.
  - rewrite mtch_alt in H. apply orElse_some in H as [H|[_ H]].
    + destruct (IH1 _ _ _ H) as (st1 & run1 & H1 & R1 & O1 & W1 & N1).
      exists st1, run1. repeat split; auto; cbn [within needs]; intros W;
        apply andb_prop in W as [Wa Wb]; auto.
    + destruct (IH2 _ _ _ H) as (st1 & run1 & H1 & R1 & O1 & W1 & N1).
      exists st1, run1. repeat split; auto; cbn [within needs]; intros W;
        apply andb_prop in W as [Wa Wb]; auto.
  - rewrite mtch_star in H. revert H. generalize (List.length (rest st)).
    intros fuel. revert st x.
    induction fuel as [|fuel IHf]; intros st x H.
    + rewrite starLoop_0 in H. exists st, []. rewrite map_app_nil.
      repeat split; auto; discriminate.
    + rewrite starLoop_S in H. cbn zeta in H.
      assert (T : forall y,
                 mtch r1 (fun st' =>
                   if List.length (rest st') <? List.length (rest st)
                   then starLoop g (mtch r1) k fuel st' else None) st = Some y ->
                 exists st' run,
                   k st' = Some y /\ rest st = run ++ rest st'
                   /\ opens st' = List.map (app (rev run)) (opens st)
                   /\ (within c (Star g r1) = true -> forallb c run = true)
                   /\ (needs d (Star g r1) = true -> lacks d run = false)).
      { intros y Hy.
        destruct (IH1 _ _ _ Hy) as (st1 & run1 & H1 & R1 & O1 & W1 & _).
        destruct (List.length (rest st1) <? List.length (rest st)); [|discriminate].
        destruct (IHf _ _ H1) as (st2 & run2 & H2 & R2 & O2 & W2 & _).
        exists st2, (run1 ++ run2). split; [exact H2|].
        split; [now rewrite R1, R2, app_assoc|].
        split; [now rewrite O2, O1, map_app_app|].
        split; [|discriminate]. cbn [within] in *. intros W.
        rewrite forallb_app. now rewrite (W1 W), (W2 W). }
      assert (Z : forall y,
                 k st = Some y ->
                 exists st' run,
                   k st' = Some y /\ rest st = run ++ rest st'
                   /\ opens st' = List.map (app (rev run)) (opens st)
                   /\ (within c (Star g r1) = true -> forallb c run = true)
                   /\ (needs d (Star g r1) = true -> lacks d run = false)).
      { intros y Hy. exists st, []. rewrite map_app_nil.
        repeat split; auto; discriminate. }
      destruct g; apply orElse_some in H as [H|[_ H]]; auto.
  - rewrite mtch_group in H.
    destruct (IH1 _ _ _ H) as (st1 & run & H1 & R1 & O1 & W1 & N1).
    unfold closeGroup in H1. cbn [openGroup opens rest List.map] in O1, R1.
    rewrite O1 in H1.
    eexists _, run. split; [exact H1|]. cbn [rest opens]. auto.
  - rewrite mtch_bol in H. destruct (atLineStart m st); [|discriminate].
    exists st, []. rewrite map_app_nil. repeat split; auto; discriminate.
  - rewrite mtch_eol in H. destruct (atLineEnd m st); [|discriminate].
    exists st, []. rewrite map_app_nil. repeat split; auto; discriminate.
Qed.

Lemma matchAt_sound (c d : ascii -> bool) (r : regex) (b s : str) (m : MatchInfo) :
  matchAt r b s = Some m ->
  s = matched m ++ after m
  /\ before m = rev b
  /\ (within c r = true -> forallb c (matched m) = true)
  /\ (needs d r = true -> lacks d (matched m) = false).
Proof.
  unfold matchAt.
  destruct (mtch (Group 0 r) Some _) as [x|] eqn:E; [|discriminate].
  intros H. injection H as <-. rewrite mtch_group in E.
  destruct (mtch_sound c d r _ _ _ E) as (st1 & run & H1 & R1 & O1 & W & N).
  unfold closeGroup in H1. cbn [openGroup opens rest List.map] in O1, R1.
  rewrite O1 in H1. injection H1 as <-.
  cbn [caps find fst snd rest matched after before Nat.eqb].
  rewrite app_nil_r, rev_involutive. auto.
Qed.

(** An invariant of the states that the moves of the matcher keep holds
    where a successful match enters its continuation. *)
Lemma mtch_inv (I : mstate -> Prop) :
  (forall st a t, rest st = a :: t -> I st -> I (advance a t st)) ->
  (forall st, I st -> I (openGroup st)) ->
  (forall i st acc os,
     opens st = acc :: os -> I st ->
     I {| prev := prev st; rest := rest st; opens := os;
          caps := (i, rev acc) :: caps st |}) ->
  forall r k st x,
    mtch r k st = Some x -> I st -> exists st', k st' = Some x /\ I st'.
Proof.
  intros Hadv Hopen Hclose.
  induction r as [|p|r1 IH1 r2 IH2|r1 IH1 r2 IH2|g r1 IH1|i r1 IH1|m|m];
    intros k st x H Hst.
  - rewrite mtch_eps in H. eauto.
  - rewrite mtch_chr in H. destruct (rest st) as [|a t] eqn:R; [discriminate|].
    destruct (p a); [|discriminate]. eauto.
  - rewrite mtch_seq in H.
    destruct (IH1 _ _ _ H Hst) as (st1 & H1 & I1). eauto.
  - rewrite mtch_alt in H. apply orElse_some in H as [H|[_ H]]; eauto.
  - rewrite mtch_star in H. revert H. generalize (List.length (rest st)).
    intros fuel. revert st x Hst.
    induction fuel as [|fuel IHf]; intros st x Hst H.
    + rewrite starLoop_0 in H. eauto.
    + rewrite starLoop_S in H. cbn zeta in H.
      assert (T : forall y,
                 mtch r1 (fun st' =>
                   if List.length (rest st') <? List.length (rest st)
                   then starLoop g (mtch r1) k fuel st' else None) st = Some y ->
                 exists st', k st' = Some y /\ I st').
      { intros y Hy. destruct (IH1 _ _ _ Hy Hst) as (st1 & H1 & I1).
        destruct (List.length (rest st1) <? List.length (rest st)); [|discriminate].
        eauto. }
      destruct g; apply orElse_some in H as [H|[_ H]]; eauto.
  - rewrite mtch_group in H.
    destruct (IH1 _ _ _ H (Hopen _ Hst)) as (st1 & H1 & I1).
    unfold closeGroup in H1. destruct (opens st1) as [|acc os] eqn:O; [discriminate|].
    eauto.
  - rewrite mtch_bol in H. destruct (atLineStart m st); [|discriminate]. eauto.
  - rewrite mtch_eol in H. destruct (atLineEnd m st); [|discriminate]. eauto.
Qed.

Lemma lacks_cons (c : ascii -> bool) (a : ascii) (s : str) :
  lacks c (a :: s) = negb (c a) && lacks c s.
Proof. reflexivity. Qed.

Lemma lacks_app_eq (c : ascii -> bool) (s t : str) :
  lacks c (s ++ t) = lacks c s && lacks c t.
Proof. unfold lacks. apply forallb_app. Qed.

Lemma lacks_rev (c : ascii -> bool) (s : str) : lacks c (rev s) = lacks c s.
Proof.
  induction s as [|a s IH]; [reflexivity|].
  cbn [rev]. rewrite lacks_app_eq, IH, !lacks_cons. cbn [lacks forallb].
  rewrite andb_true_r. apply andb_comm.
Qed.

Lemma stateLacks_match (c : ascii -> bool) (r : regex) :
  forall k st x,
    mtch r k st = Some x -> stateLacks c st ->
    exists st', k st' = Some x /\ stateLacks c st'.
Proof.
  apply mtch_inv.
  - intros st a t R (Hr & Ho & Hc). unfold stateLacks, advance. cbn [rest opens caps].
    rewrite R, lacks_cons in Hr. apply andb_prop in Hr as [Ha Ht].
    split; [exact Ht|]. split; [|exact Hc].
    apply Forall_forall. intros acc Hin. apply in_map_iff in Hin as (acc' & <- & Hin).
    rewrite lacks_cons, Ha. rewrite Forall_forall in Ho. now apply Ho.
  - intros st (Hr & Ho & Hc). unfold stateLacks, openGroup. cbn [rest opens caps].
    split; [exact Hr|]. split; [|exact Hc]. now constructor.
  - intros i st acc os O (Hr & Ho & Hc). unfold stateLacks. cbn [rest opens caps].
    rewrite O in Ho. inversion Ho as [|? ? Ha Hos]; subst.
    split; [exact Hr|]. split; [exact Hos|]. constructor; [|exact Hc].
    cbn [snd]. now rewrite lacks_rev.
Qed.

Lemma find_lacks (c : ascii -> bool) (i : nat) (l : list (nat * str)) :
  Forall (fun g => lacks c (snd g) = true) l ->
  lacks c (match find (fun g => fst g =? i) l with
           | Some g => snd g
           | None => []
           end) = true.
Proof.
  induction 1 as [|g l Hg Hl IH]; [reflexivity|].
  cbn [find]. destruct (fst g =? i); [exact Hg|exact IH].
Qed.

(** The parts of a match in a string without the class [c] lack it. *)
Lemma matchAt_parts_lack (c : ascii -> bool) (r : regex) (b s : str) (m : MatchInfo) :
  lacks c b = true -> lacks c s = true ->
  matchAt r b s = Some m ->
  lacks c (matched m) = true /\ lacks c (before m) = true
  /\ lacks c (after m) = true /\ forall i, lacks c (group i m) = true.
Proof.
  intros Hb Hs. unfold matchAt.
  destruct (mtch (Group 0 r) Some _) as [x|] eqn:E; [|discriminate].
  intros H. injection H as <-.
  destruct (stateLacks_match c _ _ _ _ E) as (st' & H' & (Hr & _ & Hc)).
  { unfold stateLacks. cbn [rest opens caps]. repeat split; [exact Hs| |]; constructor. }
  injection H' as <-. cbn [matched before after]. unfold group. cbn [groups].
  split; [now apply find_lacks|]. split; [now rewrite lacks_rev|].
  split; [exact Hr|]. intros i. now apply find_lacks.
Qed.

Lemma expand_cons (n : nat) (m : MatchInfo) (a : ascii) (t : str) :
  expand n m (a :: t)
  = if Ascii.eqb a "$" then
      match t with
      | [] => [a]
      | b :: t1 =>
          if Ascii.eqb b "$" then b :: expand n m t1
          else if Ascii.eqb b "&" then matched m ++ expand n m t1
          else if Ascii.eqb b "`" then before m ++ expand n m t1
          else if Ascii.eqb b "'" then after m ++ expand n m t1
          else if isDigit b then
            let d1 := code b - 48 in
            match t1 with
            | c :: t2 =>
                let d2 := 10 * d1 + (code c - 48) in
                if isDigit c && (1 <=? d2) && (d2 <=? n)
                then group d2 m ++ expand n m t2
                else if (1 <=? d1) && (d1 <=? n)
                then group d1 m ++ expand n m t1
                else a :: expand n m t
            | [] =>
                if (1 <=? d1) && (d1 <=? n) then group d1 m else [a; b]
            end
          else a :: expand n m t
      end
    else a :: expand n m t.
Proof. reflexivity. Qed.

(** The expansion of a replacement string is made of the string and of
    the parts of the match. *)
Lemma expand_lacks (c : ascii -> bool) (n : nat) (m : MatchInfo) :
  lacks c (matched m) = true -> lacks c (before m) = true ->
  lacks c (after m) = true -> (forall i, lacks c (group i m) = true) ->
  forall tpl, lacks c tpl = true -> lacks c (expand n m tpl) = true.
Proof.
  intros Hm Hb Ha Hg tpl.
  remember (List.length tpl) as len eqn:L.
  assert (L' : List.length tpl <= len) by lia. clear L. revert tpl L'.
  induction len as [|len IH]; intros tpl L H.
  - destruct tpl; [reflexivity|cbn in L; lia].
  - destruct tpl as [|a t]; [reflexivity|]. cbn [List.length] in L.
    rewrite expand_cons. pose proof H as H0.
    rewrite lacks_cons in H. apply andb_prop in H as [Ca Ct].
    assert (It : lacks c (expand n m t) = true) by (apply IH; [lia|exact Ct]).
    destruct (Ascii.eqb a "$"); [|now rewrite lacks_cons, Ca, It].
    destruct t as [|b t1]; [exact H0|]. cbn [List.length] in L.
    pose proof Ct as Ct0. rewrite lacks_cons in Ct. apply andb_prop in Ct as [Cb Ct1].
    assert (I1 : lacks c (expand n m t1) = true) by (apply IH; [lia|exact Ct1]).
    destruct (Ascii.eqb b "$"); [now rewrite lacks_cons, Cb, I1|].
    destruct (Ascii.eqb b "&"); [now rewrite lacks_app_eq, Hm, I1|].
    destruct (Ascii.eqb b "`"); [now rewrite lacks_app_eq, Hb, I1|].
    destruct (Ascii.eqb b "'"); [now rewrite lacks_app_eq, Ha, I1|].
    destruct (isDigit b); [|now rewrite lacks_cons, Ca, It].
    cbn zeta. destruct t1 as [|c0 t2].
    + destruct ((1 <=? code b - 48) && (code b - 48 <=? n)); [apply Hg|exact H0].
    + cbn [List.length] in L. rewrite lacks_cons in Ct1.
      apply andb_prop in Ct1 as [Cc Ct2].
      assert (I2 : lacks c (expand n m t2) = true) by (apply IH; [lia|exact Ct2]).
      destruct (isDigit c0 && _ && _); [now rewrite lacks_app_eq, Hg, I2|].
      destruct ((1 <=? code b - 48) && (code b - 48 <=? n));
        [now rewrite lacks_app_eq, Hg, I1|now rewrite lacks_cons, Ca, It].
Qed.

Lemma replace_go_miss {S : Type} (r : regex) (f : S -> MatchInfo -> S * str)
  (b : str) (acc : S) (a : ascii) (t : str) :
  matchAt r b (a :: t) = None ->
  replace_go r f 0 b acc (a :: t)
  = (fst (replace_go r f 0 (a :: b) acc t),
     a :: snd (replace_go r f 0 (a :: b) acc t)).
Proof.
  intros M. cbn [replace_go]. rewrite M.
  now destruct (replace_go r f 0 (a :: b) acc t).
Qed.

(** A replacement with a pattern whose matches are never empty, read as
    a scan: at the end of the input nothing is left to do; where no
    match begins, the character is kept; where a match begins, its
    replacement is put out and the scan goes on after it. *)
Lemma replace_scan {S : Type} (r : regex) (f : S -> MatchInfo -> S * str)
  (d : ascii -> bool) (Q : str -> S -> str -> S * str -> Prop) :
  needs d r = true ->
  (forall b acc, Q b acc [] (acc, [])) ->
  (forall b acc a t,
     matchAt r b (a :: t) = None ->
     Q (a :: b) acc t (replace_go r f 0 (a :: b) acc t) ->
     Q b acc (a :: t)
       (fst (replace_go r f 0 (a :: b) acc t),
        a :: snd (replace_go r f 0 (a :: b) acc t))) ->
  (forall b acc m,
     matchAt r b (matched m ++ after m) = Some m ->
     matched m <> [] ->
     Q (rev (matched m) ++ b) (fst (f acc m)) (after m)
       (replace_go r f 0 (rev (matched m) ++ b) (fst (f acc m)) (after m)) ->
     Q b acc (matched m ++ after m)
       (fst (replace_go r f 0 (rev (matched m) ++ b) (fst (f acc m)) (after m)),
        snd (f acc m)
        ++ snd (replace_go r f 0 (rev (matched m) ++ b) (fst (f acc m)) (after m)))) ->
  forall s b acc, Q b acc s (replace_go r f 0 b acc s).
Proof.
  intros N Hend Hmiss Hhit s.
  remember (List.length s) as len eqn:L.
  assert (L' : List.length s <= len) by lia. clear L. revert s L'.
  induction len as [|len IH]; intros s L b acc.
  - destruct s; [|cbn in L; lia]. cbn [replace_go].
    rewrite (matchAt_lacks d r b [] N eq_refl). apply Hend.
  - destruct s as [|a t].
    + cbn [replace_go]. rewrite (matchAt_lacks d r b [] N eq_refl). apply Hend.
    + cbn [List.length] in L. destruct (matchAt r b (a :: t)) as [m|] eqn:M.
      * destruct (matchAt_sound d d r b _ m M) as (E & _ & _ & Hn).
        specialize (Hn N).
        assert (Hne : matched m <> []) by (intros Z; now rewrite Z in Hn).
        rewrite E in M |- *.
        rewrite (replace_go_match r f b acc (matched m) (after m) m M eq_refl Hne).
        apply Hhit; [exact M|exact Hne|]. apply IH.
        assert (LL : List.length (a :: t) = List.length (matched m ++ after m))
          by now rewrite <- E.
        rewrite length_app in LL. cbn [List.length] in LL.
        destruct (matched m); [now destruct Hne|cbn [List.length] in LL; lia].
      * specialize (Hmiss b acc a t M (IH t ltac:(lia) (a :: b) acc)).
        cbn [replace_go]. rewrite M.
        destruct (replace_go r f 0 (a :: b) acc t) as [acc2 tail]. exact Hmiss.
Qed.

(** A replacement keeps a string free of the class [c] when what it puts
    out for a match is free of it as soon as the parts of the match
    are. *)
Lemma replace_keeps_lacks {S : Type} (c d : ascii -> bool) (r : regex)
  (f : S -> MatchInfo -> S * str) :
  needs d r = true ->
  (forall acc m,
     lacks c (matched m) = true -> lacks c (before m) = true ->
     lacks c (after m) = true -> (forall i, lacks c (group i m) = true) ->
     lacks c (snd (f acc m)) = true) ->
  forall s b acc,
    lacks c b = true -> lacks c s = true ->
    lacks c (snd (replace_go r f 0 b acc s)) = true.
Proof.
  intros N Hf.
  apply (replace_scan r f d
           (fun b acc s res =>
              lacks c b = true -> lacks c s = true -> lacks c (snd res) = true));
    [exact N| | |].
  - reflexivity.
  - intros b acc a t M IH Hb Hs. cbn [snd]. rewrite lacks_cons in Hs |- *.
    apply andb_prop in Hs as [Ha Ht]. rewrite Ha. apply IH; [|exact Ht].
    now rewrite lacks_cons, Ha.
  - intros b acc m M Hne IH Hb Hs. cbn [snd].
    destruct (matchAt_parts_lack c r b _ m Hb Hs M) as (P1 & P2 & P3 & P4).
    rewrite lacks_app_eq, (Hf acc m P1 P2 P3 P4). apply IH; [|exact P3].
    now rewrite lacks_app_eq, lacks_rev, P1.
Qed.

Lemma replaceAll_keeps_lacks (c : ascii -> bool) (r : regex) (tpl s : str) :
  needs (fun _ => true) r = true ->
  lacks c tpl = true -> lacks c s = true -> lacks c (replaceAll r tpl s) = true.
Proof.
  intros N Ht Hs. unfold replaceAll, replaceAllBy, replaceAllWith.
  apply (replace_keeps_lacks c (fun _ => true)); auto.
  intros acc m P1 P2 P3 P4. cbn [snd]. now apply expand_lacks.
Qed.

(** A replacement by nothing removes the class [c] when a match begins
    at every character of the class. *)
Lemma replaceAll_removes (c : ascii -> bool) (r : regex) (s : str) :
  needs (fun _ => true) r = true ->
  (forall b a t, c a = true -> matchAt r b (a :: t) <> None) ->
  lacks c (replaceAll r [] s) = true.
Proof.
  intros N Hc. unfold replaceAll, replaceAllBy, replaceAllWith.
  apply (replace_scan r _ (fun _ => true)
           (fun b acc s res => lacks c (snd res) = true)); [exact N| | |].
  - reflexivity.
  - intros b acc a t M IH. cbn [snd]. rewrite lacks_cons, IH.
    destruct (c a) eqn:Ca; [|reflexivity]. now destruct (Hc b a t Ca).
  - intros b acc m M Hne IH. cbn [snd expand app]. exact IH.
Qed.

Lemma orElse_left (x : option mstate) (y : unit -> option mstate) :
  x <> None -> orElse x y <> None.
Proof. destruct x; cbn; congruence. Qed.

Lemma orElse_right (x : option mstate) (y : unit -> option mstate) :
  y tt <> None -> orElse x y <> None.
Proof. destruct x; cbn; congruence. Qed.

(** A star matches where its continuation does (with no turn, if not
    with more). *)
Lemma mtch_star_skip (g : bool) (r : regex) (k : mstate -> option mstate)
  (st : mstate) :
  k st <> None -> mtch (Star g r) k st <> None.
Proof.
  intros H. rewrite mtch_star. destruct (List.length (rest st)) as [|fuel].
  - now rewrite starLoop_0.
  - rewrite starLoop_S. cbn zeta.
    destruct g; [now apply orElse_right|now apply orElse_left].
Qed.

Lemma matchAt_some (r : regex) (b s : str) :
  mtch (Group 0 r) Some
       {| prev := hd_error b; rest := s; opens := []; caps := [] |} <> None ->
  matchAt r b s <> None.
Proof. unfold matchAt. destruct (mtch _ _ _); [discriminate|congruence]. Qed.

Ltac first_char :=
  unfold chr; rewrite mtch_chr; cbn [rest openGroup advance];
  rewrite ?Ascii.eqb_refl.

Lemma stripTags_begins (b t : str) : matchAt App.stripTags b ("<"%char :: t) <> None.
Proof.
  apply matchAt_some. unfold App.stripTags, star, opt. cbn [seqs].
  rewrite mtch_group, mtch_seq. first_char. rewrite mtch_seq.
  apply mtch_star_skip. rewrite mtch_alt. apply orElse_right.
  rewrite mtch_eps. discriminate.
Qed.

Lemma stripHashes_begins (b t : str) :
  matchAt App.stripHashes b ("#"%char :: t) <> None.
Proof.
  apply matchAt_some. unfold App.stripHashes, star, plus. cbn [seqs].
  rewrite mtch_group, mtch_seq. apply mtch_star_skip.
  rewrite !mtch_seq. first_char.
  apply mtch_star_skip. apply mtch_star_skip. discriminate.
Qed.

Lemma stripStars_begins (b t : str) :
  matchAt App.stripStars b ("*"%char :: t) <> None.
Proof.
  apply matchAt_some. unfold App.stripStars, star. cbn [seqs].
  rewrite mtch_group, mtch_seq. apply mtch_star_skip.
  rewrite !mtch_seq. first_char. apply mtch_star_skip. discriminate.
Qed.

Lemma stripDashes_begins (b t : str) :
  matchAt App.stripDashes b ("-"%char :: t) <> None.
Proof.
  apply matchAt_some. unfold App.stripDashes, star. cbn [seqs].
  rewrite mtch_group, mtch_seq. apply mtch_star_skip.
  rewrite !mtch_seq. first_char. apply mtch_star_skip. discriminate.
Qed.

Lemma eqb_class (x a : ascii) : Ascii.eqb a x = true -> a = x.
Proof. apply Ascii.eqb_eq. Qed.

End MatchingFacts.

(** ** The plain-text formatter and the fallback text: what is removed *)

Module StripFacts.
Import Js.
Import Regex.
Import RegexFacts.
Import Matching.
Import MatchingFacts.
Import App.
Import Chat.

(** X20. The fallback text shown for a message that could not be
    formatted holds no [<] at all: every [<] of a string text begins a
    match of the tag pattern and is removed with it, and the fixed text
    shown for a text that is not a string has none. *)
Theorem fallback_has_no_angle (text : jsval) :
  lacks (fun a => Ascii.eqb a "<") (renderFallback text) = true.
Proof.
  destruct text as [| | | |s]; try reflexivity.
  unfold renderFallback. apply replaceAll_removes; [vm_compute; reflexivity|].
  intros b a t H. apply eqb_class in H. subst a. apply stripTags_begins.
Qed.

Lemma lacks_markers (s : str) :
  lacks (fun a => Ascii.eqb a "#") s = true ->
  lacks (fun a => Ascii.eqb a "*") s = true ->
  lacks (fun a => Ascii.eqb a "-") s = true ->
  lacks (fun a => memChar a "#*-") s = true.
Proof.
  induction s as [|a s IH]; [reflexivity|]. rewrite !lacks_cons.
  intros H1 H2 H3.
  apply andb_prop in H1 as [A1 S1]. apply andb_prop in H2 as [A2 S2].
  apply andb_prop in H3 as [A3 S3]. rewrite (IH S1 S2 S3), andb_true_r.
  apply negb_true_iff in A1, A2, A3. unfold memChar. cbn [existsb list_ascii_of_string].
  now rewrite A1, A2, A3.
Qed.

Ltac keep_step :=
  apply replaceAll_keeps_lacks; [vm_compute; reflexivity|reflexivity|].

Lemma cleanChain_lacks_markers (s : str) :
  lacks (fun a => memChar a "#*-") (cleanChain s) = true.
Proof.
  unfold cleanChain, trim. apply lacks_markers;
    apply CleanTextFacts.lacks_trimEnd, CleanTextFacts.lacks_trimStart.
  - do 9 keep_step. apply replaceAll_removes; [vm_compute; reflexivity|].
    intros b a t H. apply eqb_class in H. subst a. apply stripHashes_begins.
  - do 8 keep_step. apply replaceAll_removes; [vm_compute; reflexivity|].
    intros b a t H. apply eqb_class in H. subst a. apply stripStars_begins.
  - do 7 keep_step. apply replaceAll_removes; [vm_compute; reflexivity|].
    intros b a t H. apply eqb_class in H. subst a. apply stripDashes_begins.
Qed.



End StripFacts.

(** ** The rich formatter: what the initial cleaning guarantees *)

Module CleaningFacts.
Import Js.
Import Regex.
Import RegexFacts.
Import Matching.
Import MatchingFacts.
Import App.

Local Abbreviation lt_ := (fun a : ascii => Ascii.eqb a "<").
Local Abbreviation gt_ := (Ascii.eqb ">").

Lemma tagFree_lacks (s : str) : lacks lt_ s = true -> tagFree s = true.
Proof.
  induction s as [|a s IH]; [reflexivity|]. rewrite lacks_cons. intros H.
  apply andb_prop in H as [Ha Hs]. cbn [tagFree]. apply negb_true_iff in Ha.
  cbn beta in Ha. rewrite Ha. now apply IH.
Qed.

Lemma tagFree_app_lacks (u v : str) :
  lacks lt_ u = true -> tagFree (u ++ v) = tagFree v.
Proof.
  induction u as [|a u IH]; [reflexivity|]. rewrite lacks_cons. intros H.
  apply andb_prop in H as [Ha Hu]. cbn [app tagFree]. apply negb_true_iff in Ha.
  cbn beta in Ha. rewrite Ha. now apply IH.
Qed.

Lemma tagFree_suffix (u v : str) : tagFree (u ++ v) = true -> tagFree v = true.
Proof.
  induction u as [|a u IH]; [auto|]. cbn [app tagFree]. intros H.
  apply andb_prop in H as [_ H]. now apply IH.
Qed.

Lemma lacks_suffix (c : ascii -> bool) (u v : str) :
  lacks c (u ++ v) = true -> lacks c v = true.
Proof. rewrite lacks_app_eq. intros H. now apply andb_prop in H as [_ H]. Qed.

Lemma has_gt (t : str) :
  lacks gt_ t = false ->
  exists t', dropWhile (fun a => negb (memChar a ">")) t = ">"%char :: t'.
Proof.
  induction t as [|a t IH]; [discriminate|]. rewrite lacks_cons.
  cbn [dropWhile memChar existsb list_ascii_of_string].
  rewrite (Ascii.eqb_sym a ">"), orb_false_r.
  destruct (Ascii.eqb ">" a) eqn:E; cbn [negb andb].
  - apply Ascii.eqb_eq in E. subst a. eauto.
  - exact IH.
Qed.

(** Where a [<] is followed, at some distance, by a [>], a tag begins. *)
Lemma htmlTag_begins (b t : str) :
  lacks gt_ t = false -> matchAt htmlTag b ("<"%char :: t) <> None.
Proof.
  intros H. destruct (has_gt t H) as (t' & D).
  apply matchAt_some. unfold htmlTag, star. cbn [seqs].
  rewrite mtch_group, mtch_seq. first_char. rewrite mtch_seq, mtch_star.
  set (st := advance "<" t
                (openGroup {| prev := hd_error b; rest := "<"%char :: t;
                              opens := []; caps := [] |})).
  change (noneOf ">") with (Chr (fun a => negb (memChar a ">"))).
  destruct (mtch (chr ">") (closeGroup 0 Some)
              (advanceRun (takeWhile (fun a => negb (memChar a ">")) (rest st)) st))
    as [x|] eqn:K.
  - match goal with
    | |- ?lhs <> None =>
        assert (G : lhs = Some x)
          by exact (starLoop_greedy_run _ _ _ st x (le_n _) K);
        rewrite G
    end.
    discriminate.
  - exfalso. revert K. unfold chr. rewrite mtch_chr.
    destruct (advanceRun_spec (takeWhile (fun a => negb (memChar a ">")) (rest st))
                st (dropWhile (fun a => negb (memChar a ">")) (rest st)))
      as (R & O & _); [now rewrite take_drop|].
    rewrite R. change (rest st) with t in O |- *. rewrite D, Ascii.eqb_refl.
    unfold closeGroup, advance at 1. cbn [opens]. rewrite O. cbn. discriminate.
Qed.

(** Removing the tags leaves no tag. *)
Lemma htmlTag_removed (s : str) : tagFree (replaceAll htmlTag [] s) = true.
Proof.
  unfold replaceAll, replaceAllBy, replaceAllWith.
  apply (replace_scan htmlTag _ (fun _ => true)
           (fun b acc s res =>
              tagFree (snd res) = true
              /\ (lacks gt_ s = true -> lacks gt_ (snd res) = true)));
    [vm_compute; reflexivity| | |].
  - split; reflexivity.
  - intros b acc a t M [IH1 IH2]. cbn [snd]. split.
    + cbn [tagFree]. rewrite IH1, andb_true_r.
      destruct (Ascii.eqb a "<") eqn:E; [|reflexivity].
      apply Ascii.eqb_eq in E. subst a. apply IH2.
      destruct (lacks gt_ t) eqn:L; [reflexivity|].
      now destruct (htmlTag_begins b t L).
    + rewrite !lacks_cons. intros H. apply andb_prop in H as [Ha Ht].
      now rewrite Ha, (IH2 Ht).
  - intros b acc m M Hne [IH1 IH2]. cbn [snd expand app]. split; [exact IH1|].
    intros H. apply IH2. now apply lacks_suffix in H.
Qed.

(** A replacement by a string without angle brackets and without [$]
    keeps a string free of tags. *)
Lemma replaceAll_keeps_tagFree (r : regex) (tpl s : str) :
  needs (fun _ => true) r = true ->
  lacks (fun a => memChar a "<>$") tpl = true ->
  tagFree s = true -> tagFree (replaceAll r tpl s) = true.
Proof.
  intros N T.
  assert (T1 : lacks lt_ tpl = true /\ lacks gt_ tpl = true
               /\ lacks (fun a => Ascii.eqb a "$") tpl = true).
  { clear N. induction tpl as [|a tpl IH]; [repeat split|].
    rewrite lacks_cons in T. apply andb_prop in T as [Ta Tt].
    destruct (IH Tt) as (I1 & I2 & I3). rewrite !lacks_cons, I1, I2, I3.
    apply negb_true_iff in Ta. unfold memChar in Ta.
    cbn [existsb list_ascii_of_string] in Ta.
    apply orb_false_elim in Ta as [A1 Ta]. apply orb_false_elim in Ta as [A2 Ta].
    apply orb_false_elim in Ta as [A3 _].
    rewrite (Ascii.eqb_sym ">" a), A1, A2, A3. repeat split. }
  destruct T1 as (Tl & Tg & Td).
  assert (X : forall m, expand (ngroups r) m tpl = tpl).
  { intros m. rewrite <- (app_nil_r tpl) at 1.
    rewrite (FormatFacts.expand_plain _ _ _ _ Td). cbn [expand]. apply app_nil_r. }
  unfold replaceAll, replaceAllBy, replaceAllWith. revert s.
  assert (G : forall s b acc,
             (tagFree s = true ->
              tagFree (snd (replace_go r
                 (fun (_ : unit) m => (tt, expand (ngroups r) m tpl)) 0 b acc s)) = true)
             /\ (lacks gt_ s = true ->
                 lacks gt_ (snd (replace_go r
                   (fun (_ : unit) m => (tt, expand (ngroups r) m tpl)) 0 b acc s))
                 = true)).
  { apply (replace_scan r _ (fun _ => true)
             (fun b acc s res =>
                (tagFree s = true -> tagFree (snd res) = true)
                /\ (lacks gt_ s = true -> lacks gt_ (snd res) = true)));
      [exact N| | |].
    - split; reflexivity.
    - intros b acc a t M [IH1 IH2]. cbn [snd]. split.
      + cbn [tagFree]. intros H. apply andb_prop in H as [Ha Ht].
        rewrite (IH1 Ht), andb_true_r.
        destruct (Ascii.eqb a "<"); [now apply IH2|reflexivity].
      + rewrite !lacks_cons. intros H. apply andb_prop in H as [Ha Ht].
        now rewrite Ha, (IH2 Ht).
    - intros b acc m M Hne [IH1 IH2]. cbn [snd]. rewrite X. split.
      + intros H. rewrite (tagFree_app_lacks _ _ Tl). apply IH1.
        now apply tagFree_suffix in H.
      + intros H. rewrite lacks_app_eq, Tg. apply IH2.
        now apply lacks_suffix in H. }
  intros s H. now apply G.
Qed.

Lemma tagFree_trimStart (s : str) : tagFree s = true -> tagFree (trimStart s) = true.
Proof.
  unfold trimStart. intros H. rewrite <- (take_drop isWhiteSpace s) in H.
  now apply tagFree_suffix in H.
Qed.

Lemma tagFree_trimEnd (s : str) : tagFree s = true -> tagFree (trimEnd s) = true.
Proof.
  induction s as [|a s IH]; [auto|]. cbn [tagFree trimEnd]. intros H.
  apply andb_prop in H as [Ha Hs]. specialize (IH Hs).
  destruct (trimEnd s) as [|c t'] eqn:E.
  - destruct (isWhiteSpace a); [reflexivity|].
    cbn [tagFree]. destruct (Ascii.eqb a "<"); reflexivity.
  - cbn [tagFree]. cbn [tagFree] in IH. rewrite IH, andb_true_r.
    destruct (Ascii.eqb a "<"); [|reflexivity].
    rewrite <- E. now apply CleanTextFacts.lacks_trimEnd.
Qed.

Lemma tagFree_no_match (s : str) :
  tagFree s = true -> forall b, search htmlTag b s = None.
Proof.
  induction s as [|a s IH]; intros H b; rewrite SearchFacts.search_eq.
  - now rewrite (matchAt_lacks gt_ htmlTag b [] eq_refl eq_refl).
  - cbn [tagFree] in H. apply andb_prop in H as [Ha Hs].
    assert (M : matchAt htmlTag b (a :: s) = None).
    { destruct (Ascii.eqb a "<") eqn:E.
      - apply Ascii.eqb_eq in E. subst a.
        apply (matchAt_lacks gt_); [reflexivity|]. now rewrite lacks_cons, Ha.
      - apply (matchAt_starts (Ascii.eqb "<")); [reflexivity|].
        now rewrite Ascii.eqb_sym. }
    rewrite M. now apply IH.
Qed.

Lemma initialCleaning_tagFree (text : str) : tagFree (initialCleaning text) = true.
Proof.
  unfold initialCleaning, trim. apply tagFree_trimEnd, tagFree_trimStart.
  do 5 (apply replaceAll_keeps_tagFree; [vm_compute; reflexivity|reflexivity|]).
  apply htmlTag_removed.
Qed.

(** X22. No tag survives the initial cleaning of the rich formatter:
    whatever the text, in the cleaned text no [<] is followed, at any
    distance, by a [>], so the tag pattern finds nothing in it any more;
    a [<] that nothing closes stays. *)
Theorem no_tag_survives (text : str) :
  tagFree (initialCleaning text) = true
  /\ test htmlTag (initialCleaning text) = false
  /\ initialCleaning "a <b>c</b> < d" = list_ascii_of_string "a c < d".
Proof.
  split; [apply initialCleaning_tagFree|]. split; [|vm_compute; reflexivity].
  unfold test. now rewrite (tagFree_no_match _ (initialCleaning_tagFree text) []).
Qed.

(** *** White space after the cleaning *)

Lemma lone_sparse (s : str) :
  forall fl, loneSpace_go fl s = sparse isWhiteSpace fl s.
Proof.
  induction s as [|a s IH]; intros fl; [reflexivity|].
  cbn [loneSpace_go sparse]. now rewrite !IH.
Qed.

Lemma sparse_weaken (c : ascii -> bool) (s : str) :
  sparse c true s = true -> sparse c false s = true.
Proof.
  destruct s as [|a s]; [auto|]. cbn [sparse].
  destruct (c a); [discriminate|auto].
Qed.

Lemma sparse_any (c : ascii -> bool) (fl : bool) (s : str) :
  sparse c fl s = true -> sparse c false s = true.
Proof. destruct fl; [apply sparse_weaken|auto]. Qed.

Lemma sparse_class (c c' : ascii -> bool) :
  (forall a, c' a = true -> c a = true) ->
  forall s fl, sparse c fl s = true -> sparse c' fl s = true.
Proof.
  intros Hc. induction s as [|a s IH]; intros fl H; [reflexivity|].
  cbn [sparse] in *. destruct (c' a) eqn:E.
  - rewrite (Hc a E) in H. apply andb_prop in H as [H1 H2].
    now rewrite H1, (IH true H2).
  - destruct (c a).
    + apply andb_prop in H as [_ H2]. apply sparse_weaken. now apply IH.
    + now apply IH.
Qed.

Lemma sparse_suffix (c : ascii -> bool) (u v : str) :
  forall fl, sparse c fl (u ++ v) = true -> sparse c false v = true.
Proof.
  induction u as [|a u IH]; intros fl H; [now apply (sparse_any c fl)|].
  cbn [app sparse] in H. destruct (c a).
  - apply andb_prop in H as [_ H]. now apply (IH true).
  - now apply (IH false).
Qed.

Lemma sparse_prefix (c : ascii -> bool) (u v : str) :
  forall fl, sparse c fl (u ++ v) = true -> sparse c fl u = true.
Proof.
  induction u as [|a u IH]; intros fl H; [reflexivity|].
  cbn [app sparse] in *. destruct (c a).
  - apply andb_prop in H as [H1 H2]. now rewrite H1, (IH true H2).
  - now apply IH.
Qed.

Lemma trimEnd_prefix (s : str) : exists w, s = trimEnd s ++ w.
Proof.
  induction s as [|a s [w IH]]; [now exists []|]. cbn [trimEnd].
  destruct (trimEnd s) as [|c t'] eqn:E.
  - destruct (isWhiteSpace a); [now exists (a :: s)|].
    exists s. reflexivity.
  - exists w. rewrite IH at 1. reflexivity.
Qed.

Lemma sparse_trim (c : ascii -> bool) (fl : bool) (s : str) :
  sparse c fl s = true -> sparse c false (trim s) = true.
Proof.
  intros H. unfold trim, trimStart.
  rewrite <- (take_drop isWhiteSpace s) in H. apply sparse_suffix in H.
  destruct (trimEnd_prefix (dropWhile isWhiteSpace s)) as [w E].
  rewrite E in H. now apply sparse_prefix in H.
Qed.

Lemma matchAt_spaceRun (b : str) (a c : ascii) (t : str) :
  isWhiteSpace a = true -> isWhiteSpace c = true ->
  exists m, matchAt spaceRun b (a :: c :: t) = Some m
            /\ matched m = a :: c :: takeWhile isWhiteSpace t.
Proof.
  intros Ha Hc. unfold matchAt, spaceRun, ws. cbn [atLeast].
  rewrite mtch_group, mtch_seq, mtch_chr. cbn [openGroup rest].
  rewrite Ha, mtch_seq, mtch_chr. cbn [advance rest].
  rewrite Hc, mtch_star. unfold advance, openGroup.
  cbn [rest opens caps List.map prev].
  set (st1 := {| prev := Some c; rest := t; opens := [[c; a]]; caps := [] |}).
  destruct (advanceRun_spec (takeWhile isWhiteSpace t) st1
              (dropWhile isWhiteSpace t)) as (H1 & H2 & H3).
  { cbn. now rewrite take_drop. }
  set (st2 := advanceRun (takeWhile isWhiteSpace t) st1) in *.
  assert (K : closeGroup 0 Some st2
              = Some {| prev := prev st2; rest := rest st2; opens := [];
                        caps := [(0, a :: c :: takeWhile isWhiteSpace t)] |}).
  { unfold closeGroup. rewrite H2, H3. cbn [st1 opens caps List.map].
    rewrite rev_app_distr, rev_involutive. reflexivity. }
  rewrite (starLoop_greedy_run isWhiteSpace (closeGroup 0 Some)
             (List.length t) st1 _ (le_n _) K).
  eexists. split; reflexivity.
Qed.

Lemma dropWhile_head (p : ascii -> bool) (s : str) :
  match dropWhile p s with
  | [] => True
  | a :: _ => p a = false
  end.
Proof.
  induction s as [|a t IH]; [exact I|]. cbn [dropWhile].
  destruct (p a) eqn:E; [exact IH|exact E].
Qed.

(** After the runs of white space have been replaced, no two
    white-space characters are adjacent; a text that begins with
    another character still does. *)
Lemma spaceRun_squeezed (n : nat) :
  forall s b,
    List.length s <= n ->
    let out := snd (replace_go spaceRun
                      (fun (_ : unit) m => (tt, expand 0 m " ")) 0 b tt s) in
    sparse isWhiteSpace false out = true
    /\ (match s with [] => True | a :: _ => isWhiteSpace a = false end ->
        sparse isWhiteSpace true out = true).
Proof.
  induction n as [|n IH]; intros s b Hlen; cbn zeta.
  - destruct s; [|cbn in Hlen; lia]. cbn [replace_go].
    rewrite FormatFacts.matchAt_spaceRun_none by exact I. split; reflexivity.
  - destruct s as [|a [|c t]].
    + cbn [replace_go].
      rewrite FormatFacts.matchAt_spaceRun_none by exact I. split; reflexivity.
    + cbn [replace_go]. rewrite !FormatFacts.matchAt_spaceRun_none by exact I.
      cbn [snd sparse]. destruct (isWhiteSpace a); split; auto; discriminate.
    + destruct (isWhiteSpace a && isWhiteSpace c) eqn:E.
      * apply andb_prop in E as [Ha Hc].
        destruct (matchAt_spaceRun b a c t Ha Hc) as (m & M & Hm).
        cbn [replace_go]. rewrite M, Hm. cbn [List.length].
        rewrite (replace_go_skip _ _ t (List.length (takeWhile isWhiteSpace t)))
          by apply length_takeWhile.
        rewrite skipn_takeWhile.
        destruct (IH (dropWhile isWhiteSpace t)
                     (rev (firstn (List.length (takeWhile isWhiteSpace t)) t)
                      ++ c :: a :: b)) as [_ I2].
        { pose proof (length_takeWhile isWhiteSpace t).
          rewrite <- (take_drop isWhiteSpace t) in Hlen.
          cbn [List.length] in Hlen. rewrite length_app in Hlen. lia. }
        specialize (I2 (dropWhile_head isWhiteSpace t)). cbn zeta in I2.
        destruct (replace_go spaceRun _ 0 _ tt (dropWhile isWhiteSpace t))
          as [u tail]. cbn [snd] in *.
        change (expand 0 m " ") with [" "%char]. cbn [app sparse].
        change (isWhiteSpace " ") with true. cbn [negb andb].
        split; [exact I2|]. rewrite Ha. discriminate.
      * assert (M : matchAt spaceRun b (a :: c :: t) = None)
          by (apply FormatFacts.matchAt_spaceRun_none; exact E).
        rewrite (replace_go_miss _ _ _ _ _ _ M).
        destruct (IH (c :: t) (a :: b)) as [I1 I2]; [cbn in Hlen |- *; lia|].
        cbn zeta in I1, I2. cbn [snd sparse].
        destruct (isWhiteSpace a) eqn:Ha.
        -- cbn [andb] in E. split; [now apply I2|discriminate].
        -- split; intros; exact I1.
Qed.

Lemma initialCleaning_lone (text : str) : loneSpaces (initialCleaning text) = true.
Proof.
  unfold loneSpaces. rewrite lone_sparse. unfold initialCleaning.
  apply (sparse_trim _ false).
  unfold replaceAll, replaceAllBy, replaceAllWith.
  change (ngroups spaceRun) with 0.
  exact (proj1 (spaceRun_squeezed _ _ [] (le_n _))).
Qed.

(** *** Paragraphs *)

Local Abbreviation nl_ := (fun a : ascii => Ascii.eqb a newline).

Lemma sparse_after_plain (c : ascii -> bool) (u v : str) :
  forall fl, u <> [] -> lacks c u = true ->
             sparse c fl (u ++ v) = sparse c false v.
Proof.
  induction u as [|a u IH]; intros fl Hne H; [now destruct Hne|].
  rewrite lacks_cons in H. apply andb_prop in H as [Ha Hu].
  apply negb_true_iff in Ha. cbn [app sparse]. rewrite Ha.
  destruct u as [|a' u']; [reflexivity|]. apply IH; [discriminate|exact Hu].
Qed.

(** A replacement keeps the characters of the class [c] apart when what
    it puts out for a match is not empty and holds none of them. *)
Lemma replace_keeps_sparse {S : Type} (c d : ascii -> bool) (r : regex)
  (f : S -> MatchInfo -> S * str) :
  needs d r = true ->
  (forall b s acc m,
     matchAt r b s = Some m ->
     snd (f acc m) <> [] /\ lacks c (snd (f acc m)) = true) ->
  forall s b acc fl,
    sparse c fl s = true ->
    sparse c fl (snd (replace_go r f 0 b acc s)) = true.
Proof.
  intros N Hf.
  apply (replace_scan r f d
           (fun b acc s res =>
              forall fl, sparse c fl s = true -> sparse c fl (snd res) = true));
    [exact N| | |].
  - auto.
  - intros b acc a t M IH fl H. cbn [snd sparse] in *. destruct (c a).
    + apply andb_prop in H as [H1 H2]. now rewrite H1, (IH true H2).
    + now apply IH.
  - intros b acc m M Hne IH fl H. cbn [snd].
    destruct (Hf b _ acc m M) as [Ho Hl].
    rewrite (sparse_after_plain c _ _ fl Ho Hl). apply IH.
    now apply sparse_suffix in H.
Qed.

Lemma digitChar_digit (d : N) : (d < 10)%N -> isDigit (digitChar d) = true.
Proof.
  intros H. destruct d as [|p]; [reflexivity|].
  do 4 (destruct p as [p|p|]; try lia; try reflexivity).
Qed.

Lemma digitsOf_go_digits (fuel : nat) :
  forall n acc, forallb isDigit acc = true ->
                forallb isDigit (digitsOf_go fuel n acc) = true.
Proof.
  induction fuel as [|fuel IH]; intros n acc H; [exact H|].
  cbn [digitsOf_go].
  assert (H' : forallb isDigit (digitChar (n mod 10) :: acc) = true).
  { cbn [forallb]. rewrite H, andb_true_r. apply digitChar_digit.
    apply N.mod_lt. discriminate. }
  destruct (n / 10 =? 0)%N; [exact H'|now apply IH].
Qed.

Lemma digitsOf_digits (n : N) : forallb isDigit (digitsOf n) = true.
Proof. unfold digitsOf. now apply digitsOf_go_digits. Qed.

Lemma digits_lack (c : ascii -> bool) (s : str) :
  classWithin isDigit (fun a => negb (c a)) = true ->
  forallb isDigit s = true -> lacks c s = true.
Proof.
  intros W H. unfold lacks. rewrite forallb_forall in *. intros a Ha.
  exact (classWithin_spec _ _ W a (H a Ha)).
Qed.

Lemma placeholder_no_newline (index : nat) :
  placeholder index <> [] /\ lacks nl_ (placeholder index) = true.
Proof.
  split; [discriminate|]. unfold placeholder.
  rewrite !lacks_app_eq, (digits_lack nl_ _ eq_refl (digitsOf_digits _)).
  reflexivity.
Qed.

Lemma extract_keeps_sparse (s : str) (fl : bool) :
  sparse nl_ fl s = true -> sparse nl_ fl (snd (extractCodeBlocks s)) = true.
Proof.
  unfold extractCodeBlocks, replaceAllWith.
  apply (replace_keeps_sparse nl_ (fun _ => true)); [vm_compute; reflexivity|].
  intros b s' acc m _. unfold pushCodeBlock. cbn [snd].
  apply placeholder_no_newline.
Qed.

Lemma wrapUrl_keeps_sparse (s : str) (fl : bool) :
  sparse nl_ fl s = true -> sparse nl_ fl (replaceAllBy urlRegex wrapUrl s) = true.
Proof.
  unfold replaceAllBy, replaceAllWith.
  apply (replace_keeps_sparse nl_ (fun _ => true)); [vm_compute; reflexivity|].
  intros b s' acc m M. cbn [snd]. unfold wrapUrl. split; [discriminate|].
  destruct (matchAt_sound (fun a => negb (nl_ a)) (fun _ => true) _ _ _ _ M)
    as (_ & _ & W & _).
  specialize (W ltac:(vm_compute; reflexivity)).
  assert (W' : lacks nl_ (matched m) = true) by exact W.
  rewrite !lacks_app_eq, W'. reflexivity.
Qed.

Lemma sparse_no_blank_line (s : str) :
  forall fl, sparse nl_ fl s = true -> includes [newline; newline] s = false.
Proof.
  induction s as [|a s IH]; intros fl H; [reflexivity|].
  cbn [includes sparse] in *. cbn beta in H.
  change (startsWith [newline; newline] (a :: s))
    with (Ascii.eqb newline a && startsWith [newline] s).
  rewrite (Ascii.eqb_sym newline a).
  destruct (Ascii.eqb a newline).
  - apply andb_prop in H as [_ H]. rewrite (IH true H), orb_false_r.
    destruct s as [|c s']; [reflexivity|]. cbn [sparse] in H. cbn beta in H.
    cbn [startsWith]. rewrite (Ascii.eqb_sym newline c).
    destruct (Ascii.eqb c newline); [discriminate|reflexivity].
  - cbn [andb orb]. now apply (IH false).
Qed.

Lemma split_single (sep s : str) :
  includes sep s = false -> forall cur, split_go sep 0 cur s = [rev cur ++ s].
Proof.
  induction s as [|a s IH]; intros H cur.
  - cbn [split_go]. now rewrite app_nil_r.
  - cbn [includes] in H. apply orb_false_elim in H as [H1 H2].
    cbn [split_go]. rewrite H1, (IH H2). cbn [rev]. now rewrite <- app_assoc.
Qed.

Lemma cleaned_sparse (text : str) :
  sparse nl_ false
    (replaceAllBy urlRegex wrapUrl (snd (extractCodeBlocks (initialCleaning text))))
  = true.
Proof.
  apply wrapUrl_keeps_sparse, extract_keeps_sparse.
  apply (sparse_class isWhiteSpace); [|rewrite <- lone_sparse; apply initialCleaning_lone].
  intros a H. apply Ascii.eqb_eq in H. now subst a.
Qed.

(** X23. A reply is formatted as one paragraph, always: the initial
    cleaning leaves no two white-space characters in a row, so the text
    that reaches the paragraph splitter holds no blank line; the split
    on blank lines yields the text itself, and the formatter's result is
    that of its steps run on this single paragraph. *)
Theorem single_paragraph (text : str) :
  let codeBlocks := fst (extractCodeBlocks (initialCleaning text)) in
  let cleaned :=
    replaceAllBy urlRegex wrapUrl (snd (extractCodeBlocks (initialCleaning text))) in
  loneSpaces (initialCleaning text) = true
  /\ includes [newline; newline] cleaned = false
  /\ split [newline; newline] cleaned = [cleaned]
  /\ processParagraphs cleaned = processParagraph cleaned
  /\ (text <> [] ->
      formatMessageText text
      = afterRestore
          (restoreCodeBlocks 0 codeBlocks
             (replaceAllBy nakedUrl urlAnchor
                (replaceAllBy markdownLink linkAnchor (processParagraph cleaned))))).
Proof.
  cbn zeta.
  pose proof (sparse_no_blank_line _ _ (cleaned_sparse text)) as B.
  pose proof (split_single _ _ B []) as S. cbn [rev app] in S.
  split; [apply initialCleaning_lone|]. split; [exact B|]. split; [exact S|].
  assert (P : processParagraphs
                (replaceAllBy urlRegex wrapUrl
                   (snd (extractCodeBlocks (initialCleaning text))))
              = processParagraph
                  (replaceAllBy urlRegex wrapUrl
                     (snd (extractCodeBlocks (initialCleaning text))))).
  { unfold processParagraphs, split. rewrite S. reflexivity. }
  split; [exact P|]. intros Hne. unfold formatMessageText.
  destruct text as [|a t]; [now destruct Hne|].
  destruct (extractCodeBlocks (initialCleaning (a :: t))) as [blocks extracted].
  cbn [fst snd] in *. now rewrite P.
Qed.

Lemma single_paragraph_witness :
  formatMessageText ("One." ++ [newline; newline] ++ "Two.")
  = afterRestore
      (restoreCodeBlocks 0 []
         (replaceAllBy nakedUrl urlAnchor
            (replaceAllBy markdownLink linkAnchor
               (processParagraph "One. Two.")))).
Proof.
  pose proof (single_paragraph ("One." ++ [newline; newline] ++ "Two.")) as H.
  cbn zeta in H. destruct H as (_ & _ & _ & _ & H).
  exact (H ltac:(discriminate)).
Defined.

End CleaningFacts.

(** ** The rich formatter on plain text *)

Module PlainFacts.
Import Js.
Import Regex.
Import RegexFacts.
Import Matching.
Import MatchingFacts.
Import App.

Lemma search_lacks (c : ascii -> bool) (r : regex) (s : str) :
  needs c r = true -> lacks c s = true -> forall b, search r b s = None.
Proof.
  intros N. induction s as [|a s IH]; intros H b; rewrite SearchFacts.search_eq;
    rewrite (matchAt_lacks c r b _ N H); [reflexivity|].
  rewrite lacks_cons in H. apply andb_prop in H as [_ H]. now apply IH.
Qed.

Lemma plain_lacks (c : ascii -> bool) (s : str) :
  classWithin c richMarkup = true -> lacks richMarkup s = true -> lacks c s = true.
Proof. apply FormatFacts.lacks_sub. Qed.

Lemma initialCleaning_plain (text : str) :
  lacks richMarkup text = true ->
  initialCleaning text = trim (replaceAll spaceRun " " text).
Proof.
  intros H. unfold initialCleaning.
  rewrite (replaceAll_lacks (Ascii.eqb "<") htmlTag) by
    (first [reflexivity|apply plain_lacks; [reflexivity|exact H]]).
  rewrite (replaceAll_lacks (Ascii.eqb backslash) escapedQuote) by
    (first [reflexivity|apply plain_lacks; [reflexivity|exact H]]).
  rewrite (replaceAll_lacks (Ascii.eqb backslash) escapedBackslash) by
    (first [reflexivity|apply plain_lacks; [reflexivity|exact H]]).
  rewrite (replaceAll_lacks (Ascii.eqb backslash) escapedNewline) by
    (first [reflexivity|apply plain_lacks; [reflexivity|exact H]]).
  rewrite (replaceAll_lacks (Ascii.eqb backslash) escapedTab) by
    (first [reflexivity|apply plain_lacks; [reflexivity|exact H]]).
  reflexivity.
Qed.

Lemma initialCleaning_keeps_plain (text : str) :
  lacks richMarkup text = true -> lacks richMarkup (initialCleaning text) = true.
Proof.
  intros H. rewrite (initialCleaning_plain _ H). unfold trim.
  apply CleanTextFacts.lacks_trimEnd, CleanTextFacts.lacks_trimStart.
  apply replaceAll_keeps_lacks; [vm_compute; reflexivity|reflexivity|exact H].
Qed.

Lemma extract_plain (T : str) :
  lacks richMarkup T = true -> extractCodeBlocks T = ([], T).
Proof.
  intros HT. unfold extractCodeBlocks, replaceAllWith. apply replace_go_none.
  intros b' s' Ht. apply (matchAt_lacks (Ascii.eqb "`")); [reflexivity|].
  apply (lacks_tail _ _ _ Ht). apply plain_lacks; [reflexivity|exact HT].
Qed.

Lemma wrapUrl_plain (T : str) :
  lacks richMarkup T = true -> replaceAllBy urlRegex wrapUrl T = T.
Proof.
  intros HT. apply (replaceAllBy_lacks (Ascii.eqb ":")); [reflexivity|].
  apply plain_lacks; [reflexivity|exact HT].
Qed.

Lemma endsWith_plain (T : str) :
  lacks richMarkup T = true -> endsWith ":" T = false.
Proof.
  intros HT. unfold endsWith.
  assert (L : lacks (Ascii.eqb ":") (rev T) = true)
    by (rewrite lacks_rev; apply plain_lacks; [reflexivity|exact HT]).
  destruct (rev T) as [|a t]; [reflexivity|].
  rewrite lacks_cons in L. apply andb_prop in L as [La _].
  apply negb_true_iff in La. cbn [rev list_ascii_of_string app startsWith].
  now rewrite La.
Qed.

Lemma processParagraph_plain (T : str) :
  lacks richMarkup T = true -> trim T = T -> T <> [] ->
  processParagraph T = paragraphOf T.
Proof.
  intros HT Ht Hne. unfold processParagraph. cbn zeta. rewrite Ht.
  destruct T as [|a t] eqn:E; [now destruct Hne|]. rewrite <- E in *.
  unfold test, exec.
  rewrite (search_lacks isDigit numberedList T eq_refl)
    by (apply plain_lacks; [reflexivity|exact HT]).
  rewrite (search_lacks (fun a => memChar a "-*") bulletList T eq_refl)
    by (apply plain_lacks; [reflexivity|exact HT]).
  rewrite (search_lacks (Ascii.eqb ":") keyValue T eq_refl)
    by (apply plain_lacks; [reflexivity|exact HT]).
  rewrite (endsWith_plain T HT). reflexivity.
Qed.

Lemma paragraph_lacks (c : ascii -> bool) (T : str) :
  classWithin c richMarkup = true ->
  lacks c (paragraphOpen ++ "</p>") = true ->
  lacks richMarkup T = true ->
  lacks c (paragraphOf T) = true.
Proof.
  intros W H HT. unfold paragraphOf. rewrite lacks_app_eq in H.
  apply andb_prop in H as [H1 H2].
  rewrite !lacks_app_eq, H1, H2, (plain_lacks c T W HT). reflexivity.
Qed.

(** A pattern whose matches begin with [<] and that matches nowhere in
    the tags of the paragraph leaves a paragraph of plain text as it
    is. *)
Lemma wrapped_unchanged (r : regex) (f : MatchInfo -> str) (T : str) :
  starts (Ascii.eqb "<") r = true ->
  lacks richMarkup T = true ->
  unmatched r [] paragraphOpen (T ++ "</p>") ->
  (forall b, replace_go r (fun (_ : unit) m => (tt, f m)) 0 b tt "</p>"
             = (tt, list_ascii_of_string "</p>")) ->
  replaceAllBy r f (paragraphOf T) = paragraphOf T.
Proof.
  intros Hs HT Hp Hq. unfold paragraphOf, replaceAllBy, replaceAllWith.
  rewrite app_assoc, replace_go_pass.
  - rewrite Hq. reflexivity.
  - apply unmatched_app; [exact Hp|].
    apply (unmatched_lacks (Ascii.eqb "<")); [exact Hs|].
    apply plain_lacks; [reflexivity|exact HT].
Qed.

Ltac scan_open :=
  cbn [unmatched app paragraphOpen];
  repeat (split; [vm_compute; reflexivity|]); exact I.

Lemma afterRestore_plain (T : str) :
  lacks richMarkup T = true -> afterRestore (paragraphOf T) = paragraphOf T.
Proof.
  intros HT. unfold afterRestore.
  rewrite (replaceAll_lacks (Ascii.eqb "#") header1) by
    (first [reflexivity|apply paragraph_lacks; [reflexivity|reflexivity|exact HT]]).
  rewrite (replaceAll_lacks (Ascii.eqb "#") header2) by
    (first [reflexivity|apply paragraph_lacks; [reflexivity|reflexivity|exact HT]]).
  rewrite (replaceAll_lacks (Ascii.eqb "*") bold) by
    (first [reflexivity|apply paragraph_lacks; [reflexivity|reflexivity|exact HT]]).
  rewrite (replaceAll_lacks (Ascii.eqb "*") italic) by
    (first [reflexivity|apply paragraph_lacks; [reflexivity|reflexivity|exact HT]]).
  rewrite (replaceAll_lacks (Ascii.eqb "`") backticks) by
    (first [reflexivity|apply paragraph_lacks; [reflexivity|reflexivity|exact HT]]).
  unfold replaceAll.
  rewrite (wrapped_unchanged blockSeam _ T eq_refl HT)
    by (first [scan_open|intros b; vm_compute; reflexivity]).
  rewrite (wrapped_unchanged itemSeam _ T eq_refl HT)
    by (first [scan_open|intros b; vm_compute; reflexivity]).
  rewrite (wrapped_unchanged headerEnd _ T eq_refl HT)
    by (first [scan_open|intros b; vm_compute; reflexivity]).
  rewrite (wrapped_unchanged preBlock _ T eq_refl HT)
    by (first [scan_open|intros b; vm_compute; reflexivity]).
  reflexivity.
Qed.

Lemma cleaned_single (text : str) :
  split [newline; newline] (initialCleaning text) = [initialCleaning text].
Proof.
  unfold split. rewrite (CleaningFacts.split_single _ _); [reflexivity|].
  apply (CleaningFacts.sparse_no_blank_line _ false).
  apply (CleaningFacts.sparse_class isWhiteSpace).
  - intros a H. apply Ascii.eqb_eq in H. now subst a.
  - rewrite <- CleaningFacts.lone_sparse. apply CleaningFacts.initialCleaning_lone.
Qed.



End PlainFacts.

(** ** Heat points by mode, and the nearest point *)

Module HeatModeFacts.
Import Js.
Import ArgoFloatsMap.
Import MapPage.

Lemma salinityValue_not_NaN (v : jsval) : isNaN (salinityValue v) = false.
Proof.
  unfold salinityValue, orNumber.
  destruct (match split " " (salinityStr v) with
            | x :: _ => parseFloatStr x
            | [] => NaN
            end) as [s| | |s m e]; reflexivity.
Qed.

Lemma filter_all {A : Type} (f : A -> bool) (l : list A) :
  (forall x, In x l -> f x = true) -> filter f l = l.
Proof.
  induction l as [|a l IH]; intros H; [reflexivity|]. cbn [filter].
  rewrite (H a (or_introl eq_refl)). f_equal. apply IH. intros x Hx.
  apply H. now right.
Qed.

Lemma filter_length {A : Type} (f : A -> bool) (l : list A) :
  List.length (filter f l) <= List.length l.
Proof.
  induction l as [|a l IH]; [apply le_n|]. cbn [filter].
  destruct (f a); cbn [List.length]; lia.
Qed.

Lemma retained_coords (r : ArgoFloat) :
  isInIndianOcean (Some r) = true ->
  isNaN (parseFloat (lat r)) = false /\ isNaN (parseFloat (lng r)) = false.
Proof.
  unfold isInIndianOcean.
  destruct (isNaN (parseFloat (lat r))); [discriminate|].
  destruct (isNaN (parseFloat (lng r))); [discriminate|]. auto.
Qed.

(** X25. With the salinity heatmap, or with the heatmap off, every float
    the region filter retains gives a heat point, since a salinity
    always reads as a Number (zero at worst); the temperature heatmap
    can only show fewer points: it drops the floats whose temperature
    does not read as a Number, such as one that says n/a. *)
Theorem salinity_mode_keeps_all (argoFloats : floats) (activeHeatmap : option heatmap) :
  activeHeatmap <> Some HeatTemperature ->
  heatmapData argoFloats activeHeatmap
  = List.map (toHeatPoint activeHeatmap) (retained argoFloats)
  /\ List.length (heatmapData argoFloats (Some HeatTemperature))
     <= List.length (heatmapData argoFloats activeHeatmap)
  /\ (forall v, isNaN (salinityValue v) = false)
  /\ heatmapData [Some unreadableTempFloat] (Some HeatTemperature) = []
  /\ List.length (heatmapData [Some unreadableTempFloat] (Some HeatSalinity)) = 1.
Proof.
  intros Hm.
  assert (E : heatmapData argoFloats activeHeatmap
              = List.map (toHeatPoint activeHeatmap) (retained argoFloats)).
  { rewrite HeatmapFacts.heatmapData_pipeline. apply filter_all.
    intros p Hp. apply in_map_iff in Hp as (r & <- & Hr).
    apply HeatmapFacts.in_retained in Hr as [_ Hr].
    destruct (retained_coords r Hr) as [N1 N2].
    unfold validPoint, toHeatPoint. cbn [pt_value pt_lat pt_lng].
    rewrite N1, N2.
    destruct activeHeatmap as [[|]|]; [now destruct Hm| |];
      now rewrite salinityValue_not_NaN. }
  split; [exact E|]. split; [|split; [apply salinityValue_not_NaN|]].
  - rewrite E, HeatmapFacts.heatmapData_pipeline, length_map.
    rewrite <- (length_map (toHeatPoint (Some HeatTemperature)) (retained argoFloats)).
    apply filter_length.
  - split; vm_compute; reflexivity.
Qed.

Lemma salinity_mode_keeps_all_witness :
  heatmapData [Some insideFloat; Some northFloat] (Some HeatSalinity)
  = List.map (toHeatPoint (Some HeatSalinity)) (retained [Some insideFloat; Some northFloat]).
Proof.
  refine (proj1 (salinity_mode_keeps_all [Some insideFloat; Some northFloat]
                   (Some HeatSalinity) _)).
  discriminate.
Defined.

End HeatModeFacts.

Module NearestMoreFacts.
Import Js.
Import ArgoFloatsMap.
Import MapPage.

Lemma fold_above (click : LatLng) (p : HeatPoint) (pre : list HeatPoint) :
  forall acc,
    lt (distanceTo click p) (snd acc) = true ->
    (forall q, In q pre -> lt (distanceTo click p) (distanceTo click q) = true) ->
    lt (distanceTo click p) (snd (fold_left (nearestStep click) pre acc)) = true.
Proof.
  induction pre as [|q pre IH]; intros acc Ha Hq; [exact Ha|].
  cbn [fold_left]. apply IH; [|intros q' Hq'; apply Hq; now right].
  unfold nearestStep. destruct (lt (distanceTo click q) (snd acc)); [|exact Ha].
  cbn [snd]. apply Hq. now left.
Qed.

Lemma fold_kept (click : LatLng) (post : list HeatPoint) :
  forall acc,
    (forall q, In q post -> lt (distanceTo click q) (snd acc) = false) ->
    fold_left (nearestStep click) post acc = acc.
Proof.
  induction post as [|q post IH]; intros acc Hq; [reflexivity|].
  cbn [fold_left]. unfold nearestStep at 2. rewrite (Hq q (or_introl eq_refl)).
  apply IH. intros q' Hq'. apply Hq. now right.
Qed.

Lemma nearest_first (click : LatLng) (pre post : list HeatPoint) (p : HeatPoint) :
  (forall q, In q pre -> lt (distanceTo click p) (distanceTo click q) = true) ->
  (forall q, In q post -> lt (distanceTo click q) (distanceTo click p) = false) ->
  lt (distanceTo click p) Infinity = true ->
  nearest click (pre ++ p :: post) = (Some p, distanceTo click p).
Proof.
  intros Hpre Hpost Hp. unfold nearest. rewrite fold_left_app. cbn [fold_left].
  pose proof (fold_above click p pre (None, Infinity) Hp Hpre) as A.
  unfold nearestStep at 2. rewrite A. now apply fold_kept.
Qed.

(** X26. Among the points at the least distance from the click, the one
    that comes first in the list is the nearest point: when every point
    before [p] is strictly farther than [p], no point after [p] is
    strictly nearer, and the distance of [p] is a Number below infinity,
    the lookup ends on [p], and a click within the threshold shows the
    value of [p]. *)
Theorem first_nearest_wins
  (click : LatLng) (pre post : list HeatPoint) (p : HeatPoint)
  (type : heatmap) (clickedPoint : option ClickedPoint) :
  (forall q, In q pre -> lt (distanceTo click p) (distanceTo click q) = true) ->
  (forall q, In q post -> lt (distanceTo click q) (distanceTo click p) = false) ->
  lt (distanceTo click p) (ofZ 100) = true ->
  nearest click (pre ++ p :: post) = (Some p, distanceTo click p)
  /\ handleMapClick (Some type) true (pre ++ p :: post) click clickedPoint
     = Some {| cp_lat := ll_lat click; cp_lng := ll_lng click;
               cp_value := pt_value p; cp_type := type;
               cp_distance := distanceText (distanceTo click p) |}.
Proof.
  intros Hpre Hpost Hp.
  assert (Hi : lt (distanceTo click p) Infinity = true).
  { apply (NumberFacts.lt_trans _ (ofZ 100)); [exact Hp|reflexivity]. }
  pose proof (nearest_first click pre post p Hpre Hpost Hi) as N.
  split; [exact N|]. unfold handleMapClick.
  destruct (pre ++ p :: post) as [|x l] eqn:E; [now destruct pre|].
  rewrite N, Hp. reflexivity.
Qed.

Lemma first_nearest_wins_witness :
  handleMapClick (Some HeatTemperature) true [equatorPoint; equatorPoint]
    clickNearby None
  = Some {| cp_lat := ll_lat clickNearby; cp_lng := ll_lng clickNearby;
            cp_value := pt_value equatorPoint; cp_type := HeatTemperature;
            cp_distance := distanceText (distanceTo clickNearby equatorPoint) |}.
Proof.
  refine (proj2 (first_nearest_wins clickNearby [] [equatorPoint] equatorPoint
                   HeatTemperature None _ _ _)).
  - intros q [].
  - intros q [<-|[]]. apply NumberFacts.lt_irrefl.
  - vm_compute. reflexivity.
Defined.

Lemma round_sign (sx : bool) (mx ex : Z) (lx : location) :
  match binary_round_aux prec emax sx mx ex lx with
  | S754_nan => True
  | S754_zero s | S754_infinity s | S754_finite s _ _ => s = sx
  end.
Proof.
  unfold binary_round_aux.
  destruct (shr_fexp prec emax mx ex lx) as [mrs' e'].
  destruct (shr_fexp prec emax _ e' loc_Exact) as [mrs'' e''].
  destruct (shr_m mrs''); [reflexivity| |exact I].
  destruct (e'' <=? emax - prec)%Z; reflexivity.
Qed.

(** The computed distance is zero, positive or NaN, never negative. *)
Lemma distance_not_negative (click : LatLng) (point : HeatPoint) :
  lt (distanceTo click point) (ofZ 0) = false.
Proof.
  unfold distanceTo.
  set (x := add _ _).
  assert (S : match sqrt x with
              | S754_nan | S754_zero _ => True
              | S754_infinity s | S754_finite s _ _ => s = false
              end).
  { unfold sqrt, SFsqrt. destruct x as [s|[|]| |[|] m e]; try exact I; try reflexivity.
    destruct (SFsqrt_core_binary prec emax (Z.pos m) e) as [[mz ez] lz].
    pose proof (round_sign false mz ez lz) as R.
    destruct (binary_round_aux prec emax false mz ez lz); auto. }
  change (ofZ 100) with (S754_finite false 7036874417766400 (-46)).
  change (ofZ 0) with (S754_zero false).
  unfold mul, SFmul. destruct (sqrt x) as [s|s| |s m e]; try reflexivity.
  - subst s. reflexivity.
  - subst s. cbn [xorb].
    pose proof (round_sign false (Z.pos (m * 7036874417766400)) (e + -46) loc_Exact) as R.
    destruct (binary_round_aux prec emax false _ _ loc_Exact) as [s'|s'| |s' m' e'];
      try reflexivity; subst s'; reflexivity.
Qed.

Lemma sub_self (x : number) : isFinite x = true -> sub x x = S754_zero false.
Proof.
  destruct x as [[|]| | |s m e]; try discriminate; try reflexivity.
  intros _. unfold sub, SFsub. cbn zeta. now rewrite Z.sub_diag.
Qed.



End NearestMoreFacts.

(** ** The theme *)

Module ThemeFacts.
Import Js.
Import Chat.

Lemma str_eqb_iff (s t : str) : str_eqb s t = true <-> s = t.
Proof. unfold str_eqb. destruct (list_eq_dec ascii_dec s t); split; congruence. Qed.

Lemma in_classAdd (token t : str) (tokens : classList) :
  In t (classAdd token tokens) <-> t = token \/ In t tokens.
Proof.
  unfold classAdd. destruct (existsb (str_eqb token) tokens) eqn:E.
  - split; [now right|]. intros [->|H]; [|exact H].
    apply existsb_exists in E as (x & Hx & Ex). apply str_eqb_iff in Ex.
    now subst x.
  - rewrite in_app_iff. cbn [In]. split; [intros [H|[H|[]]]|intros [H|H]]; auto.
Qed.

Lemma in_classRemove (token t : str) (tokens : classList) :
  In t (classRemove token tokens) <-> t <> token /\ In t tokens.
Proof.
  unfold classRemove. rewrite filter_In, negb_true_iff. split.
  - intros [H1 H2]. split; [|exact H1]. intros ->.
    now rewrite (proj2 (str_eqb_iff token token) eq_refl) in H2.
  - intros [H1 H2]. split; [exact H2|].
    destruct (str_eqb t token) eqn:E; [|reflexivity].
    apply str_eqb_iff in E. now destruct H1.
Qed.

Lemma NoDup_classAdd (token : str) (tokens : classList) :
  NoDup tokens -> NoDup (classAdd token tokens).
Proof.
  intros H. unfold classAdd. destruct (existsb (str_eqb token) tokens) eqn:E; [exact H|].
  apply NoDup_app; [exact H|constructor; [intros []|constructor]|].
  intros x Hx [H'|[]]. subst x.
  assert (X : existsb (str_eqb token) tokens = true).
  { apply existsb_exists. exists token. split; [exact Hx|now apply str_eqb_iff]. }
  congruence.
Qed.

Lemma NoDup_classRemove (token : str) (tokens : classList) :
  NoDup tokens -> NoDup (classRemove token tokens).
Proof. apply NoDup_filter. Qed.

(** X28. The body carries the class [dark-mode] exactly when dark mode
    is on: whatever classes the body had, after the effect has run it
    has [theme-transition], it has [dark-mode] if and only if [darkMode]
    is true, every other class is there if and only if it was there
    before, and no class is listed twice if none was; this also holds
    after a press on the theme button, which flips [darkMode]. *)
Theorem dark_mode_class (darkMode : bool) (body : classList) :
  (In ("dark-mode" : str) (applyDarkMode darkMode body) <-> darkMode = true)
  /\ In ("theme-transition" : str) (applyDarkMode darkMode body)
  /\ (forall token,
        token <> ("dark-mode" : str) -> token <> ("theme-transition" : str) ->
        (In token (applyDarkMode darkMode body) <-> In token body))
  /\ (NoDup body -> NoDup (applyDarkMode darkMode body))
  /\ (In ("dark-mode" : str) (snd (pressThemeButton darkMode body))
      <-> fst (pressThemeButton darkMode body) = true)
  /\ fst (pressThemeButton (fst (pressThemeButton darkMode body))
            (snd (pressThemeButton darkMode body))) = darkMode.
Proof.
  assert (A : forall d b,
            (In ("dark-mode" : str) (applyDarkMode d b) <-> d = true)).
  { intros d b. unfold applyDarkMode. cbn zeta. destruct d.
    - rewrite in_classAdd. split; auto.
    - rewrite in_classRemove. split; [intros [H _]; now destruct H|discriminate]. }
  split; [apply A|]. split; [|split; [|split; [|split]]].
  - unfold applyDarkMode. cbn zeta. destruct darkMode.
    + rewrite !in_classAdd. auto.
    + rewrite in_classRemove, in_classAdd. split; [discriminate|auto].
  - intros token H1 H2. unfold applyDarkMode. cbn zeta. destruct darkMode.
    + rewrite !in_classAdd. tauto.
    + rewrite in_classRemove, in_classAdd. tauto.
  - intros N. unfold applyDarkMode. cbn zeta. destruct darkMode.
    + now apply NoDup_classAdd, NoDup_classAdd.
    + now apply NoDup_classRemove, NoDup_classAdd.
  - unfold pressThemeButton. cbn [fst snd]. apply A.
  - unfold pressThemeButton, toggleDarkMode. cbn [fst snd]. apply negb_involutive.
Qed.

Lemma dark_mode_class_witness :
  NoDup (applyDarkMode true ["app" : str; "dark-mode" : str]).
Proof.
  apply (proj1 (proj2 (proj2 (proj2 (dark_mode_class true ["app" : str; "dark-mode" : str]))))).
  repeat constructor; cbn; intuition discriminate.
Defined.

End ThemeFacts.
